(** * The WebSocket push service of the finance dashboard

    A shallow embedding of [WebSocketService] (backend/src/services,
    the websocket service) together with the types of
    [backend/src/types/portfolio.ts] it exchanges with its clients.

    JavaScript numbers are IEEE 754 doubles and are modelled by Rocq's
    primitive floats; [Date.now()] values are integers ([Z]).  A JS [Set] and
    a JS [Map] iterate in insertion order, so both are modelled by lists
    without duplicate keys.  The class runs on a single-threaded event loop:
    every handler runs to completion (or up to its first [await]) and is one
    step of the transition system at the end of the embedding.

    The two collaborators the service awaits follow: the Quote Source
    ([getMultipleStockQuotes] of [financeService.ts]) and the Portfolio
    Builder ([portfolioService.ts]), each from its [await] on.  The
    built-ins [Math.round] and [Array.prototype.sort] are parameters of the
    functions that call them. *)

From Stdlib Require Import ZArith Floats Ascii String.
From stdpp Require Import gmap strings list fin_maps.

Local Open Scope Z_scope.
Local Open Scope string_scope.
Local Open Scope list_scope.

(** ** types/portfolio.ts *)

Record StockHolding := {
  particulars : string;
  purchasePrice : float;
  quantity : float;
  investment : float;
  portfolioPercent : float;
  sh_exchange : string;
  sector : string;
  cmp : option float;
  presentValue : option float;
  gainLoss : option float;
  sh_peRatio : option float;
  latestEarnings : option float;
}.

Record SectorSummary := {
  ss_sector : string;
  ss_totalInvestment : float;
  ss_totalPresentValue : float;
  ss_totalGainLoss : float;
  ss_stocks : list StockHolding;
}.

Record Portfolio := {
  stocks : list StockHolding;
  sectors : list SectorSummary;
  totalInvestment : float;
  totalPresentValue : float;
  totalGainLoss : float;
}.

Record StockQuote := {
  sq_symbol : string;
  regularMarketPrice : option float;
  regularMarketPreviousClose : option float;
  peRatio : option float;
  trailingPE : option float;
  forwardPE : option float;
  earningsPerShare : option float;
  trailingEps : option float;
  forwardEps : option float;
  currency : option string;
  sq_exchange : option string;
}.

Record ChartDataPoint := {
  cdp_timestamp : Z;
  cdp_price : float;
  cdp_volume : option float;
}.

Record StockPriceUpdate := {
  symbol : string;
  exchange : string;
  price : float;
  previousPrice : option float;
  change : option float;
  changePercent : option float;
  timestamp : Z;
}.

(** [WebSocketMessage] is a record of optional fields discriminated by
    [type]; the service builds exactly the six shapes below
    ([stock_price_update] comes with either [data] or [stocks]). *)
Inductive WebSocketMessage :=
| Connected (ts : Z)
| Subscribed (symbols : string) (ts : Z)
| PortfolioUpdate (data : Portfolio) (ts : Z)
| StockPriceUpdateData (data : StockPriceUpdate) (ts : Z)
| StockPriceUpdateStocks (updates : list StockPriceUpdate) (ts : Z)
| ErrorMessage (error : string) (ts : Z).

Definition is_portfolio_update (m : WebSocketMessage) : bool :=
  match m with PortfolioUpdate _ _ => true | _ => false end.

Definition is_error (m : WebSocketMessage) : bool :=
  match m with ErrorMessage _ _ => true | _ => false end.

(** ** JavaScript values *)

(** Truthiness of a number: [0], [-0] and [NaN] are falsy. *)
Definition truthy_number (x : float) : bool :=
  negb (PrimFloat.eqb x 0%float || PrimFloat.is_nan x).

(** Truthiness of a string: only the empty string is falsy. *)
Definition truthy_string (s : string) : bool :=
  match s with EmptyString => false | _ => true end.

Definition is_colon (c : ascii) : bool :=
  if decide (c = ":"%char) then true else false.

(** [s.includes(':')]. *)
Fixpoint includes_colon (s : string) : bool :=
  match s with
  | EmptyString => false
  | String c r => is_colon c || includes_colon r
  end.

(** [s.split(':')]: the pieces between the colons, never the empty array. *)
Fixpoint split_colon (s : string) : list string :=
  match s with
  | EmptyString => [EmptyString]
  | String c r =>
      if is_colon c then EmptyString :: split_colon r
      else match split_colon r with
           | h :: t => String c h :: t
           | [] => [String c EmptyString]
           end
  end.

(** [arr.join(',')]. *)
Fixpoint join_comma (l : list string) : string :=
  match l with
  | [] => ""
  | [x] => x
  | x :: r => x +:+ "," +:+ join_comma r
  end.

(** The destructuring
    [[stockSymbol, exchange] = symbol.includes(':') ? symbol.split(':') : [symbol, 'NSE']]:
    the first two pieces of the split (a key with a colon always has two). *)
Definition symbol_parts (s : string) : string * string :=
  if includes_colon s then
    match split_colon s with
    | a :: b :: _ => (a, b)
    | _ => (s, "NSE")
    end
  else (s, "NSE").

(** ** A JS [Set<string>] in insertion order *)

Definition Set_add (x : string) (s : list string) : list string :=
  if decide (x ∈ s) then s else s ++ [x].

Definition Set_delete (x : string) (s : list string) : list string :=
  filter (λ y, y ≠ x) s.

Definition Set_has (x : string) (s : list string) : bool :=
  bool_decide (x ∈ s).

(** ** A JS [Map] in insertion order, as an association list *)

Section JsMap.
Context {K V : Type} `{EqDecision K}.

Fixpoint Map_get (k : K) (m : list (K * V)) : option V :=
  match m with
  | [] => None
  | (k', v) :: r => if decide (k = k') then Some v else Map_get k r
  end.

(** [set] replaces the value of an existing key in place and appends a new
    key at the end. *)
Fixpoint Map_set (k : K) (v : V) (m : list (K * V)) : list (K * V) :=
  match m with
  | [] => [(k, v)]
  | (k', v') :: r =>
      if decide (k = k') then (k, v) :: r else (k', v') :: Map_set k v r
  end.

Definition Map_delete (k : K) (m : list (K * V)) : list (K * V) :=
  filter (λ e, e.1 ≠ k) m.

Definition Map_keys (m : list (K * V)) : list K := m.*1.

End JsMap.

(** ** The transport: [WebSocket] objects of the [ws] package

    The service only observes [readyState], calls [send], [ping], [close]
    and [terminate], and keeps its own [isAlive] flag on the object.  A
    socket records what was handed to it: [outbox] holds the messages whose
    [send] returned normally, in order; [pings] counts the [ping()] calls.
    [sendThrows] is the environment's choice of whether [send] raises. *)

Inductive ReadyState := CONNECTING | OPEN | CLOSING | CLOSED.

#[global] Instance ReadyState_eq_dec : EqDecision ReadyState.
Proof. solve_decision. Defined.

Record WebSocket := {
  readyState : ReadyState;
  isAlive : option bool;
  sendThrows : bool;
  outbox : list WebSocketMessage;
  pings : nat;
  closeRequested : bool;
  terminated : bool;
}.

Definition ws_with_isAlive (b : option bool) (w : WebSocket) : WebSocket :=
  {| readyState := readyState w; isAlive := b; sendThrows := sendThrows w;
     outbox := outbox w; pings := pings w;
     closeRequested := closeRequested w; terminated := terminated w |}.

Definition ws_with_readyState (r : ReadyState) (w : WebSocket) : WebSocket :=
  {| readyState := r; isAlive := isAlive w; sendThrows := sendThrows w;
     outbox := outbox w; pings := pings w;
     closeRequested := closeRequested w; terminated := terminated w |}.

Definition ws_with_sendThrows (b : bool) (w : WebSocket) : WebSocket :=
  {| readyState := readyState w; isAlive := isAlive w; sendThrows := b;
     outbox := outbox w; pings := pings w;
     closeRequested := closeRequested w; terminated := terminated w |}.

(** A [send] that returns normally. *)
Definition ws_push (m : WebSocketMessage) (w : WebSocket) : WebSocket :=
  {| readyState := readyState w; isAlive := isAlive w;
     sendThrows := sendThrows w; outbox := outbox w ++ [m];
     pings := pings w; closeRequested := closeRequested w;
     terminated := terminated w |}.

(** [ws.ping()]. *)
Definition ws_ping (w : WebSocket) : WebSocket :=
  {| readyState := readyState w; isAlive := isAlive w;
     sendThrows := sendThrows w; outbox := outbox w; pings := S (pings w);
     closeRequested := closeRequested w; terminated := terminated w |}.

(** [ws.close()]: starts the closing handshake of a socket that is not
    closed yet. *)
Definition ws_close (w : WebSocket) : WebSocket :=
  {| readyState := match readyState w with CLOSED => CLOSED | _ => CLOSING end;
     isAlive := isAlive w; sendThrows := sendThrows w; outbox := outbox w;
     pings := pings w; closeRequested := true; terminated := terminated w |}.

(** [ws.terminate()]: destroys the connection of a socket that is not
    closed yet. *)
Definition ws_terminate (w : WebSocket) : WebSocket :=
  {| readyState := match readyState w with CLOSED => CLOSED | _ => CLOSING end;
     isAlive := isAlive w; sendThrows := sendThrows w; outbox := outbox w;
     pings := pings w; closeRequested := closeRequested w;
     terminated := true |}.

(** The transport starts closing on its own (the peer's close frame, a
    socket error). *)
Definition ws_closing (w : WebSocket) : WebSocket :=
  ws_with_readyState
    (match readyState w with CLOSED => CLOSED | _ => CLOSING end) w.

(** The socket handed to the ['connection'] handler: the handshake is
    complete, so it is [OPEN]. *)
Definition new_socket (throws : bool) : WebSocket :=
  {| readyState := OPEN; isAlive := None; sendThrows := throws; outbox := [];
     pings := 0; closeRequested := false; terminated := false |}.

(** ** The service *)

(** [ClientSubscription].  Sockets are heap objects; [ws] is the address of
    the socket in the heap [sockets] below.  [subscribedStocks] is declared
    optional but the only place that builds a subscription (the
    ['connection'] handler) always sets it, so the field is a plain set. *)
Record ClientSubscription := {
  ws : nat;
  subscribedStocks : list string;
  subscribedToPortfolio : bool;
}.

Definition sub_with_subscribedStocks (s : list string) (c : ClientSubscription)
  : ClientSubscription :=
  {| ws := ws c; subscribedStocks := s;
     subscribedToPortfolio := subscribedToPortfolio c |}.

Definition sub_with_subscribedToPortfolio (b : bool) (c : ClientSubscription)
  : ClientSubscription :=
  {| ws := ws c; subscribedStocks := subscribedStocks c;
     subscribedToPortfolio := b |}.

(** The callbacks given to [setInterval]. *)
Inductive TimerCallback := PortfolioTick | StockTick | HeartbeatTick.

#[global] Instance TimerCallback_eq_dec : EqDecision TimerCallback.
Proof. solve_decision. Defined.

Record Timer := { callback : TimerCallback; delay : Z }.

Inductive WebSocketServer := Server (path : string).

(** The fields of [WebSocketService] under their own names, followed by the
    part of the runtime the class acts on:
    - [sockets]: the heap of socket objects, a socket's address being its
      index (sockets are never freed, so addresses are never reused);
    - [timers]: the interval timers of the event loop, a handle returned by
      [setInterval] being an index; [clearInterval] empties the slot;
    - [pendingPortfolio]: the invocations of [broadcastPortfolioUpdate]
      suspended at [await buildPortfolio(...)], each with its local
      [subscribedClients] (the sockets of the subscriptions in the array);
    - [pendingQuotes]: the invocations of [broadcastStockPriceUpdates]
      suspended at [await getMultipleStockQuotes(...)], each with its local
      [subscribedStocks]. *)
Record State := {
  wss : option WebSocketServer;
  clients : list (nat * ClientSubscription);
  updateInterval : option nat;
  stockUpdateInterval : option nat;
  updateIntervalMs : Z;
  stockUpdateIntervalMs : Z;
  priceHistory : gmap string (list ChartDataPoint);
  maxHistoryPoints : nat;
  sockets : list WebSocket;
  timers : list (option Timer);
  pendingPortfolio : list (list nat);
  pendingQuotes : list (list string);
}.

Definition with_wss (x : option WebSocketServer) (st : State) : State :=
  {| wss := x; clients := clients st; updateInterval := updateInterval st;
     stockUpdateInterval := stockUpdateInterval st;
     updateIntervalMs := updateIntervalMs st;
     stockUpdateIntervalMs := stockUpdateIntervalMs st;
     priceHistory := priceHistory st; maxHistoryPoints := maxHistoryPoints st;
     sockets := sockets st; timers := timers st;
     pendingPortfolio := pendingPortfolio st;
     pendingQuotes := pendingQuotes st |}.

Definition with_clients (x : list (nat * ClientSubscription)) (st : State)
  : State :=
  {| wss := wss st; clients := x; updateInterval := updateInterval st;
     stockUpdateInterval := stockUpdateInterval st;
     updateIntervalMs := updateIntervalMs st;
     stockUpdateIntervalMs := stockUpdateIntervalMs st;
     priceHistory := priceHistory st; maxHistoryPoints := maxHistoryPoints st;
     sockets := sockets st; timers := timers st;
     pendingPortfolio := pendingPortfolio st;
     pendingQuotes := pendingQuotes st |}.

Definition with_updateInterval (x : option nat) (st : State) : State :=
  {| wss := wss st; clients := clients st; updateInterval := x;
     stockUpdateInterval := stockUpdateInterval st;
     updateIntervalMs := updateIntervalMs st;
     stockUpdateIntervalMs := stockUpdateIntervalMs st;
     priceHistory := priceHistory st; maxHistoryPoints := maxHistoryPoints st;
     sockets := sockets st; timers := timers st;
     pendingPortfolio := pendingPortfolio st;
     pendingQuotes := pendingQuotes st |}.

Definition with_stockUpdateInterval (x : option nat) (st : State) : State :=
  {| wss := wss st; clients := clients st; updateInterval := updateInterval st;
     stockUpdateInterval := x;
     updateIntervalMs := updateIntervalMs st;
     stockUpdateIntervalMs := stockUpdateIntervalMs st;
     priceHistory := priceHistory st; maxHistoryPoints := maxHistoryPoints st;
     sockets := sockets st; timers := timers st;
     pendingPortfolio := pendingPortfolio st;
     pendingQuotes := pendingQuotes st |}.

Definition with_updateIntervalMs (x : Z) (st : State) : State :=
  {| wss := wss st; clients := clients st; updateInterval := updateInterval st;
     stockUpdateInterval := stockUpdateInterval st;
     updateIntervalMs := x;
     stockUpdateIntervalMs := stockUpdateIntervalMs st;
     priceHistory := priceHistory st; maxHistoryPoints := maxHistoryPoints st;
     sockets := sockets st; timers := timers st;
     pendingPortfolio := pendingPortfolio st;
     pendingQuotes := pendingQuotes st |}.

Definition with_stockUpdateIntervalMs (x : Z) (st : State) : State :=
  {| wss := wss st; clients := clients st; updateInterval := updateInterval st;
     stockUpdateInterval := stockUpdateInterval st;
     updateIntervalMs := updateIntervalMs st;
     stockUpdateIntervalMs := x;
     priceHistory := priceHistory st; maxHistoryPoints := maxHistoryPoints st;
     sockets := sockets st; timers := timers st;
     pendingPortfolio := pendingPortfolio st;
     pendingQuotes := pendingQuotes st |}.

Definition with_priceHistory (x : gmap string (list ChartDataPoint))
  (st : State) : State :=
  {| wss := wss st; clients := clients st; updateInterval := updateInterval st;
     stockUpdateInterval := stockUpdateInterval st;
     updateIntervalMs := updateIntervalMs st;
     stockUpdateIntervalMs := stockUpdateIntervalMs st;
     priceHistory := x; maxHistoryPoints := maxHistoryPoints st;
     sockets := sockets st; timers := timers st;
     pendingPortfolio := pendingPortfolio st;
     pendingQuotes := pendingQuotes st |}.

Definition with_sockets (x : list WebSocket) (st : State) : State :=
  {| wss := wss st; clients := clients st; updateInterval := updateInterval st;
     stockUpdateInterval := stockUpdateInterval st;
     updateIntervalMs := updateIntervalMs st;
     stockUpdateIntervalMs := stockUpdateIntervalMs st;
     priceHistory := priceHistory st; maxHistoryPoints := maxHistoryPoints st;
     sockets := x; timers := timers st;
     pendingPortfolio := pendingPortfolio st;
     pendingQuotes := pendingQuotes st |}.

Definition with_timers (x : list (option Timer)) (st : State) : State :=
  {| wss := wss st; clients := clients st; updateInterval := updateInterval st;
     stockUpdateInterval := stockUpdateInterval st;
     updateIntervalMs := updateIntervalMs st;
     stockUpdateIntervalMs := stockUpdateIntervalMs st;
     priceHistory := priceHistory st; maxHistoryPoints := maxHistoryPoints st;
     sockets := sockets st; timers := x;
     pendingPortfolio := pendingPortfolio st;
     pendingQuotes := pendingQuotes st |}.

Definition with_pendingPortfolio (x : list (list nat)) (st : State) : State :=
  {| wss := wss st; clients := clients st; updateInterval := updateInterval st;
     stockUpdateInterval := stockUpdateInterval st;
     updateIntervalMs := updateIntervalMs st;
     stockUpdateIntervalMs := stockUpdateIntervalMs st;
     priceHistory := priceHistory st; maxHistoryPoints := maxHistoryPoints st;
     sockets := sockets st; timers := timers st;
     pendingPortfolio := x;
     pendingQuotes := pendingQuotes st |}.

Definition with_pendingQuotes (x : list (list string)) (st : State) : State :=
  {| wss := wss st; clients := clients st; updateInterval := updateInterval st;
     stockUpdateInterval := stockUpdateInterval st;
     updateIntervalMs := updateIntervalMs st;
     stockUpdateIntervalMs := stockUpdateIntervalMs st;
     priceHistory := priceHistory st; maxHistoryPoints := maxHistoryPoints st;
     sockets := sockets st; timers := timers st;
     pendingPortfolio := pendingPortfolio st;
     pendingQuotes := x |}.

(** The field initialisers of the class, on an idle runtime. *)
Definition initial_state : State :=
  {| wss := None; clients := []; updateInterval := None;
     stockUpdateInterval := None; updateIntervalMs := 15000;
     stockUpdateIntervalMs := 5000; priceHistory := ∅;
     maxHistoryPoints := 100; sockets := []; timers := [];
     pendingPortfolio := []; pendingQuotes := [] |}.

(** [setInterval(cb, ms)] arms a new timer and returns its handle. *)
Definition setInterval (cb : TimerCallback) (ms : Z) (st : State)
  : nat * State :=
  (length (timers st),
   with_timers (timers st ++ [Some {| callback := cb; delay := ms |}]) st).

Definition clearInterval (h : nat) (st : State) : State :=
  with_timers (<[h := None]> (timers st)) st.

(** The timers that can still fire. *)
Definition active_timers (st : State) : list Timer :=
  omap id (timers st).

(** [this.clients.forEach(f)]: every entry of the map is visited in
    insertion order, except those deleted before their turn.  No callback
    of the class adds an entry while iterating. *)
Definition clients_forEach (f : ClientSubscription → State → State)
  (st : State) : State :=
  fold_left
    (λ acc k, match Map_get k (clients acc) with
              | Some subscription => f subscription acc
              | None => acc
              end)
    (Map_keys (clients st)) st.

(** ** Sending *)

Definition sendToClient (client : nat) (message : WebSocketMessage)
  (st : State) : State :=
  match sockets st !! client with
  | Some w =>
      if decide (readyState w = OPEN) then
        if sendThrows w then
          with_clients (Map_delete client (clients st)) st
        else with_sockets (alter (ws_push message) client (sockets st)) st
      else st
  | None => st
  end.

Definition broadcast (message : WebSocketMessage) (st : State) : State :=
  clients_forEach
    (λ subscription st,
       let w := ws subscription in
       match sockets st !! w with
       | Some s =>
           if decide (readyState s = OPEN) then
             if sendThrows s then
               with_clients (Map_delete w (clients st)) st
             else with_sockets (alter (ws_push message) w (sockets st)) st
           else st
       | None => st
       end)
    st.

(** ** The portfolio cycle *)

(** What [await buildPortfolio(samplePortfolio)] settles with: a snapshot,
    or a rejection whose reason is an [Error] with a message ([Some]) or any
    other value ([None]). *)
Inductive BuildResult :=
| Built (portfolio : Portfolio)
| BuildFailed (message : option string).

(** [broadcastPortfolioUpdate] up to its [await]. *)
Definition broadcastPortfolioUpdate (st : State) : State :=
  let subscribedClients :=
    filter (λ sub, subscribedToPortfolio sub = true) (clients st).*2 in
  if decide (length subscribedClients = 0%nat) then st
  else
    with_pendingPortfolio (pendingPortfolio st ++ [ws <$> subscribedClients])
      st.

(** [broadcastPortfolioUpdate] from its [await] on. *)
Definition broadcastPortfolioUpdate_resume (subscribedClients : list nat)
  (r : BuildResult) (now : Z) (st : State) : State :=
  match r with
  | Built portfolio =>
      let message := PortfolioUpdate portfolio now in
      fold_left (λ acc w, sendToClient w message acc) subscribedClients st
  | BuildFailed e =>
      let errorMessage :=
        ErrorMessage (default "Failed to fetch portfolio data" e) now in
      broadcast errorMessage st
  end.

(** ** The price history store *)

Definition updatePriceHistory (sym : string) (p : float) (ts : Z)
  (st : State) : State :=
  let history := default [] (priceHistory st !! sym) in
  let pushed :=
    history ++ [{| cdp_timestamp := ts; cdp_price := p; cdp_volume := None |}] in
  let kept :=
    if decide (maxHistoryPoints st < length pushed)%nat then tail pushed
    else pushed in
  with_priceHistory (<[sym := kept]> (priceHistory st)) st.

(** [history.length > 0 ? history[history.length - 1].price : undefined]. *)
Definition latest_price (history : list ChartDataPoint) : option float :=
  cdp_price <$> last history.

(** ** The price cycle *)

(** What [await getMultipleStockQuotes(symbols)] settles with: the
    [results.set(symbol, quote)] calls the Quote Source made, in the order
    it made them, or a rejection. *)
Inductive QuotesResult :=
| Quoted (results : list (string * StockQuote))
| QuotesFailed.

Definition quotes_map (results : list (string * StockQuote))
  : list (string * StockQuote) :=
  fold_left (λ m e, Map_set e.1 e.2 m) results [].

(** The union of the subscribed symbols of all clients, in the order the
    nested [forEach] adds them. *)
Definition union_subscribedStocks (st : State) : list string :=
  fold_left
    (λ acc subscription,
       fold_left (λ a s, Set_add s a) (subscribedStocks subscription) acc)
    (clients st).*2 [].

(** The argument handed to the Quote Source. *)
Definition quote_request (subscribedStocks : list string)
  : list (string * string) :=
  symbol_parts <$> subscribedStocks.

(** [broadcastStockPriceUpdates] up to its [await]. *)
Definition broadcastStockPriceUpdates (st : State) : State :=
  let subscribedStocks := union_subscribedStocks st in
  if decide (length subscribedStocks = 0%nat) then st
  else with_pendingQuotes (pendingQuotes st ++ [subscribedStocks]) st.

(** The [find] of the subscribed key whose symbol part is the quoted
    symbol. *)
Definition find_symbolKey (subscribedStocks : list string)
  (originalSymbol : string) : option string :=
  List.find (λ s, bool_decide ((symbol_parts s).1 = originalSymbol))
    subscribedStocks.

Definition make_update (originalSymbol : string) (quote : StockQuote)
  (p : float) (previous : option float) (now : Z) : StockPriceUpdate :=
  {| symbol := originalSymbol;
     exchange := match sq_exchange quote with
                 | Some e => if truthy_string e then e else "NSE"
                 | None => "NSE"
                 end;
     price := p;
     previousPrice := previous;
     change := match previous with
               | Some p0 =>
                   if truthy_number p0 then Some (PrimFloat.sub p p0) else None
               | None => None
               end;
     changePercent :=
       match previous with
       | Some p0 =>
           if truthy_number p0 then
             Some (PrimFloat.mul (PrimFloat.div (PrimFloat.sub p p0) p0)
                     100%float)
           else None
       | None => None
       end;
     timestamp := now |}.

(** The callback of [quotes.forEach]; the accumulator is the local
    [stockUpdates] and the service. *)
Definition quote_step (subscribedStocks : list string) (now : Z)
  (acc : list StockPriceUpdate * State) (entry : string * StockQuote)
  : list StockPriceUpdate * State :=
  let originalSymbol := entry.1 in
  let quote := entry.2 in
  match find_symbolKey subscribedStocks originalSymbol,
        regularMarketPrice quote with
  | Some symbolKey, Some p =>
      if truthy_string symbolKey && truthy_number p then
        let history := default [] (priceHistory acc.2 !! symbolKey) in
        let update :=
          make_update originalSymbol quote p (latest_price history) now in
        (acc.1 ++ [update], updatePriceHistory symbolKey p now acc.2)
      else acc
  | _, _ => acc
  end.

(** The per-client callback of the fan-out. *)
Definition stock_fanout_client (stockUpdates : list StockPriceUpdate)
  (now : Z) (subscription : ClientSubscription) (st : State) : State :=
  if decide (0 < length (subscribedStocks subscription))%nat then
    let clientUpdates :=
      filter (λ u, Set_has (symbol u) (subscribedStocks subscription) = true)
        stockUpdates in
    match clientUpdates with
    | [] => st
    | [u] => sendToClient (ws subscription) (StockPriceUpdateData u now) st
    | _ =>
        sendToClient (ws subscription)
          (StockPriceUpdateStocks clientUpdates now) st
    end
  else st.

(** [broadcastStockPriceUpdates] from its [await] on. *)
Definition broadcastStockPriceUpdates_resume (subscribedStocks : list string)
  (r : QuotesResult) (now : Z) (st : State) : State :=
  match r with
  | Quoted results =>
      let quotes := quotes_map results in
      let '(stockUpdates, st1) :=
        fold_left (quote_step subscribedStocks now) quotes ([], st) in
      if decide (length stockUpdates = 0%nat) then st1
      else clients_forEach (stock_fanout_client stockUpdates now) st1
  | QuotesFailed => st
  end.

(** ** Inbound control messages *)

(** The parsed payload.  Only [data.type] and [data.symbols] are read; a
    missing or non-string [type] equals none of the four literals, like any
    other string, and [symbols] is [Some] exactly when
    [Array.isArray(data.symbols)]; its elements are strings, as the
    callbacks of the handler declare them. *)
Record ClientData := {
  msg_type : string;
  msg_symbols : option (list string);
}.

(** A mutation of the subscription object registered for [w]. *)
Definition update_subscription (w : nat)
  (f : ClientSubscription → ClientSubscription) (st : State) : State :=
  with_clients
    ((λ e, if decide (e.1 = w) then (e.1, f e.2) else e) <$> clients st) st.

Definition handleClientMessage (w : nat) (data : ClientData) (now : Z)
  (st : State) : State :=
  match Map_get w (clients st) with
  | None => st
  | Some _ =>
      let st :=
        match msg_symbols data with
        | Some syms =>
            if decide (msg_type data = "subscribe_stocks") then
              let st :=
                update_subscription w
                  (λ sub,
                     sub_with_subscribedStocks
                       (fold_left (λ a s, Set_add s a) syms
                          (subscribedStocks sub)) sub) st in
              sendToClient w (Subscribed (join_comma syms) now) st
            else st
        | None => st
        end in
      let st :=
        match msg_symbols data with
        | Some syms =>
            if decide (msg_type data = "unsubscribe_stocks") then
              update_subscription w
                (λ sub,
                   sub_with_subscribedStocks
                     (fold_left (λ a s, Set_delete s a) syms
                        (subscribedStocks sub)) sub) st
            else st
        | None => st
        end in
      let st :=
        if decide (msg_type data = "subscribe_portfolio") then
          update_subscription w (sub_with_subscribedToPortfolio true) st
        else st in
      if decide (msg_type data = "unsubscribe_portfolio") then
        update_subscription w (sub_with_subscribedToPortfolio false) st
      else st
  end.

(** ** Connection events *)

(** The ['connection'] handler of [initialize], on a new socket. *)
Definition on_connection (throws : bool) (now : Z) (st : State) : State :=
  let w := length (sockets st) in
  let st :=
    with_sockets
      (sockets st ++ [ws_with_isAlive (Some true) (new_socket throws)]) st in
  let subscription :=
    {| ws := w; subscribedStocks := []; subscribedToPortfolio := true |} in
  let st := with_clients (Map_set w subscription (clients st)) st in
  let st := sendToClient w (Connected now) st in
  broadcastPortfolioUpdate st.

(** The ['message'] handler; [None] is a buffer [JSON.parse] rejects. *)
Definition on_message (w : nat) (data : option ClientData) (now : Z)
  (st : State) : State :=
  match data with
  | Some d => handleClientMessage w d now st
  | None => st
  end.

(** The ['close'] handler; the socket is [CLOSED] when it runs. *)
Definition on_close (w : nat) (st : State) : State :=
  with_clients (Map_delete w (clients st))
    (with_sockets (alter (ws_with_readyState CLOSED) w (sockets st)) st).

(** The ['error'] handler; the transport is closing when it runs. *)
Definition on_error (w : nat) (st : State) : State :=
  with_clients (Map_delete w (clients st))
    (with_sockets (alter ws_closing w (sockets st)) st).

(** The ['pong'] handler. *)
Definition on_pong (w : nat) (st : State) : State :=
  with_sockets (alter (ws_with_isAlive (Some true)) w (sockets st)) st.

(** ** The heartbeat *)

(** The callback of the 30 s interval of [initialize]. *)
Definition heartbeat (st : State) : State :=
  clients_forEach
    (λ subscription st,
       let w := ws subscription in
       match sockets st !! w with
       | Some s =>
           if decide (isAlive s = Some false) then
             let st := with_clients (Map_delete w (clients st)) st in
             with_sockets (alter ws_terminate w (sockets st)) st
           else
             let st :=
               with_sockets
                 (alter (ws_with_isAlive (Some false)) w (sockets st)) st in
             with_sockets (alter ws_ping w (sockets st)) st
       | None => st
       end)
    st.

(** ** The scheduler and the life cycle *)

Definition startPeriodicUpdates (st : State) : State :=
  let st :=
    match updateInterval st with
    | Some h => clearInterval h st
    | None => st
    end in
  let '(h, st) := setInterval PortfolioTick (updateIntervalMs st) st in
  with_updateInterval (Some h) st.

Definition startStockPriceUpdates (st : State) : State :=
  let st :=
    match stockUpdateInterval st with
    | Some h => clearInterval h st
    | None => st
    end in
  let '(h, st) := setInterval StockTick (stockUpdateIntervalMs st) st in
  with_stockUpdateInterval (Some h) st.

(** [initialize(server)]: the handle of the heartbeat interval is dropped. *)
Definition initialize (st : State) : State :=
  let st := with_wss (Some (Server "/ws")) st in
  let st := startPeriodicUpdates st in
  let st := startStockPriceUpdates st in
  (setInterval HeartbeatTick 30000 st).2.

Definition setUpdateInterval (intervalMs : Z) (st : State) : State :=
  startPeriodicUpdates (with_updateIntervalMs intervalMs st).

Definition setStockUpdateInterval (intervalMs : Z) (st : State) : State :=
  startStockPriceUpdates (with_stockUpdateIntervalMs intervalMs st).

Definition getConnectedClientsCount (st : State) : nat :=
  length (clients st).

Definition close (st : State) : State :=
  let st :=
    match updateInterval st with
    | Some h => with_updateInterval None (clearInterval h st)
    | None => st
    end in
  let st :=
    match stockUpdateInterval st with
    | Some h => with_stockUpdateInterval None (clearInterval h st)
    | None => st
    end in
  let st :=
    clients_forEach
      (λ subscription st,
         with_sockets (alter ws_close (ws subscription) (sockets st)) st)
      st in
  let st := with_clients [] st in
  let st := with_priceHistory ∅ st in
  match wss st with
  | Some _ => with_wss None st
  | None => st
  end.

(** ** The event loop

    One event is one task of the event loop: a call of the public interface,
    a socket or server event, the firing of an interval timer, the
    settlement of an awaited call, or a change of a transport made by the
    network.  [Date.now()] is an input of the tasks that read it. *)
Inductive Event :=
| Initialize
| Connection (throws : bool) (now : Z)
| Message (w : nat) (data : option ClientData) (now : Z)
| SocketClose (w : nat)
| SocketError (w : nat)
| Pong (w : nat)
| TimerFired (h : nat)
| PortfolioSettled (i : nat) (r : BuildResult) (now : Z)
| QuotesSettled (i : nat) (r : QuotesResult) (now : Z)
| TriggerUpdate
| TriggerStockUpdate
| SetUpdateInterval (intervalMs : Z)
| SetStockUpdateInterval (intervalMs : Z)
| CloseService
| TransportClosing (w : nat)
| TransportFault (w : nat) (throws : bool).

Definition fire (cb : TimerCallback) (st : State) : State :=
  match cb with
  | PortfolioTick => broadcastPortfolioUpdate st
  | StockTick => broadcastStockPriceUpdates st
  | HeartbeatTick => heartbeat st
  end.

Definition step (e : Event) (st : State) : State :=
  match e with
  | Initialize => initialize st
  | Connection throws now =>
      match wss st with
      | Some _ => on_connection throws now st
      | None => st
      end
  | Message w data now => on_message w data now st
  | SocketClose w => on_close w st
  | SocketError w => on_error w st
  | Pong w => on_pong w st
  | TimerFired h =>
      match timers st !! h with
      | Some (Some t) => fire (callback t) st
      | _ => st
      end
  | PortfolioSettled i r now =>
      match pendingPortfolio st !! i with
      | Some subscribedClients =>
          broadcastPortfolioUpdate_resume subscribedClients r now
            (with_pendingPortfolio (delete i (pendingPortfolio st)) st)
      | None => st
      end
  | QuotesSettled i r now =>
      match pendingQuotes st !! i with
      | Some subscribedStocks =>
          broadcastStockPriceUpdates_resume subscribedStocks r now
            (with_pendingQuotes (delete i (pendingQuotes st)) st)
      | None => st
      end
  | TriggerUpdate => broadcastPortfolioUpdate st
  | TriggerStockUpdate => broadcastStockPriceUpdates st
  | SetUpdateInterval ms => setUpdateInterval ms st
  | SetStockUpdateInterval ms => setStockUpdateInterval ms st
  | CloseService => close st
  | TransportClosing w =>
      with_sockets (alter ws_closing w (sockets st)) st
  | TransportFault w throws =>
      with_sockets (alter (ws_with_sendThrows throws) w (sockets st)) st
  end.

(** The state after a sequence of tasks, oldest first. *)
Definition run (evs : list Event) (st : State) : State :=
  fold_left (λ acc e, step e acc) evs st.

(** ** Reading the price history *)

(** [arr.slice(start)] for an integral [start]: a negative start counts
    from the end, and both are clamped to the array. *)
Definition Array_slice {A} (start : Z) (l : list A) : list A :=
  let len := Z.of_nat (length l) in
  let k := if decide (start < 0) then Z.max (len + start) 0
           else Z.min start len in
  drop (Z.to_nat k) l.

(** [getChartData(symbol, limit)], for an absent or integral [limit]; the
    test [if (limit)] fails for [undefined] and for [0]. *)
Definition getChartData (sym : string) (limit : option Z) (st : State)
  : list ChartDataPoint :=
  let history := default [] (priceHistory st !! sym) in
  match limit with
  | Some n => if decide (n = 0) then history else Array_slice (- n) history
  | None => history
  end.

(** ** financeService.ts: the Quote Source *)

(** The batches of the loop
    [for (i = 0; i < symbols.length; i += batchSize) symbols.slice(i, i + batchSize)]
    with [batchSize = 5]; the loop runs at most [symbols.length] times,
    which bounds the recursion. *)
Fixpoint batches_from {A} (fuel i : nat) (symbols : list A) : list (list A) :=
  match fuel with
  | O => []
  | S fuel' =>
      if decide (i < length symbols)%nat then
        take 5 (drop i symbols) :: batches_from fuel' (i + 5) symbols
      else []
  end.

Definition batches {A} (symbols : list A) : list (list A) :=
  batches_from (length symbols) 0 symbols.

(** The callbacks of the batches, in the order in which they pass their
    [await getStockQuote(symbol, exchange)], each with the request it was
    made for and what [getStockQuote] returned ([None] is [null]); the
    result is the [results] map they fill. *)
Definition getMultipleStockQuotes
  (answers : list ((string * string) * option StockQuote))
  : list (string * StockQuote) :=
  fold_left
    (λ results a,
       match a.2 with
       | Some quote => Map_set a.1.1 quote results
       | None => results
       end)
    answers [].

(** The [results.set] calls of these callbacks, as [QuotesResult] takes
    them. *)
Definition set_calls (answers : list ((string * string) * option StockQuote))
  : list (string * StockQuote) :=
  omap (λ a, (λ quote, (a.1.1, quote)) <$> a.2) answers.

(** ** portfolioService.ts: the Portfolio Builder *)

Definition sh_with_metrics (inv : float) (pv gl : option float)
  (stock : StockHolding) : StockHolding :=
  {| particulars := particulars stock; purchasePrice := purchasePrice stock;
     quantity := quantity stock; investment := inv;
     portfolioPercent := portfolioPercent stock;
     sh_exchange := sh_exchange stock; sector := sector stock;
     cmp := cmp stock; presentValue := pv; gainLoss := gl;
     sh_peRatio := sh_peRatio stock; latestEarnings := latestEarnings stock |}.

Definition calculateStockMetrics (stock : StockHolding) : StockHolding :=
  let inv := PrimFloat.mul (purchasePrice stock) (quantity stock) in
  let pv :=
    match cmp stock with
    | Some c =>
        if truthy_number c then PrimFloat.mul c (quantity stock) else 0%float
    | None => 0%float
    end in
  let gl := PrimFloat.sub pv inv in
  sh_with_metrics inv (Some pv) (Some gl) stock.

(** [stocks.reduce((sum, stock) => sum + stock.purchasePrice * stock.quantity, 0)]. *)
Definition sum_investment (stocks : list StockHolding) : float :=
  fold_left
    (λ sum stock,
       PrimFloat.add sum (PrimFloat.mul (purchasePrice stock) (quantity stock)))
    stocks 0%float.

(** [stocks.reduce((sum, stock) => sum + (stock.presentValue || 0), 0)]. *)
Definition sum_presentValue (stocks : list StockHolding) : float :=
  fold_left
    (λ sum stock,
       PrimFloat.add sum
         (match presentValue stock with
          | Some v => if truthy_number v then v else 0%float
          | None => 0%float
          end))
    stocks 0%float.

Definition sh_with_portfolioPercent (pc : float) (stock : StockHolding)
  : StockHolding :=
  {| particulars := particulars stock; purchasePrice := purchasePrice stock;
     quantity := quantity stock; investment := investment stock;
     portfolioPercent := pc;
     sh_exchange := sh_exchange stock; sector := sector stock;
     cmp := cmp stock; presentValue := presentValue stock;
     gainLoss := gainLoss stock;
     sh_peRatio := sh_peRatio stock; latestEarnings := latestEarnings stock |}.

(** [Math.round(x * 100) / 100], over the built-in [Math.round]. *)
Definition round2 (Math_round : float → float) (x : float) : float :=
  PrimFloat.div (Math_round (PrimFloat.mul x 100%float)) 100%float.

Definition calculatePortfolioPercentages (Math_round : float → float)
  (stocks : list StockHolding) : list StockHolding :=
  let total := sum_investment stocks in
  if PrimFloat.eqb total 0%float then stocks
  else
    (λ stock,
       let inv := PrimFloat.mul (purchasePrice stock) (quantity stock) in
       let pc := PrimFloat.mul (PrimFloat.div inv total) 100%float in
       sh_with_portfolioPercent (round2 Math_round pc) stock) <$> stocks.

(** [stock.sector || 'Unknown']. *)
Definition sector_of (stock : StockHolding) : string :=
  if truthy_string (sector stock) then sector stock else "Unknown".

(** The [sectorMap] the first loop of [groupBySector] fills; [push] on the
    array of an existing sector leaves the sector at its place in the map. *)
Definition sector_map (stocks : list StockHolding)
  : list (string * list StockHolding) :=
  fold_left
    (λ sectorMap stock,
       let sec := sector_of stock in
       let sectorMap :=
         match Map_get sec sectorMap with
         | Some _ => sectorMap
         | None => Map_set sec [] sectorMap
         end in
       Map_set sec (default [] (Map_get sec sectorMap) ++ [stock]) sectorMap)
    stocks [].

Definition sector_summary (Math_round : float → float)
  (e : string * list StockHolding) : SectorSummary :=
  let totalInv := sum_investment e.2 in
  let totalPv := sum_presentValue e.2 in
  let totalGl := PrimFloat.sub totalPv totalInv in
  {| ss_sector := e.1;
     ss_totalInvestment := round2 Math_round totalInv;
     ss_totalPresentValue := round2 Math_round totalPv;
     ss_totalGainLoss := round2 Math_round totalGl;
     ss_stocks := e.2 |}.

(** [groupBySector], over the built-ins [Math.round] and
    [Array.prototype.sort], the latter applied to the comparator of the
    source. *)
Definition groupBySector (Math_round : float → float)
  (Array_sort : (SectorSummary → SectorSummary → float) →
                list SectorSummary → list SectorSummary)
  (stocks : list StockHolding) : list SectorSummary :=
  let sectorSummaries := sector_summary Math_round <$> sector_map stocks in
  Array_sort
    (λ a b, PrimFloat.sub (ss_totalInvestment b) (ss_totalInvestment a))
    sectorSummaries.

Definition sh_with_market (c pe le pv gl : option float)
  (stock : StockHolding) : StockHolding :=
  {| particulars := particulars stock; purchasePrice := purchasePrice stock;
     quantity := quantity stock; investment := investment stock;
     portfolioPercent := portfolioPercent stock;
     sh_exchange := sh_exchange stock; sector := sector stock;
     cmp := c; presentValue := pv; gainLoss := gl;
     sh_peRatio := pe; latestEarnings := le |}.

(** [x || undefined] for an optional number. *)
Definition or_undefined (x : option float) : option float :=
  match x with
  | Some v => if truthy_number v then Some v else None
  | None => None
  end.

(** The request [enrichStocksWithMarketData] hands to the Quote Source. *)
Definition enrich_request (stocks : list StockHolding)
  : list (string * string) :=
  (λ stock, (particulars stock, sh_exchange stock)) <$> stocks.

(** [enrichStocksWithMarketData] from its [await] on, with the [quotes] map
    the Quote Source returned. *)
Definition enrichStocksWithMarketData (quotes : list (string * StockQuote))
  (stocks : list StockHolding) : list StockHolding :=
  (λ stock,
     match Map_get (particulars stock) quotes with
     | Some quote =>
         let c := or_undefined (regularMarketPrice quote) in
         let pe := or_undefined (peRatio quote) in
         let le := or_undefined (earningsPerShare quote) in
         let pv := (λ c, PrimFloat.mul c (quantity stock)) <$> c in
         let inv := PrimFloat.mul (purchasePrice stock) (quantity stock) in
         let gl := (λ pv, PrimFloat.sub pv inv) <$> pv in
         sh_with_market c pe le pv gl stock
     | None => stock
     end) <$> stocks.

(** [buildPortfolio] from the [await] of the enrichment on. *)
Definition buildPortfolio (Math_round : float → float)
  (Array_sort : (SectorSummary → SectorSummary → float) →
                list SectorSummary → list SectorSummary)
  (quotes : list (string * StockQuote)) (rawStocks : list StockHolding)
  : Portfolio :=
  let enrichedStocks := enrichStocksWithMarketData quotes rawStocks in
  let enrichedStocks := calculateStockMetrics <$> enrichedStocks in
  let enrichedStocks :=
    calculatePortfolioPercentages Math_round enrichedStocks in
  let sectors := groupBySector Math_round Array_sort enrichedStocks in
  let totalInv := sum_investment enrichedStocks in
  let totalPv := sum_presentValue enrichedStocks in
  let totalGl := PrimFloat.sub totalPv totalInv in
  {| stocks := enrichedStocks; sectors := sectors;
     totalInvestment := round2 Math_round totalInv;
     totalPresentValue := round2 Math_round totalPv;
     totalGainLoss := round2 Math_round totalGl |}.

(** ** Vocabulary of the properties *)

(** The series the store holds for a symbol, empty when it holds none. *)
Definition series (sym : string) (st : State) : list ChartDataPoint :=
  default [] (priceHistory st !! sym).

Definition point (e : float * Z) : ChartDataPoint :=
  {| cdp_timestamp := e.2; cdp_price := e.1; cdp_volume := None |}.

(** Successive [updatePriceHistory] calls for one symbol, with the given
    prices and timestamps. *)
Definition record_all (sym : string) (pts : list (float * Z)) (st : State)
  : State :=
  fold_left (λ acc e, updatePriceHistory sym e.1 e.2 acc) pts st.

(** What [updatePriceHistory] keeps of a series it has pushed to. *)
Definition capped (n : nat) (l : list ChartDataPoint) : list ChartDataPoint :=
  if decide (n < length l)%nat then tail l else l.

(** [st'] differs from [st] in the registry and the sockets at most. *)
Definition frame (st st' : State) : Prop :=
  st' = with_sockets (sockets st') (with_clients (clients st') st).

(** The series of the store are within the cap and hold truthy prices. *)
Definition history_ok (st : State) : Prop :=
  maxHistoryPoints st = 100%nat ∧
  ∀ sym h, priceHistory st !! sym = Some h →
    (length h ≤ maxHistoryPoints st)%nat ∧
    ∀ pt, pt ∈ h → truthy_number (cdp_price pt) = true.

(** The two ways a [send] on socket [w] can go in [st]: it raises, or it
    returns normally.  Neither holds for a socket that is not [OPEN], on
    which the service does not call [send]. *)
Definition send_raises (w : nat) (st : State) : bool :=
  match sockets st !! w with
  | Some s => bool_decide (readyState s = OPEN) && sendThrows s
  | None => false
  end.

Definition deliverable (w : nat) (st : State) : bool :=
  match sockets st !! w with
  | Some s => bool_decide (readyState s = OPEN) && negb (sendThrows s)
  | None => false
  end.

(** The messages socket [w] has been sent. *)
Definition outbox_of (w : nat) (st : State) : list WebSocketMessage :=
  default [] (outbox <$> sockets st !! w).

(** The registry is a map keyed by the socket of each subscription. *)
Definition registry_wf (cl : list (nat * ClientSubscription)) : Prop :=
  NoDup (Map_keys cl) ∧ ∀ e, e ∈ cl → ws e.2 = e.1.

(** The callbacks the class passes to [this.clients.forEach] all have one
    shape: they act on the socket of the visited subscription and may
    delete its entry.  [act sub s] gives, for the subscription and its
    socket, whether the entry is deleted and what the socket becomes. *)
Definition apply_action (act : ClientSubscription → WebSocket → bool * WebSocket)
  (sub : ClientSubscription) (st : State) : State :=
  match sockets st !! ws sub with
  | Some s =>
      let st :=
        if (act sub s).1 then with_clients (Map_delete (ws sub) (clients st)) st
        else st in
      with_sockets (alter (λ s, (act sub s).2) (ws sub) (sockets st)) st
  | None => st
  end.

(** Whether an entry of the registry survives an action. *)
Definition act_keeps (act : ClientSubscription → WebSocket → bool * WebSocket)
  (socks : list WebSocket) (e : nat * ClientSubscription) : bool :=
  match socks !! e.1 with
  | Some s => negb (act e.2 s).1
  | None => true
  end.

(** The actions of the four callbacks. *)
Definition send_action (m : WebSocketMessage) (s : WebSocket)
  : bool * WebSocket :=
  if decide (readyState s = OPEN) then
    if sendThrows s then (true, s) else (false, ws_push m s)
  else (false, s).

Definition heartbeat_action (s : WebSocket) : bool * WebSocket :=
  if decide (isAlive s = Some false) then (true, ws_terminate s)
  else (false, ws_ping (ws_with_isAlive (Some false) s)).

(** The message the price fan-out has for a subscription, if any. *)
Definition stock_message (stockUpdates : list StockPriceUpdate) (now : Z)
  (sub : ClientSubscription) : option WebSocketMessage :=
  match
    filter (λ u, Set_has (symbol u) (subscribedStocks sub) = true) stockUpdates
  with
  | [] => None
  | [u] => Some (StockPriceUpdateData u now)
  | l => Some (StockPriceUpdateStocks l now)
  end.

(** A fan-out sends each subscription the message [msgf] has for it. *)
Definition fanout_action (msgf : ClientSubscription → option WebSocketMessage)
  (sub : ClientSubscription) (s : WebSocket) : bool * WebSocket :=
  match msgf sub with
  | Some m => send_action m s
  | None => (false, s)
  end.

Definition stock_action (stockUpdates : list StockPriceUpdate) (now : Z)
  : ClientSubscription → WebSocket → bool * WebSocket :=
  fanout_action (stock_message stockUpdates now).

(** What a fan-out run in [st] delivers to socket [c], and which entries
    of the registry it deletes. *)
Definition fanout_received (msgf : ClientSubscription → option WebSocketMessage)
  (st : State) (c : nat) : option WebSocketMessage :=
  match Map_get c (clients st) with
  | Some sub => if deliverable c st then msgf sub else None
  | None => None
  end.

Definition fanout_drops (msgf : ClientSubscription → option WebSocketMessage)
  (st : State) (e : nat * ClientSubscription) : bool :=
  match msgf e.2 with
  | Some _ => send_raises e.1 st
  | None => false
  end.

(** The registry and the suspended portfolio cycles only hold sockets of
    the heap, each at most once. *)
Definition reg_ok (st : State) : Prop :=
  registry_wf (clients st) ∧
  (∀ k, k ∈ Map_keys (clients st) → (k < length (sockets st))%nat) ∧
  ∀ snap, snap ∈ pendingPortfolio st →
    NoDup snap ∧ ∀ w, w ∈ snap → (w < length (sockets st))%nat.

(** [st'] is [st] with some entries of the registry deleted and some
    sockets changed in place. *)
Definition shrinks (st st' : State) : Prop :=
  frame st st' ∧ length (sockets st') = length (sockets st) ∧
  clients st' `sublist_of` clients st.

(** Socket [c] has an entry in the registry. *)
Definition registered (c : nat) (st : State) : bool :=
  bool_decide (is_Some (Map_get c (clients st))).

(** The reading of send isolation under which every failed delivery of a
    fan-out, also one to a transport that is not open, unregisters the
    connection; stated for the error broadcast. *)
Definition failed_send_unregisters : Prop :=
  ∀ (evs : list Event) (m : WebSocketMessage) (c : nat),
    let st := run evs initial_state in
    registered c st = true → deliverable c st = false →
    registered c (broadcast m st) = false.

(** The reading of the failure broadcast under which every registered
    connection, whatever the state of its transport, is sent the [error]
    message of a portfolio cycle whose builder call failed. *)
Definition error_reaches_every_registered : Prop :=
  ∀ (evs : list Event) (i : nat) (snap : list nat) (e : option string)
    (now : Z) (c : nat),
    let st := run evs initial_state in
    pendingPortfolio st !! i = Some snap → registered c st = true →
    outbox_of c (step (PortfolioSettled i (BuildFailed e) now) st) =
      outbox_of c st ++
        [ErrorMessage (default "Failed to fetch portfolio data" e) now].

(** How a socket can change over time: its outbox only grows at the end;
    once it is not [OPEN] it stays so and is sent nothing more; and, as
    long as no pong arrives for it ([pong = false]), its liveness flag stays
    as it is or drops to [false]. *)
Definition socket_evolves (pong : bool) (s s' : WebSocket) : Prop :=
  outbox s `prefix_of` outbox s' ∧
  (readyState s ≠ OPEN → readyState s' ≠ OPEN ∧ outbox s' = outbox s) ∧
  (pong = false → isAlive s' = isAlive s ∨ isAlive s' = Some false).

(** The same for socket [c] of a state, which in addition is never
    registered again once it is not. *)
Definition evolves (pong : bool) (c : nat) (st st' : State) : Prop :=
  ∀ s, sockets st !! c = Some s →
    (∃ s', sockets st' !! c = Some s' ∧ socket_evolves pong s s') ∧
    (registered c st' = true → registered c st = true).

Definition is_pong (c : nat) (e : Event) : bool :=
  match e with Pong w => bool_decide (w = c) | _ => false end.

(** Socket [c] exists and neither the registry nor a suspended portfolio
    cycle holds it. *)
Definition unreferenced (c : nat) (st : State) : Prop :=
  (c < length (sockets st))%nat ∧ registered c st = false ∧
  ∀ snap, snap ∈ pendingPortfolio st → c ∉ snap.

(** The handles the service keeps point at timers of their own cycle, and
    every armed timer of a cycle is the one the service keeps the handle
    of. *)
Definition timers_ok (st : State) : Prop :=
  (∀ h t, updateInterval st = Some h → timers st !! h = Some (Some t) →
     callback t = PortfolioTick) ∧
  (∀ h t, stockUpdateInterval st = Some h → timers st !! h = Some (Some t) →
     callback t = StockTick) ∧
  (∀ h t, timers st !! h = Some (Some t) → callback t = PortfolioTick →
     updateInterval st = Some h) ∧
  (∀ h t, timers st !! h = Some (Some t) → callback t = StockTick →
     stockUpdateInterval st = Some h) ∧
  (∀ h, updateInterval st = Some h → (h < length (timers st))%nat) ∧
  (∀ h, stockUpdateInterval st = Some h → (h < length (timers st))%nat).

(** Every armed heartbeat timer of [st] is still armed in [st']. *)
Definition keeps_heartbeats (st st' : State) : Prop :=
  ∀ h t, timers st !! h = Some (Some t) → callback t = HeartbeatTick →
    timers st' !! h = Some (Some t).

(** The interest set of a registered connection. *)
Definition interest (w : nat) (st : State) : option (list string) :=
  subscribedStocks <$> Map_get w (clients st).

(** The mutations [subscribe_stocks] and [unsubscribe_stocks] make. *)
Definition add_symbols (syms : list string) (sub : ClientSubscription)
  : ClientSubscription :=
  sub_with_subscribedStocks
    (fold_left (λ a s, Set_add s a) syms (subscribedStocks sub)) sub.

Definition delete_symbols (syms : list string) (sub : ClientSubscription)
  : ClientSubscription :=
  sub_with_subscribedStocks
    (fold_left (λ a s, Set_delete s a) syms (subscribedStocks sub)) sub.

(** The armed timers that run a given callback. *)
Definition armed (cb : TimerCallback) (st : State) : list Timer :=
  filter (λ t, callback t = cb) (active_timers st).

(** The [initialize] calls of a trace. *)
Definition is_initialize (e : Event) : bool :=
  match e with Initialize => true | _ => false end.

Definition initializations (evs : list Event) : nat :=
  length (filter (λ e, is_initialize e = true) evs).

(** What one callback of [getMultipleStockQuotes] has in hand after its
    [await]: the request and the quote or [null]. *)
Definition answer := ((string * string) * option StockQuote)%type.

(** The quotes the callbacks for symbol [s] pass to [results.set], in
    completion order. *)
Definition sets_for (s : string) (answers : list answer) : list StockQuote :=
  omap (λ a : answer, if decide (a.1.1 = s) then a.2 else None) answers.

(** The test [armed] makes on one slot of the timer table. *)
Definition pick (cb : TimerCallback) (o : option Timer) : option Timer :=
  o ≫= λ t, if decide (callback t = cb) then Some t else None.

(** [clearInterval] of the handle a field holds, if it holds one. *)
Definition cleared (old : option nat) (ts : list (option Timer))
  : list (option Timer) :=
  match old with Some h => <[h := None]> ts | None => ts end.

(** The periods the two cycles are set to. *)
Definition periods (st : State) : Z * Z :=
  (updateIntervalMs st, stockUpdateIntervalMs st).

(** The timer a cycle runs on when it is armed at its current period. *)
Definition cycle_timer (cb : TimerCallback) (st : State) : Timer :=
  {| callback := cb;
     delay := match cb with
              | PortfolioTick => updateIntervalMs st
              | StockTick => stockUpdateIntervalMs st
              | HeartbeatTick => 30000
              end |}.

(** The holdings of a sector, in the order of the portfolio. *)
Definition in_sector (k : string) (stocks : list StockHolding)
  : list StockHolding :=
  filter (λ s, sector_of s = k) stocks.

(** The tasks that write the price history store. *)
Definition is_close (e : Event) : bool :=
  match e with CloseService => true | _ => false end.

(** No series of the store is empty or filed under the empty key. *)
Definition store_ok (st : State) : Prop :=
  ∀ k h, priceHistory st !! k = Some h → k ≠ "" ∧ h ≠ [].

(** ** Sample data for the examples *)

Definition sample_quote (ex : string) (p : float) : StockQuote :=
  {| sq_symbol := "TCS.BO"; regularMarketPrice := Some p;
     regularMarketPreviousClose := None; peRatio := None; trailingPE := None;
     forwardPE := None; earningsPerShare := None; trailingEps := None;
     forwardEps := None; currency := Some "INR"; sq_exchange := Some ex |}.

Definition subscribe_stocks (syms : list string) : option ClientData :=
  Some {| msg_type := "subscribe_stocks"; msg_symbols := Some syms |}.

Definition unsubscribe_stocks (syms : list string) : option ClientData :=
  Some {| msg_type := "unsubscribe_stocks"; msg_symbols := Some syms |}.

(** * Properties *)

(** ** Sets and maps *)

Lemma elem_of_Set_add (x y : string) (s : list string) :
  y ∈ Set_add x s ↔ y = x ∨ y ∈ s.
Proof.
  unfold Set_add. case_decide.
  - split; [auto | intros [-> | ?]; done].
  - rewrite elem_of_app, list_elem_of_singleton. tauto.
Qed.


Lemma elem_of_fold_Set_add (l s : list string) (y : string) :
  y ∈ fold_left (λ a x, Set_add x a) l s ↔ y ∈ s ∨ y ∈ l.
Proof.
  revert s. induction l as [| x l IH]; intros s; simpl.
  - rewrite elem_of_nil. tauto.
  - rewrite IH, elem_of_Set_add, elem_of_cons. tauto.
Qed.


Lemma fold_Set_add_absorb (l s : list string) :
  (∀ x, x ∈ l → x ∈ s) → fold_left (λ a x, Set_add x a) l s = s.
Proof.
  induction l as [| x l IH]; intros Hl; simpl; [done |].
  unfold Set_add at 2. rewrite decide_True by (apply Hl; left).
  apply IH. intros y Hy. apply Hl. by right.
Qed.

Lemma elem_of_Set_delete (x y : string) (s : list string) :
  y ∈ Set_delete x s ↔ y ∈ s ∧ y ≠ x.
Proof. unfold Set_delete. rewrite list_elem_of_filter. tauto. Qed.

Lemma Set_delete_absent (x : string) (s : list string) :
  x ∉ s → Set_delete x s = s.
Proof.
  unfold Set_delete. induction s as [| y s IH]; intros Hx; [done |].
  apply not_elem_of_cons in Hx as [Hne Hx].
  rewrite filter_cons, decide_True by done. by rewrite IH.
Qed.

Lemma elem_of_fold_Set_delete (l s : list string) (y : string) :
  y ∈ fold_left (λ a x, Set_delete x a) l s ↔ y ∈ s ∧ y ∉ l.
Proof.
  revert s. induction l as [| x l IH]; intros s; simpl.
  - rewrite elem_of_nil. tauto.
  - rewrite IH, elem_of_Set_delete, not_elem_of_cons. tauto.
Qed.

Lemma fold_Set_delete_absorb (l s : list string) :
  (∀ x, x ∈ l → x ∉ s) → fold_left (λ a x, Set_delete x a) l s = s.
Proof.
  induction l as [| x l IH]; intros Hl; simpl; [done |].
  rewrite Set_delete_absent by (apply Hl; left).
  apply IH. intros y Hy. apply Hl. by right.
Qed.

Section MapFacts.
Context {K V : Type} `{EqDecision K}.
Implicit Types (m : list (K * V)) (k : K) (v : V).

Lemma Map_get_Some_elem m k v : Map_get k m = Some v → (k, v) ∈ m.
Proof.
  induction m as [| [k' v'] m IH]; simpl; [done |].
  case_decide; intros Hg.
  - simplify_eq. left.
  - right. by apply IH.
Qed.

Lemma Map_get_None m k : Map_get k m = None ↔ k ∉ Map_keys m.
Proof.
  unfold Map_keys. induction m as [| [k' v'] m IH]; simpl.
  - split; [intros _; apply not_elem_of_nil | done].
  - rewrite not_elem_of_cons. case_decide; [| tauto].
    split; [done | intros [? _]; done].
Qed.

Lemma Map_get_elem m k v : NoDup (Map_keys m) → (k, v) ∈ m → Map_get k m = Some v.
Proof.
  unfold Map_keys. induction m as [| [k' v'] m IH]; simpl; intros Hnd Hin.
  - by apply elem_of_nil in Hin.
  - apply NoDup_cons in Hnd as [Hk' Hnd].
    apply elem_of_cons in Hin as [Heq | Hin].
    + simplify_eq. by rewrite decide_True.
    + rewrite decide_False; [by apply IH |].
      intros ->. apply Hk'. apply list_elem_of_fmap. by exists (k', v).
Qed.

Lemma Map_get_delete m k k' :
  Map_get k (Map_delete k' m) = if decide (k = k') then None else Map_get k m.
Proof.
  unfold Map_delete. induction m as [| [k0 v0] m IH]; simpl.
  - by case_decide.
  - rewrite filter_cons. simpl. destruct (decide (k0 ≠ k')) as [Hne | Heq].
    + simpl. rewrite IH. repeat case_decide; by simplify_eq.
    + apply dec_stable in Heq. subst k0. rewrite IH.
      repeat case_decide; by simplify_eq.
Qed.

Lemma Map_keys_delete m k :
  Map_keys (Map_delete k m) = filter (λ x, x ≠ k) (Map_keys m).
Proof.
  unfold Map_keys, Map_delete. induction m as [| [k0 v0] m IH]; [done |].
  rewrite fmap_cons, !filter_cons. simpl.
  case_decide; simpl; [f_equal |]; exact IH.
Qed.

Lemma Map_get_set m k k' v :
  Map_get k (Map_set k' v m) = if decide (k = k') then Some v else Map_get k m.
Proof.
  induction m as [| [k0 v0] m IH]; simpl.
  - done.
  - destruct (decide (k' = k0)); simpl; [| rewrite IH];
      repeat case_decide; by simplify_eq.
Qed.

Lemma Map_set_fresh m k v : k ∉ Map_keys m → Map_set k v m = m ++ [(k, v)].
Proof.
  unfold Map_keys. induction m as [| [k0 v0] m IH]; simpl; intros Hk; [done |].
  apply not_elem_of_cons in Hk as [Hne Hk].
  rewrite decide_False by done. by rewrite IH.
Qed.

Lemma Map_keys_set m k v :
  Map_keys (Map_set k v m) =
    if decide (k ∈ Map_keys m) then Map_keys m else Map_keys m ++ [k].
Proof.
  unfold Map_keys. induction m as [| [k0 v0] m IH].
  - case_decide as Hk; [by apply elem_of_nil in Hk | done].
  - cbn [Map_set]. destruct (decide (k = k0)) as [-> | Hne].
    + rewrite decide_True by (rewrite fmap_cons; left). done.
    + rewrite !fmap_cons, IH. cbn [fst].
      destruct (decide (k ∈ m.*1)) as [Hin | Hnin].
      * rewrite decide_True by (by right). done.
      * rewrite decide_False; [done |]. rewrite not_elem_of_cons. done.
Qed.

End MapFacts.

(** ** Frames *)

Lemma frame_refl st : frame st st.
Proof. unfold frame. by destruct st. Qed.

Lemma frame_trans st1 st2 st3 : frame st1 st2 → frame st2 st3 → frame st1 st3.
Proof. unfold frame. intros H12 H23. rewrite H23, H12. done. Qed.

Lemma frame_with_clients st c : frame st (with_clients c st).
Proof. unfold frame. by destruct st. Qed.

Lemma frame_with_sockets st x : frame st (with_sockets x st).
Proof. unfold frame. by destruct st. Qed.

Lemma frame_fold {A} (f : State → A → State) (l : list A) st :
  (∀ acc a, frame acc (f acc a)) → frame st (fold_left f l st).
Proof.
  intros Hf. revert st. induction l as [| a l IH]; intros st; simpl.
  - apply frame_refl.
  - eapply frame_trans; [apply Hf | apply IH].
Qed.

Lemma frame_clients_forEach f st :
  (∀ sub acc, frame acc (f sub acc)) → frame st (clients_forEach f st).
Proof.
  intros Hf. unfold clients_forEach. apply frame_fold. intros acc k.
  destruct (Map_get k (clients acc)); [apply Hf | apply frame_refl].
Qed.

Lemma frame_sendToClient w m st : frame st (sendToClient w m st).
Proof.
  unfold sendToClient. destruct (sockets st !! w) as [s |]; [| apply frame_refl].
  case_decide; [| apply frame_refl].
  destruct (sendThrows s); [apply frame_with_clients | apply frame_with_sockets].
Qed.

Lemma frame_broadcast m st : frame st (broadcast m st).
Proof.
  unfold broadcast. apply frame_clients_forEach. intros sub acc. simpl.
  destruct (sockets acc !! ws sub) as [s |]; [| apply frame_refl].
  case_decide; [| apply frame_refl].
  destruct (sendThrows s); [apply frame_with_clients | apply frame_with_sockets].
Qed.

Lemma frame_stock_fanout_client ups now sub st :
  frame st (stock_fanout_client ups now sub st).
Proof.
  unfold stock_fanout_client. case_decide; [| apply frame_refl].
  destruct (filter _ ups) as [| u [| u' l]];
    [apply frame_refl | apply frame_sendToClient ..].
Qed.

Lemma frame_heartbeat st : frame st (heartbeat st).
Proof.
  unfold heartbeat. apply frame_clients_forEach. intros sub acc. simpl.
  destruct (sockets acc !! ws sub) as [s |]; [| apply frame_refl].
  case_decide.
  - eapply frame_trans; [apply frame_with_clients | apply frame_with_sockets].
  - eapply frame_trans; apply frame_with_sockets.
Qed.

Lemma frame_update_subscription w f st : frame st (update_subscription w f st).
Proof. apply frame_with_clients. Qed.

Lemma frame_handleClientMessage w d now st :
  frame st (handleClientMessage w d now st).
Proof.
  unfold handleClientMessage. destruct (Map_get w (clients st)); [| apply frame_refl].
  repeat first
    [ apply frame_refl
    | match goal with
      | |- frame _ (match ?x with _ => _ end) => destruct x
      | |- frame _ (update_subscription _ _ _) =>
          eapply frame_trans; [| apply frame_update_subscription]
      | |- frame _ (sendToClient _ _ _) =>
          eapply frame_trans; [| apply frame_sendToClient]
      end ].
Qed.

Lemma frame_portfolio_resume snap r now st :
  frame st (broadcastPortfolioUpdate_resume snap r now st).
Proof.
  destruct r; simpl.
  - apply frame_fold. intros. apply frame_sendToClient.
  - apply frame_broadcast.
Qed.

(** ** The price history store *)

Lemma frame_history st st' :
  frame st st' →
  priceHistory st' = priceHistory st ∧ maxHistoryPoints st' = maxHistoryPoints st.
Proof. unfold frame. intros ->. done. Qed.

Lemma history_ok_frame st st' : frame st st' → history_ok st → history_ok st'.
Proof.
  intros [Hh Hm]%frame_history. unfold history_ok. by rewrite Hh, Hm.
Qed.

Lemma series_updatePriceHistory sym p ts st :
  series sym (updatePriceHistory sym p ts st) =
    capped (maxHistoryPoints st) (series sym st ++ [point (p, ts)]).
Proof.
  unfold series, updatePriceHistory, capped. simpl.
  rewrite lookup_insert_eq. done.
Qed.

Lemma lookup_updatePriceHistory_ne sym sym' p ts st :
  sym ≠ sym' →
  priceHistory (updatePriceHistory sym p ts st) !! sym' = priceHistory st !! sym'.
Proof. intros Hne. unfold updatePriceHistory. simpl. by rewrite lookup_insert_ne. Qed.

Lemma lookup_updatePriceHistory sym p ts st :
  priceHistory (updatePriceHistory sym p ts st) !! sym =
    Some (capped (maxHistoryPoints st) (series sym st ++ [point (p, ts)])).
Proof. unfold updatePriceHistory. simpl. by rewrite lookup_insert_eq. Qed.

Lemma capped_length n l : (length l ≤ S n)%nat → (length (capped n l) ≤ n)%nat.
Proof.
  unfold capped. case_decide; [| lia]. destruct l; simpl in *; lia.
Qed.

Lemma elem_of_capped n l x : x ∈ capped n l → x ∈ l.
Proof.
  unfold capped. case_decide; [| done]. destruct l; simpl; [done |].
  by right.
Qed.

Lemma history_ok_series sym st :
  history_ok st →
  (length (series sym st) ≤ maxHistoryPoints st)%nat ∧
  ∀ pt, pt ∈ series sym st → truthy_number (cdp_price pt) = true.
Proof.
  intros [_ Hok]. unfold series.
  destruct (priceHistory st !! sym) as [h |] eqn:Hh; simpl.
  - by apply (Hok sym).
  - split; [lia | intros pt Hpt; by apply elem_of_nil in Hpt].
Qed.

Lemma history_ok_updatePriceHistory sym p ts st :
  truthy_number p = true → history_ok st →
  history_ok (updatePriceHistory sym p ts st).
Proof.
  intros Hp Hok. pose proof (history_ok_series sym st Hok) as [Hlen Htr].
  destruct Hok as [Hmax Hok]. split; [done |].
  intros sym' h. destruct (decide (sym = sym')) as [<- | Hne].
  - rewrite lookup_updatePriceHistory. intros [= <-]. split.
    + apply capped_length. rewrite length_app. simpl. lia.
    + intros pt [Hpt | Hpt%list_elem_of_singleton]%elem_of_capped%elem_of_app;
        [by apply Htr | by subst].
  - rewrite lookup_updatePriceHistory_ne by done. apply Hok.
Qed.

Lemma series_record_all sym pts st :
  (length (series sym st) ≤ maxHistoryPoints st)%nat →
  series sym (record_all sym pts st) =
    drop (length (series sym st ++ (point <$> pts)) - maxHistoryPoints st)
      (series sym st ++ (point <$> pts)).
Proof.
  unfold record_all. revert st. induction pts as [| [p ts] pts IH]; intros st Hlen.
  - simpl. rewrite app_nil_r.
    replace (length (series sym st) - maxHistoryPoints st)%nat with 0%nat by lia.
    done.
  - cbn [fold_left fst snd]. rewrite IH.
    + rewrite !series_updatePriceHistory. cbn [maxHistoryPoints updatePriceHistory with_priceHistory].
      unfold capped. rewrite fmap_cons.
      set (h := series sym st) in *. set (n := maxHistoryPoints st) in *.
      rewrite !length_app. cbn [length].
      case_decide as Hc.
      * assert (length h = n) as Hn by lia.
        replace (h ++ point (p, ts) :: (point <$> pts))
          with ((h ++ [point (p, ts)]) ++ (point <$> pts))
          by (by rewrite <- app_assoc).
        destruct (h ++ [point (p, ts)]) as [| x t] eqn:Ht.
        { by destruct h. }
        assert (length t = n) as Hlt.
        { apply (f_equal length) in Ht. rewrite length_app in Ht. simpl in Ht. lia. }
        cbn [tail]. rewrite Hlt.
        replace (length h + S (length (point <$> pts)) - n)%nat
          with (S (n + length (point <$> pts) - n))%nat by lia.
        done.
      * rewrite length_app. cbn [length]. rewrite <- app_assoc. simpl.
        f_equal. lia.
    + rewrite series_updatePriceHistory. cbn [maxHistoryPoints updatePriceHistory with_priceHistory].
      apply capped_length. rewrite length_app. simpl. lia.
Qed.

Lemma history_ok_quote_step subs now acc e :
  history_ok acc.2 → history_ok (quote_step subs now acc e).2.
Proof.
  intros Hok. unfold quote_step.
  destruct (find_symbolKey subs e.1) as [key |]; [| done].
  destruct (regularMarketPrice e.2) as [p |]; [| done].
  destruct (truthy_string key); simpl; [| done].
  destruct (truthy_number p) eqn:Hp; simpl; [| done].
  by apply history_ok_updatePriceHistory.
Qed.

Lemma history_ok_quotes subs now qs acc :
  history_ok acc.2 → history_ok (fold_left (quote_step subs now) qs acc).2.
Proof.
  revert acc. induction qs as [| e qs IH]; intros acc Hok; simpl; [done |].
  by apply IH, history_ok_quote_step.
Qed.

Lemma history_ok_stock_resume subs r now st :
  history_ok st → history_ok (broadcastStockPriceUpdates_resume subs r now st).
Proof.
  intros Hok. destruct r as [results |]; simpl; [| done].
  pose proof (history_ok_quotes subs now (quotes_map results) ([], st) Hok) as H.
  destruct (fold_left _ _ _) as [ups st1]. simpl in H.
  case_decide; [done |].
  eapply history_ok_frame; [| done].
  apply frame_clients_forEach. intros. apply frame_stock_fanout_client.
Qed.

Lemma history_ok_close st : history_ok st → history_ok (close st).
Proof.
  intros [Hmax _]. unfold close.
  set (st1 := match updateInterval st with Some _ => _ | None => _ end).
  set (st2 := match stockUpdateInterval st1 with Some _ => _ | None => _ end).
  assert (maxHistoryPoints st2 = 100%nat) as Hm2.
  { unfold st2, st1. destruct (updateInterval st); simpl;
      destruct (stockUpdateInterval st); simpl; done. }
  set (st3 := clients_forEach _ st2).
  assert (maxHistoryPoints st3 = 100%nat) as Hm3.
  { assert (frame st2 st3) as [_ ->]%frame_history; [| done].
    apply frame_clients_forEach. intros. apply frame_with_sockets. }
  assert (∀ s, maxHistoryPoints s = 100%nat → history_ok (with_priceHistory ∅ s)) as Hempty.
  { intros s Hs. split; [done |]. intros sym h. simpl. by rewrite lookup_empty. }
  simpl. destruct (wss st3); simpl; by apply (Hempty (with_clients [] st3)).
Qed.

Lemma history_ok_initial : history_ok initial_state.
Proof. split; [done |]. intros sym h. simpl. by rewrite lookup_empty. Qed.

Lemma history_ok_same st st' :
  priceHistory st' = priceHistory st →
  maxHistoryPoints st' = maxHistoryPoints st →
  history_ok st → history_ok st'.
Proof. intros Hh Hm. unfold history_ok. by rewrite Hh, Hm. Qed.

Ltac same_history :=
  match goal with
  | H : history_ok ?st |- history_ok _ =>
      apply (history_ok_same st); [| | exact H]; destruct st; cbn;
      repeat case_match; reflexivity
  end.

Lemma history_ok_broadcastPortfolioUpdate st :
  history_ok st → history_ok (broadcastPortfolioUpdate st).
Proof.
  intros Hok. unfold broadcastPortfolioUpdate. case_decide; [done |].
  same_history.
Qed.

Lemma history_ok_broadcastStockPriceUpdates st :
  history_ok st → history_ok (broadcastStockPriceUpdates st).
Proof.
  intros Hok. unfold broadcastStockPriceUpdates. case_decide; [done |].
  same_history.
Qed.

Lemma history_ok_step e st : history_ok st → history_ok (step e st).
Proof.
  intros Hok. destruct e; simpl.
  - unfold initialize, startPeriodicUpdates, startStockPriceUpdates,
      setInterval, clearInterval. same_history.
  - destruct (wss st); [| done]. unfold on_connection.
    apply history_ok_broadcastPortfolioUpdate.
    eapply history_ok_frame; [apply frame_sendToClient |]. same_history.
  - destruct data; simpl; [| done].
    eapply history_ok_frame; [apply frame_handleClientMessage | done].
  - unfold on_close. same_history.
  - unfold on_error. same_history.
  - unfold on_pong. same_history.
  - destruct (timers st !! h) as [[t |] |]; [| done ..].
    destruct (callback t); simpl.
    + by apply history_ok_broadcastPortfolioUpdate.
    + by apply history_ok_broadcastStockPriceUpdates.
    + eapply history_ok_frame; [apply frame_heartbeat | done].
  - destruct (pendingPortfolio st !! i); [| done].
    eapply history_ok_frame; [apply frame_portfolio_resume |]. same_history.
  - destruct (pendingQuotes st !! i); [| done].
    apply history_ok_stock_resume. same_history.
  - by apply history_ok_broadcastPortfolioUpdate.
  - by apply history_ok_broadcastStockPriceUpdates.
  - unfold setUpdateInterval, startPeriodicUpdates, setInterval, clearInterval.
    same_history.
  - unfold setStockUpdateInterval, startStockPriceUpdates, setInterval,
      clearInterval. same_history.
  - by apply history_ok_close.
  - same_history.
  - same_history.
Qed.

Lemma run_ind (P : State → Prop) evs st :
  (∀ e s, P s → P (step e s)) → P st → P (run evs st).
Proof.
  intros Hstep. revert st. unfold run.
  induction evs as [| e evs IH]; intros st Hst; simpl; [done |].
  by apply IH, Hstep.
Qed.

Lemma history_ok_run evs : history_ok (run evs initial_state).
Proof. apply run_ind; [apply history_ok_step | apply history_ok_initial]. Qed.

(** C3: in every state the service can reach, the cap is 100 and no series
    is longer than the cap; and recording cap + k points (k >= 1) for a
    symbol leaves exactly the last cap points of them, in insertion order
    (the k oldest were evicted). *)
Theorem C3_history_bounded_fifo (evs : list Event) (sym : string)
    (pts : list (float * Z)) (k : nat) :
  let st := run evs initial_state in
  maxHistoryPoints st = 100%nat ∧
  (∀ s h, priceHistory st !! s = Some h →
     (length h ≤ maxHistoryPoints st)%nat) ∧
  (length pts = (maxHistoryPoints st + k)%nat → (1 ≤ k)%nat →
     priceHistory (record_all sym pts st) !! sym = Some (point <$> drop k pts) ∧
     length (point <$> drop k pts) = maxHistoryPoints st).
Proof.
  intros st. pose proof (history_ok_run evs) as Hok. fold st in Hok.
  pose proof (history_ok_series sym st Hok) as [Hlen _].
  destruct Hok as [Hmax Hok]. split_and!; [done | intros s h Hh; by apply (Hok s) |].
  intros Hpts Hk.
  assert (series sym (record_all sym pts st) = point <$> drop k pts) as Hs.
  { rewrite series_record_all by done. rewrite length_app, length_fmap, Hpts.
    rewrite drop_app. rewrite fmap_drop.
    replace (length (series sym st) + (maxHistoryPoints st + k) -
               maxHistoryPoints st)%nat
      with (length (series sym st) + k)%nat by lia.
    rewrite drop_ge by lia. simpl. f_equal. lia. }
  split.
  - destruct pts as [| e pts]; [simpl in Hpts; lia |].
    unfold series in Hs.
    destruct (priceHistory (record_all sym (e :: pts) st) !! sym) as [h |] eqn:Hh.
    + simpl in Hs. by rewrite Hs.
    + exfalso. revert Hh. unfold record_all. 
      generalize st. clear. intros st. revert st e.
      induction pts as [| e' pts IH] using rev_ind; intros st e.
      * simpl. rewrite lookup_insert_eq. done.
      * replace (e :: pts ++ [e']) with ((e :: pts) ++ [e']) by done.
        rewrite fold_left_app. simpl. rewrite lookup_insert_eq. done.
  - rewrite length_fmap, length_drop. lia.
Qed.

Lemma C3_history_bounded_fifo_witness :
  let pts := (λ i, (100%float, Z.of_nat i)) <$> seq 0 103 in
  priceHistory (record_all "TCS" pts (run [] initial_state)) !! "TCS"
    = Some (point <$> drop 3 pts).
Proof.
  intros pts.
  apply (C3_history_bounded_fifo [] "TCS" pts 3); [reflexivity | lia].
Defined.

(** ** The price pass of a cycle *)

Lemma NoDup_Map_keys_set {V} (m : list (string * V)) k v :
  NoDup (Map_keys m) → NoDup (Map_keys (Map_set k v m)).
Proof.
  intros Hm. rewrite Map_keys_set. case_decide as Hk; [done |].
  apply NoDup_app. split_and!; [done | | apply NoDup_singleton].
  intros x Hx ->%list_elem_of_singleton. done.
Qed.

Lemma NoDup_quotes_map results : NoDup (Map_keys (quotes_map results)).
Proof.
  unfold quotes_map.
  assert (∀ m : list (string * StockQuote), NoDup (Map_keys m) →
            NoDup (Map_keys (fold_left (λ m e, Map_set e.1 e.2 m) results m)))
    as H.
  { induction results as [| e results IH]; intros m Hm; simpl; [done |].
    by apply IH, NoDup_Map_keys_set. }
  apply H, NoDup_nil_2.
Qed.

Lemma find_symbolKey_Some subs o key :
  find_symbolKey subs o = Some key → (symbol_parts key).1 = o ∧ key ∈ subs.
Proof.
  unfold find_symbolKey. intros [Hin Hb]%find_some. split.
  - by apply bool_decide_eq_true in Hb.
  - by apply list_elem_of_In.
Qed.

Lemma quote_step_other subs now o key acc e :
  find_symbolKey subs o = Some key → e.1 ≠ o →
  let r := quote_step subs now acc e in
  priceHistory r.2 !! key = priceHistory acc.2 !! key ∧
  maxHistoryPoints r.2 = maxHistoryPoints acc.2 ∧
  ∃ more, r.1 = acc.1 ++ more ∧ ∀ u, u ∈ more → symbol u ≠ o.
Proof.
  intros Hkey Hne. unfold quote_step.
  assert (∃ more, acc.1 = acc.1 ++ more ∧
            ∀ u : StockPriceUpdate, u ∈ more → symbol u ≠ o) as Hnil.
  { exists []. rewrite app_nil_r. split; [done |]. intros u Hu.
    by apply elem_of_nil in Hu. }
  destruct (find_symbolKey subs e.1) as [key' |] eqn:Hkey'; [| done].
  destruct (regularMarketPrice e.2) as [p |]; [| done].
  destruct (truthy_string key' && truthy_number p); [| done].
  cbn [fst snd]. split_and!.
  - apply lookup_updatePriceHistory_ne. intros ->.
    apply find_symbolKey_Some in Hkey as [Hk _].
    apply find_symbolKey_Some in Hkey' as [Hk' _]. congruence.
  - done.
  - eexists. split; [done |].
    intros u ->%list_elem_of_singleton. done.
Qed.

Lemma quotes_fold_other subs now o key qs acc :
  find_symbolKey subs o = Some key → o ∉ qs.*1 →
  let r := fold_left (quote_step subs now) qs acc in
  priceHistory r.2 !! key = priceHistory acc.2 !! key ∧
  maxHistoryPoints r.2 = maxHistoryPoints acc.2 ∧
  ∃ more, r.1 = acc.1 ++ more ∧ ∀ u, u ∈ more → symbol u ≠ o.
Proof.
  intros Hkey. revert acc. induction qs as [| e qs IH]; intros acc Ho.
  - simpl. split_and!; [done .. |]. exists []. rewrite app_nil_r.
    split; [done |]. intros u Hu. by apply elem_of_nil in Hu.
  - rewrite fmap_cons in Ho. apply not_elem_of_cons in Ho as [Hne Ho].
    cbn [fold_left].
    destruct (quote_step_other subs now o key acc e Hkey) as (H1 & H2 & m1 & H3 & H4);
      [done |].
    destruct (IH (quote_step subs now acc e) Ho) as (H5 & H6 & m2 & H7 & H8).
    cbn zeta. rewrite H5, H6, H7, H3. split_and!; [done .. |].
    exists (m1 ++ m2). rewrite app_assoc. split; [done |].
    intros u [Hu | Hu]%elem_of_app; auto.
Qed.

(** X20: in a price pass over the quotes of a cycle, run in any state the
    service can reach, the previous price of a quoted symbol is read under
    the subscribed key the quote is attributed to, not under the symbol the
    update names.  The update emitted for a quoted symbol with a truthy
    price P1 carries, when the store holds a latest price P0 under that
    key, [change = P1 - P0] and [changePercent = (P1 - P0) / P0 * 100], and
    carries neither when the store holds no point under that key; P0 is the
    latest price of the store as it was before the pass, and the pass then
    records the new point under that key. *)
Theorem X20_change_from_attributed_key (evs : list Event)
    (subs : list string) (results : list (string * StockQuote)) (now : Z)
    (o : string) (quote : StockQuote) (key : string) (P1 : float) :
  let st := run evs initial_state in
  let r := fold_left (quote_step subs now) (quotes_map results) ([], st) in
  (o, quote) ∈ quotes_map results →
  find_symbolKey subs o = Some key → key ≠ "" →
  regularMarketPrice quote = Some P1 → truthy_number P1 = true →
  ∃ u, u ∈ r.1 ∧ (∀ u', u' ∈ r.1 → symbol u' = o → u' = u) ∧
    symbol u = o ∧ price u = P1 ∧ timestamp u = now ∧
    match latest_price (series key st) with
    | Some P0 =>
        previousPrice u = Some P0 ∧
        change u = Some (PrimFloat.sub P1 P0) ∧
        changePercent u =
          Some (PrimFloat.mul (PrimFloat.div (PrimFloat.sub P1 P0) P0)
                  100%float)
    | None =>
        previousPrice u = None ∧ change u = None ∧ changePercent u = None
    end ∧
    series key r.2 =
      capped (maxHistoryPoints st) (series key st ++ [point (P1, now)]).
Proof.
  intros st r Hin Hkey Hne HP1 Htr.
  pose proof (NoDup_quotes_map results) as Hnd.
  apply list_elem_of_split in Hin as (l1 & l2 & Hq).
  unfold r. rewrite Hq in Hnd |- *. unfold Map_keys in Hnd.
  rewrite fmap_app, fmap_cons in Hnd. cbn [fst] in Hnd.
  apply NoDup_app in Hnd as (_ & Hl1 & [Hl2 _]%NoDup_cons).
  assert (o ∉ l1.*1) as Ho1.
  { intros Ho. apply (Hl1 o Ho). left. }
  rewrite fold_left_app. cbn [fold_left].
  destruct (quotes_fold_other subs now o key l1 ([], st) Hkey Ho1)
    as (Hh1 & Hm1 & m1 & Hu1 & Hs1).
  set (a1 := fold_left (quote_step subs now) l1 ([], st)) in *.
  cbn [fst snd app] in Hh1, Hm1, Hu1.
  set (u := make_update o quote P1 (latest_price (series key st)) now).
  assert (quote_step subs now a1 (o, quote) =
            (a1.1 ++ [u], updatePriceHistory key P1 now a1.2)) as Hstep.
  { unfold quote_step. cbn [fst snd]. rewrite Hkey, HP1, Htr.
    destruct key; [done |]. cbn [truthy_string andb].
    unfold u, series. by rewrite Hh1. }
  rewrite Hstep.
  destruct (quotes_fold_other subs now o key l2
              (a1.1 ++ [u], updatePriceHistory key P1 now a1.2) Hkey Hl2)
    as (Hh2 & Hm2 & m2 & Hu2 & Hs2).
  cbn [fst snd] in Hh2, Hm2, Hu2.
  exists u. split_and!.
  - rewrite Hu2. apply elem_of_app. left. apply elem_of_app. right. left.
  - intros u' Hu' Hsym. rewrite Hu2, Hu1 in Hu'.
    apply elem_of_app in Hu' as [[Hu' | Hu']%elem_of_app | Hu'].
    + by apply Hs1 in Hu'.
    + by apply list_elem_of_singleton in Hu'.
    + by apply Hs2 in Hu'.
  - done.
  - done.
  - done.
  - pose proof (history_ok_run evs) as Hok. fold st in Hok.
    apply (history_ok_series key) in Hok as [_ Hok].
    subst u. unfold make_update, latest_price. cbn [previousPrice change changePercent].
    destruct (last (series key st)) as [pt |] eqn:Hlast;
      cbn [fmap option_fmap option_map]; [| done].
    assert (truthy_number (cdp_price pt) = true) as Hpt.
    { apply Hok. apply last_Some in Hlast as [l' ->]. apply elem_of_app.
      right. left. }
    rewrite Hpt. done.
  - unfold series at 1. rewrite Hh2. rewrite lookup_updatePriceHistory.
    cbn [default]. rewrite Hm1. unfold series. by rewrite Hh1.
Qed.

Lemma X20_change_from_attributed_key_witness :
  let evs :=
    [Initialize; Connection false 1; Message 0 (subscribe_stocks ["TCS"]) 2;
     TimerFired 1; QuotesSettled 0 (Quoted [("TCS", sample_quote "NSE" 100)]) 5] in
  let st := run evs initial_state in
  ∃ u,
    u ∈ (fold_left (quote_step ["TCS"] 9)
           (quotes_map [("TCS", sample_quote "NSE" 110)]) ([], st)).1 ∧
    previousPrice u = Some 100%float ∧
    change u = Some 10%float ∧ changePercent u = Some 10%float.
Proof.
  intros evs st.
  destruct (X20_change_from_attributed_key evs ["TCS"]
              [("TCS", sample_quote "NSE" 110)] 9 "TCS"
              (sample_quote "NSE" 110) "TCS" 110%float)
    as (u & Hu & _ & _ & _ & _ & Hprev & _).
  - vm_compute. left.
  - reflexivity.
  - discriminate.
  - reflexivity.
  - reflexivity.
  - exists u. split; [exact Hu |]. vm_compute in Hprev. exact Hprev.
Defined.

(** C2, on the code: the previous price is looked up under the first
    subscribed key with the symbol part of the quote, so a second key for
    the same symbol hides the price the store holds.  One connection
    subscribes to [TCS] and a cycle records the price 100 under [TCS]; then
    a connection registered earlier subscribes to [TCS:NSE].  The next cycle
    asks for TCS on NSE twice, gets the quote 110, attributes it to
    [TCS:NSE], which has no series, and sends the subscriber of [TCS] an
    update without previous price, change and percentage, while the store
    holds 100 for [TCS] before and after the pass. *)
Theorem C2_other_key_hides_previous_price :
  let st :=
    run [Initialize; Connection false 1; Connection false 2;
         Message 1 (subscribe_stocks ["TCS"]) 3; TriggerStockUpdate;
         QuotesSettled 0 (Quoted [("TCS", sample_quote "NSE" 100)]) 4;
         Message 0 (subscribe_stocks ["TCS:NSE"]) 5; TriggerStockUpdate]
      initial_state in
  let results := [("TCS", sample_quote "NSE" 110)] in
  let r := step (QuotesSettled 0 (Quoted results) 6) st in
  let update :=
    {| symbol := "TCS"; exchange := "NSE"; price := 110;
       previousPrice := None; change := None; changePercent := None;
       timestamp := 6 |} in
  pendingQuotes st = [["TCS:NSE"; "TCS"]] ∧
  quote_request ["TCS:NSE"; "TCS"] = [("TCS", "NSE"); ("TCS", "NSE")] ∧
  latest_price (series "TCS" st) = Some 100%float ∧
  series "TCS:NSE" st = [] ∧
  find_symbolKey ["TCS:NSE"; "TCS"] "TCS" = Some "TCS:NSE" ∧
  (fold_left (quote_step ["TCS:NSE"; "TCS"] 6) (quotes_map results) ([], st)).1
    = [update] ∧
  outbox_of 1 r = outbox_of 1 st ++ [StockPriceUpdateData update 6] ∧
  series "TCS" r = [point (100%float, 4)] ∧
  series "TCS:NSE" r = [point (110%float, 6)].
Proof. vm_compute. repeat split; reflexivity. Qed.

(** ** Subscription messages *)

Lemma Map_get_update_subscription w w' f st :
  Map_get w' (clients (update_subscription w f st)) =
    if decide (w' = w) then f <$> Map_get w' (clients st)
    else Map_get w' (clients st).
Proof.
  unfold update_subscription. cbn [clients with_clients].
  induction (clients st) as [| [k v] m IH]; [by case_decide |].
  rewrite fmap_cons. cbn [fst snd Map_get].
  destruct (decide (k = w)) as [-> | Hk]; cbn [fst snd Map_get];
    destruct (decide (w' = w)) as [-> | Hw']; rewrite ?IH;
    repeat case_decide; simplify_eq; done.
Qed.

Lemma update_subscription_idem w f st :
  (∀ sub, f (f sub) = f sub) →
  update_subscription w f (update_subscription w f st) =
    update_subscription w f st.
Proof.
  intros Hf. unfold update_subscription. cbn [clients with_clients].
  assert (∀ m : list (nat * ClientSubscription),
    (λ e, if decide (e.1 = w) then (e.1, f e.2) else e) <$>
      ((λ e, if decide (e.1 = w) then (e.1, f e.2) else e) <$> m) =
    (λ e, if decide (e.1 = w) then (e.1, f e.2) else e) <$> m) as ->.
  { intros m. rewrite <- list_fmap_compose. apply list_fmap_ext.
    intros i [k v] _. cbn. destruct (decide (k = w)) as [Hk | Hk]; cbn.
    - rewrite decide_True by done. by rewrite Hf.
    - by rewrite decide_False by done. }
  by destruct st.
Qed.

Lemma add_symbols_idem syms sub :
  add_symbols syms (add_symbols syms sub) = add_symbols syms sub.
Proof.
  unfold add_symbols, sub_with_subscribedStocks. cbn. f_equal.
  apply fold_Set_add_absorb. intros x Hx. apply elem_of_fold_Set_add. by right.
Qed.

Lemma delete_symbols_idem syms sub :
  delete_symbols syms (delete_symbols syms sub) = delete_symbols syms sub.
Proof.
  unfold delete_symbols, sub_with_subscribedStocks. cbn. f_equal.
  apply fold_Set_delete_absorb. intros x Hx [_ Hn]%elem_of_fold_Set_delete.
  done.
Qed.

Lemma handleClientMessage_subscribe w syms now st sub :
  Map_get w (clients st) = Some sub →
  handleClientMessage w
    {| msg_type := "subscribe_stocks"; msg_symbols := Some syms |} now st =
  sendToClient w (Subscribed (join_comma syms) now)
    (update_subscription w (add_symbols syms) st).
Proof.
  intros Hget. unfold handleClientMessage. rewrite Hget.
  cbn [msg_type msg_symbols].
  rewrite (decide_True (P := "subscribe_stocks" = "subscribe_stocks")) by done.
  rewrite !decide_False by done. done.
Qed.

Lemma handleClientMessage_unsubscribe w syms now st sub :
  Map_get w (clients st) = Some sub →
  handleClientMessage w
    {| msg_type := "unsubscribe_stocks"; msg_symbols := Some syms |} now st =
  update_subscription w (delete_symbols syms) st.
Proof.
  intros Hget. unfold handleClientMessage. rewrite Hget.
  cbn [msg_type msg_symbols].
  rewrite (decide_True (P := "unsubscribe_stocks" = "unsubscribe_stocks"))
    by done.
  rewrite !decide_False by done. done.
Qed.

Lemma clients_sendToClient w m st :
  clients (sendToClient w m st) =
    if send_raises w st then Map_delete w (clients st) else clients st.
Proof.
  unfold sendToClient, send_raises. destruct (sockets st !! w) as [s |]; [| done].
  case_decide as Ho.
  - rewrite bool_decide_eq_true_2 by done. by destruct (sendThrows s).
  - by rewrite bool_decide_eq_false_2 by done.
Qed.

Lemma sockets_sendToClient w m st :
  sockets (sendToClient w m st) =
    if deliverable w st then alter (ws_push m) w (sockets st) else sockets st.
Proof.
  unfold sendToClient, deliverable. destruct (sockets st !! w) as [s |]; [| done].
  case_decide as Ho.
  - rewrite bool_decide_eq_true_2 by done. by destruct (sendThrows s).
  - by rewrite bool_decide_eq_false_2 by done.
Qed.

Lemma send_raises_alter f w c st :
  (∀ s, readyState (f s) = readyState s ∧ sendThrows (f s) = sendThrows s) →
  send_raises c (with_sockets (alter f w (sockets st)) st) = send_raises c st.
Proof.
  intros Hf. unfold send_raises. cbn [sockets with_sockets].
  rewrite list_lookup_alter. case_decide as Hw; [subst c |]; [| done].
  destruct (sockets st !! w) as [s |]; [| done]. cbn.
  by destruct (Hf s) as [-> ->].
Qed.

Lemma deliverable_alter f w c st :
  (∀ s, readyState (f s) = readyState s ∧ sendThrows (f s) = sendThrows s) →
  deliverable c (with_sockets (alter f w (sockets st)) st) = deliverable c st.
Proof.
  intros Hf. unfold deliverable. cbn [sockets with_sockets].
  rewrite list_lookup_alter. case_decide as Hw; [subst c |]; [| done].
  destruct (sockets st !! w) as [s |]; [| done]. cbn.
  by destruct (Hf s) as [-> ->].
Qed.

Lemma send_raises_sendToClient w m c st :
  send_raises c (sendToClient w m st) = send_raises c st.
Proof.
  unfold send_raises at 1. rewrite sockets_sendToClient.
  destruct (deliverable w st); [| done].
  apply (send_raises_alter (ws_push m) w c st). done.
Qed.

Lemma deliverable_sendToClient w m c st :
  deliverable c (sendToClient w m st) = deliverable c st.
Proof.
  unfold deliverable at 1. rewrite sockets_sendToClient.
  destruct (deliverable w st); [| done].
  apply (deliverable_alter (ws_push m) w c st). done.
Qed.

(** C9: for a registered connection with interest set [prior],
    [subscribe_stocks(syms)] leaves the union of [prior] and [syms] and
    [unsubscribe_stocks(syms)] leaves [prior] minus [syms]; the connection
    stays registered (after a subscription: unless the send of the
    confirmation raised, which unregisters it); repeating either message
    changes no interest set; and either message without a list of symbols
    changes nothing at all. *)
Theorem C9_subscription_algebra (st : State) (w : nat)
    (prior syms : list string) (now now' : Z) :
  interest w st = Some prior →
  let st1 := on_message w (subscribe_stocks syms) now st in
  let st2 := on_message w (unsubscribe_stocks syms) now st in
  (∀ after, interest w st1 = Some after →
     ∀ x, x ∈ after ↔ x ∈ prior ∨ x ∈ syms) ∧
  (send_raises w st = false → is_Some (interest w st1)) ∧
  clients (on_message w (subscribe_stocks syms) now' st1) = clients st1 ∧
  (∃ after, interest w st2 = Some after ∧
     ∀ x, x ∈ after ↔ x ∈ prior ∧ x ∉ syms) ∧
  on_message w (unsubscribe_stocks syms) now' st2 = st2 ∧
  on_message w
    (Some {| msg_type := "subscribe_stocks"; msg_symbols := None |}) now st
    = st ∧
  on_message w
    (Some {| msg_type := "unsubscribe_stocks"; msg_symbols := None |}) now st
    = st.
Proof.
  intros Hprior st1 st2. unfold interest in *.
  destruct (Map_get w (clients st)) as [sub |] eqn:Hget; [| done].
  cbn in Hprior. injection Hprior as <-.
  set (U := update_subscription w (add_symbols syms)).
  assert (Map_get w (clients (U st)) = Some (add_symbols syms sub)) as Hadd.
  { unfold U. rewrite Map_get_update_subscription, decide_True, Hget by done.
    done. }
  assert (Map_get w (clients (update_subscription w (delete_symbols syms) st))
          = Some (delete_symbols syms sub)) as Hdel.
  { rewrite Map_get_update_subscription, decide_True, Hget by done. done. }
  assert (st1 = sendToClient w (Subscribed (join_comma syms) now) (U st))
    as Hst1 by apply (handleClientMessage_subscribe _ _ _ _ _ Hget).
  assert (st2 = update_subscription w (delete_symbols syms) st) as Hst2
    by apply (handleClientMessage_unsubscribe _ _ _ _ _ Hget).
  assert (send_raises w (U st) = send_raises w st) as Hr by done.
  assert (Map_get w (clients st1) =
          if send_raises w st then None else Some (add_symbols syms sub))
    as Hget1.
  { rewrite Hst1, clients_sendToClient, Hr. destruct (send_raises w st).
    - by rewrite Map_get_delete, decide_True.
    - done. }
  split_and!.
  - intros after. rewrite Hget1. destruct (send_raises w st); [done |].
    intros [= <-] x. cbn. apply elem_of_fold_Set_add.
  - intros Hno. rewrite Hget1, Hno. done.
  - unfold on_message, subscribe_stocks.
    destruct (send_raises w st) eqn:Hraise.
    + unfold handleClientMessage. by rewrite Hget1.
    + rewrite (handleClientMessage_subscribe _ _ _ _ _ Hget1).
      rewrite clients_sendToClient. fold U.
      assert (send_raises w (U st1) = false) as ->.
      { change (send_raises w (U st1)) with (send_raises w st1).
        rewrite Hst1, send_raises_sendToClient. exact Hr. }
      assert (clients st1 = clients (U st)) as Hc1.
      { rewrite Hst1, clients_sendToClient. by rewrite Hr. }
      transitivity (clients (U (U st))).
      * unfold U, update_subscription. cbn [clients with_clients].
        by rewrite Hc1.
      * unfold U. rewrite update_subscription_idem by apply add_symbols_idem.
        done.
  - exists (subscribedStocks (delete_symbols syms sub)). rewrite Hst2, Hdel.
    split; [done |]. intros x. cbn. apply elem_of_fold_Set_delete.
  - unfold on_message, unsubscribe_stocks.
    assert (Map_get w (clients st2) = Some (delete_symbols syms sub)) as Hget2
      by (by rewrite Hst2).
    rewrite (handleClientMessage_unsubscribe _ _ _ _ _ Hget2).
    rewrite Hst2. apply update_subscription_idem, delete_symbols_idem.
  - unfold on_message, handleClientMessage. rewrite Hget. cbn.
    rewrite !decide_False by done. done.
  - unfold on_message, handleClientMessage. rewrite Hget. cbn.
    rewrite !decide_False by done. done.
Qed.

Lemma C9_subscription_algebra_witness :
  let st :=
    run [Initialize; Connection false 1;
         Message 0 (subscribe_stocks ["TCS"; "INFY"]) 2] initial_state in
  interest 0 st = Some ["TCS"; "INFY"] ∧
  ∃ after,
    interest 0 (on_message 0 (unsubscribe_stocks ["TCS"]) 3 st) = Some after ∧
    ∀ x, x ∈ after ↔ x ∈ ["TCS"; "INFY"] ∧ x ∉ ["TCS"].
Proof.
  intros st. split; [reflexivity |].
  apply (C9_subscription_algebra st 0 ["TCS"; "INFY"] ["TCS"] 3 4).
  reflexivity.
Defined.

(** ** Iterating over the registry *)

Lemma filter_ext_in {A} (P Q : A → Prop) `{∀ x, Decision (P x)}
    `{∀ x, Decision (Q x)} (l : list A) :
  (∀ x, x ∈ l → P x ↔ Q x) → filter P l = filter Q l.
Proof.
  induction l as [| a l IH]; intros Hl; [done |].
  rewrite !filter_cons. rewrite IH by (intros x Hx; apply Hl; by right).
  destruct (decide (P a)) as [Hp | Hp], (decide (Q a)) as [Hq | Hq];
    try done; exfalso; apply (Hl a (list_elem_of_here _ _)) in Hp || apply Hp;
    try done; by apply (Hl a (list_elem_of_here _ _)).
Qed.

Lemma filter_all {A} (P : A → Prop) `{∀ x, Decision (P x)} (l : list A) :
  (∀ x, x ∈ l → P x) → filter P l = l.
Proof.
  induction l as [| a l IH]; intros Hl; [done |].
  rewrite filter_cons_True by (apply Hl; left).
  rewrite IH; [done |]. intros x Hx. apply Hl. by right.
Qed.

Lemma registry_wf_get cl k sub :
  registry_wf cl → Map_get k cl = Some sub → ws sub = k.
Proof. intros [_ Hws] Hg%Map_get_Some_elem. by apply (Hws (k, sub)). Qed.

Lemma frame_apply_action act sub st : frame st (apply_action act sub st).
Proof.
  unfold apply_action. destruct (sockets st !! ws sub) as [s |];
    [| apply frame_refl].
  cbn zeta. destruct (act sub s).1.
  - eapply frame_trans; [apply frame_with_clients | apply frame_with_sockets].
  - apply frame_with_sockets.
Qed.

Lemma clients_apply_action act sub st :
  clients (apply_action act sub st) =
    if act_keeps act (sockets st) (ws sub, sub) then clients st
    else Map_delete (ws sub) (clients st).
Proof.
  unfold apply_action, act_keeps. cbn [fst snd].
  destruct (sockets st !! ws sub) as [s |]; [| done].
  cbn zeta. by destruct (act sub s).1.
Qed.

Lemma sockets_apply_action act sub st :
  sockets (apply_action act sub st) =
    alter (λ s, (act sub s).2) (ws sub) (sockets st).
Proof.
  unfold apply_action. destruct (sockets st !! ws sub) as [s |] eqn:Hs.
  - cbn zeta. by destruct (act sub s).1.
  - symmetry. apply list_eq. intros i. rewrite list_lookup_alter.
    case_decide; [subst i; by rewrite Hs | done].
Qed.

(** The iteration over the keys [ks], started in [acc]. *)
Lemma forEach_keys act ks acc :
  NoDup ks → registry_wf (clients acc) →
  let r :=
    fold_left
      (λ acc k, match Map_get k (clients acc) with
                | Some sub => apply_action act sub acc
                | None => acc
                end) ks acc in
  frame acc r ∧
  clients r =
    filter (λ e, e.1 ∈ ks → act_keeps act (sockets acc) e = true) (clients acc) ∧
  ∀ c, sockets r !! c =
    if decide (c ∈ ks) then
      match Map_get c (clients acc) with
      | Some sub => (λ s, (act sub s).2) <$> sockets acc !! c
      | None => sockets acc !! c
      end
    else sockets acc !! c.
Proof.
  intros Hnd. revert acc. induction Hnd as [| k ks Hk Hnd IH]; intros acc Hwf.
  - cbn [fold_left]. split_and!.
    + apply frame_refl.
    + symmetry. apply filter_all. intros e _ He. by apply elem_of_nil in He.
    + intros c. rewrite decide_False by apply not_elem_of_nil. done.
  - cbn [fold_left].
    set (acc1 := match Map_get k (clients acc) with
                 | Some sub => apply_action act sub acc
                 | None => acc
                 end).
    assert (frame acc acc1) as Hf1.
    { unfold acc1. destruct (Map_get k (clients acc));
        [apply frame_apply_action | apply frame_refl]. }
    assert (clients acc1 =
            filter (λ e, e.1 = k → act_keeps act (sockets acc) e = true)
              (clients acc)) as Hc1.
    { unfold acc1. destruct (Map_get k (clients acc)) as [sub |] eqn:Hg.
      - pose proof (registry_wf_get _ _ _ Hwf Hg) as Hws.
        rewrite clients_apply_action, Hws.
        destruct (act_keeps act (sockets acc) (k, sub)) eqn:Hkeep.
        + symmetry. apply filter_all. intros [k' sub'] He Hk'. cbn in Hk'.
          subst k'. destruct Hwf as [Hnd' _].
          rewrite (Map_get_elem _ _ _ Hnd' He) in Hg. by simplify_eq.
        + unfold Map_delete. apply filter_ext_in. intros [k' sub'] He.
          cbn [fst]. split; [done |]. intros Hkeep' ->.
          destruct Hwf as [Hnd' _].
          rewrite (Map_get_elem _ _ _ Hnd' He) in Hg. simplify_eq.
          rewrite Hkeep' in Hkeep by done. done.
      - symmetry. apply filter_all. intros [k' sub'] He Hk'. cbn in Hk'.
        subst k'. apply Map_get_None in Hg. exfalso. apply Hg.
        apply list_elem_of_fmap. by exists (k, sub'). }
    assert (∀ c, sockets acc1 !! c =
              if decide (c = k) then
                match Map_get c (clients acc) with
                | Some sub => (λ s, (act sub s).2) <$> sockets acc !! c
                | None => sockets acc !! c
                end
              else sockets acc !! c) as Hs1.
    { intros c. unfold acc1.
      destruct (Map_get k (clients acc)) as [sub |] eqn:Hg.
      - pose proof (registry_wf_get _ _ _ Hwf Hg) as Hws.
        rewrite sockets_apply_action, Hws, list_lookup_alter.
        destruct (decide (k = c)) as [<- | Hne].
        + by rewrite decide_True, Hg.
        + by rewrite decide_False.
      - case_decide; [subst c; by rewrite Hg | done]. }
    assert (registry_wf (clients acc1)) as Hwf1.
    { rewrite Hc1. destruct Hwf as [Hnd' Hws]. split.
      - unfold Map_keys. apply NoDup_fmap_fst.
        + intros x y1 y2 [_ H1]%list_elem_of_filter [_ H2]%list_elem_of_filter.
          pose proof (Map_get_elem _ _ _ Hnd' H1) as E1.
          pose proof (Map_get_elem _ _ _ Hnd' H2) as E2. congruence.
        + apply NoDup_filter. eapply NoDup_fmap_1. exact Hnd'.
      - intros e [_ He]%list_elem_of_filter. by apply Hws. }
    destruct (IH acc1 Hwf1) as (Hf & Hc & Hs). split_and!.
    + eapply frame_trans; [exact Hf1 | exact Hf].
    + rewrite Hc, Hc1, list_filter_filter. apply filter_ext_in.
      intros [k' sub'] He. cbn [fst].
      assert (k' ≠ k → act_keeps act (sockets acc1) (k', sub') =
                        act_keeps act (sockets acc) (k', sub')) as Hsame.
      { intros Hne. unfold act_keeps. cbn [fst snd].
        by rewrite Hs1, decide_False. }
      split.
      * intros [H1 H2] [-> | Hin]%elem_of_cons; [by apply H2 |].
        rewrite <- Hsame; [by apply H1 |]. intros ->. done.
      * intros H. split.
        -- intros Hin. rewrite Hsame; [apply H; by right |]. intros ->. done.
        -- intros ->. apply H. left.
    + intros c. rewrite Hs, Hs1, Hc1.
      destruct (decide (c = k)) as [-> | Hne].
      * rewrite decide_False by done. rewrite decide_True by left. done.
      * destruct (decide (c ∈ ks)) as [Hin | Hnin].
        -- rewrite decide_True by (by right).
           assert (Map_get c (filter (λ e, e.1 = k →
                     act_keeps act (sockets acc) e = true) (clients acc))
                   = Map_get c (clients acc)) as ->; [| done].
           clear -Hne. induction (clients acc) as [| [k' v'] m IHm]; [done |].
           rewrite filter_cons. cbn [fst].
           destruct (decide (k' = k → act_keeps act (sockets acc) (k', v') = true))
             as [Hy | Hn]; cbn [Map_get].
           ++ by rewrite IHm.
           ++ rewrite IHm. rewrite decide_False; [done |].
              intros ->. apply Hn. intros ->. done.
        -- rewrite decide_False; [done |]. rewrite not_elem_of_cons. done.
Qed.

Lemma clients_forEach_ext f g st :
  (∀ sub acc, f sub acc = g sub acc) →
  clients_forEach f st = clients_forEach g st.
Proof.
  intros Hfg. unfold clients_forEach. generalize (Map_keys (clients st)).
  intros ks. revert st. induction ks as [| k ks IH]; intros st; [done |].
  cbn [fold_left]. destruct (Map_get k (clients st)); [| apply IH].
  rewrite Hfg. apply IH.
Qed.

(** The whole iteration, in closed form. *)
Lemma forEach_action act st :
  registry_wf (clients st) →
  let r := clients_forEach (apply_action act) st in
  frame st r ∧
  clients r = filter (λ e, act_keeps act (sockets st) e = true) (clients st) ∧
  ∀ c, sockets r !! c =
    match Map_get c (clients st) with
    | Some sub => (λ s, (act sub s).2) <$> sockets st !! c
    | None => sockets st !! c
    end.
Proof.
  intros Hwf.
  destruct (forEach_keys act (Map_keys (clients st)) st (proj1 Hwf) Hwf)
    as (Hf & Hc & Hs).
  split_and!; [exact Hf | |].
  - unfold clients_forEach. rewrite Hc. apply filter_ext_in.
    intros [k sub] He. split; [| auto]. intros H. apply H.
    apply list_elem_of_fmap. by exists (k, sub).
  - intros c. unfold clients_forEach. rewrite Hs.
    case_decide as Hc'; [done |].
    apply Map_get_None in Hc' as ->. done.
Qed.

(** ** The callbacks as actions *)

Lemma alter_eq_at {A} (f g : A → A) (l : list A) i x :
  l !! i = Some x → f x = g x → alter f i l = alter g i l.
Proof.
  intros Hx Hfg. apply list_alter_ext; [| done].
  intros y Hy. by simplify_eq.
Qed.

Lemma alter_same_at {A} (f : A → A) (l : list A) i x :
  l !! i = Some x → f x = x → alter f i l = l.
Proof.
  intros Hx Hf. rewrite (alter_eq_at f id l i x) by done.
  by apply list_alter_id.
Qed.

Lemma send_action_eq m s :
  send_action m s =
    if bool_decide (readyState s = OPEN) then
      if sendThrows s then (true, s) else (false, ws_push m s)
    else (false, s).
Proof. unfold send_action. by rewrite decide_bool_decide. Qed.

Lemma with_sockets_id st cl :
  with_sockets (sockets st) (with_clients cl st) = with_clients cl st.
Proof. by destruct st. Qed.

Lemma sendToClient_action m sub st :
  sendToClient (ws sub) m st = apply_action (λ _, send_action m) sub st.
Proof.
  unfold sendToClient, apply_action.
  destruct (sockets st !! ws sub) as [s |] eqn:Hs; [| done].
  cbn zeta. rewrite (send_action_eq m s), decide_bool_decide.
  destruct (bool_decide (readyState s = OPEN)) eqn:Ho;
    [destruct (sendThrows s) eqn:Ht |]; cbn [fst snd sockets with_clients].
  - rewrite (alter_same_at _ _ _ s Hs).
    + by rewrite with_sockets_id.
    + by rewrite send_action_eq, Ho, Ht.
  - f_equal. apply (alter_eq_at _ _ _ _ s Hs).
    by rewrite send_action_eq, Ho, Ht.
  - rewrite (alter_same_at _ _ _ s Hs).
    + by destruct st.
    + by rewrite send_action_eq, Ho.
Qed.

Lemma broadcast_action m st :
  broadcast m st = clients_forEach (apply_action (λ _, send_action m)) st.
Proof.
  unfold broadcast. apply clients_forEach_ext. intros sub acc.
  apply (sendToClient_action m sub acc).
Qed.

Lemma heartbeat_action_eq st :
  heartbeat st = clients_forEach (apply_action (λ _, heartbeat_action)) st.
Proof.
  unfold heartbeat. apply clients_forEach_ext. intros sub acc.
  unfold apply_action.
  destruct (sockets acc !! ws sub) as [s |] eqn:Hs; [| done].
  cbn zeta.
  destruct (decide (isAlive s = Some false)) as [Ha | Ha].
  - assert (heartbeat_action s = (true, ws_terminate s)) as ->
      by (unfold heartbeat_action; by rewrite decide_True).
    cbn [fst snd sockets with_sockets with_clients].
    f_equal. apply (alter_eq_at _ _ _ _ s Hs).
    unfold heartbeat_action. by rewrite decide_True.
  - assert (heartbeat_action s =
              (false, ws_ping (ws_with_isAlive (Some false) s))) as ->
      by (unfold heartbeat_action; by rewrite decide_False).
    cbn [fst snd sockets with_sockets with_clients].
    rewrite list_alter_alter_eq.
    assert (∀ a b, with_sockets a (with_sockets b acc) = with_sockets a acc)
      as -> by (by destruct acc).
    f_equal. apply (alter_eq_at _ _ _ _ s Hs).
    unfold heartbeat_action. by rewrite decide_False.
Qed.

Lemma stock_fanout_client_action ups now sub st :
  stock_fanout_client ups now sub st =
    apply_action (stock_action ups now) sub st.
Proof.
  unfold stock_fanout_client.
  assert (apply_action (stock_action ups now) sub st =
          match stock_message ups now sub with
          | Some m => sendToClient (ws sub) m st
          | None => st
          end) as ->.
  { destruct (stock_message ups now sub) as [m |] eqn:Hm.
    - rewrite (sendToClient_action m sub st).
      unfold apply_action, stock_action, fanout_action. by rewrite Hm.
    - unfold apply_action, stock_action, fanout_action. rewrite Hm.
      destruct (sockets st !! ws sub); [| done].
      cbn [fst snd]. rewrite list_alter_id by done.
      by destruct st. }
  unfold stock_message. case_decide as Hlen.
  - by destruct (filter _ ups) as [| u [| u' l]].
  - destruct (subscribedStocks sub) as [| x l]; [| cbn in Hlen; lia].
    assert (filter (λ u, Set_has (symbol u) [] = true) ups = []) as ->; [| done].
    induction ups as [| u ups IH]; [done |].
    rewrite filter_cons_False; [done |].
    unfold Set_has. rewrite bool_decide_eq_false_2 by apply not_elem_of_nil.
    done.
Qed.

(** ** Shrinking the registry *)

Lemma shrinks_refl st : shrinks st st.
Proof. split_and!; [apply frame_refl | done | done]. Qed.

Lemma shrinks_trans st1 st2 st3 :
  shrinks st1 st2 → shrinks st2 st3 → shrinks st1 st3.
Proof.
  intros (F1 & L1 & S1) (F2 & L2 & S2). split_and!.
  - by eapply frame_trans.
  - congruence.
  - by etrans.
Qed.

Lemma shrinks_fold {A} (f : State → A → State) (l : list A) st :
  (∀ acc a, shrinks acc (f acc a)) → shrinks st (fold_left f l st).
Proof.
  intros Hf. revert st. induction l as [| a l IH]; intros st; simpl.
  - apply shrinks_refl.
  - eapply shrinks_trans; [apply Hf | apply IH].
Qed.

Lemma shrinks_clients_forEach f st :
  (∀ sub acc, shrinks acc (f sub acc)) → shrinks st (clients_forEach f st).
Proof.
  intros Hf. unfold clients_forEach. apply shrinks_fold. intros acc k.
  destruct (Map_get k (clients acc)); [apply Hf | apply shrinks_refl].
Qed.

Lemma shrinks_apply_action act sub st : shrinks st (apply_action act sub st).
Proof.
  split_and!.
  - apply frame_apply_action.
  - by rewrite sockets_apply_action, length_alter.
  - rewrite clients_apply_action. case_match; [done |]. apply sublist_filter.
Qed.

Lemma shrinks_sendToClient w m st : shrinks st (sendToClient w m st).
Proof.
  pose proof (sendToClient_action m
    {| ws := w; subscribedStocks := []; subscribedToPortfolio := true |} st) as H.
  cbn [ws] in H. rewrite H. apply shrinks_apply_action.
Qed.

Lemma shrinks_broadcast m st : shrinks st (broadcast m st).
Proof.
  rewrite broadcast_action. apply shrinks_clients_forEach.
  intros. apply shrinks_apply_action.
Qed.

Lemma shrinks_heartbeat st : shrinks st (heartbeat st).
Proof.
  rewrite heartbeat_action_eq. apply shrinks_clients_forEach.
  intros. apply shrinks_apply_action.
Qed.

Lemma shrinks_stock_fanout ups now st :
  shrinks st (clients_forEach (stock_fanout_client ups now) st).
Proof.
  apply shrinks_clients_forEach. intros.
  rewrite stock_fanout_client_action. apply shrinks_apply_action.
Qed.

Lemma shrinks_portfolio_resume snap r now st :
  shrinks st (broadcastPortfolioUpdate_resume snap r now st).
Proof.
  destruct r; simpl.
  - apply shrinks_fold. intros. apply shrinks_sendToClient.
  - apply shrinks_broadcast.
Qed.

Lemma registry_wf_sublist cl cl' :
  cl' `sublist_of` cl → registry_wf cl → registry_wf cl'.
Proof.
  intros Hsub [Hnd Hws]. split.
  - apply (sublist_NoDup (Map_keys cl') (Map_keys cl));
      first [exact Hnd | unfold Map_keys; by apply fmap_sublist].
  - intros e He. apply Hws. by eapply elem_of_sublist.
Qed.

Lemma frame_pendingPortfolio st st' :
  frame st st' → pendingPortfolio st' = pendingPortfolio st.
Proof. unfold frame. intros ->. done. Qed.

Lemma reg_ok_shrinks st st' : shrinks st st' → reg_ok st → reg_ok st'.
Proof.
  intros (Hf & Hl & Hs) (Hwf & Hk & Hp). split_and!.
  - by eapply registry_wf_sublist.
  - intros k Hin. rewrite Hl. apply Hk. unfold Map_keys in *.
    eapply elem_of_sublist; [exact Hin |]. by apply fmap_sublist.
  - rewrite (frame_pendingPortfolio _ _ Hf), Hl. exact Hp.
Qed.

(** ** The registry invariant *)

Lemma snapshot_sublist (P : ClientSubscription → Prop)
    `{∀ x, Decision (P x)} cl :
  registry_wf cl → ws <$> filter P cl.*2 `sublist_of` Map_keys cl.
Proof.
  intros [_ Hws]. unfold Map_keys. induction cl as [| [k sub] cl IH]; [done |].
  rewrite !fmap_cons. cbn [fst snd]. rewrite filter_cons.
  assert (ws <$> filter P cl.*2 `sublist_of` cl.*1) as IH'.
  { apply IH. intros e He. apply Hws. by right. }
  case_decide.
  - rewrite fmap_cons. pose proof (Hws (k, sub) (list_elem_of_here _ _)) as Hk.
    cbn [fst snd] in Hk. rewrite Hk. by apply sublist_skip.
  - by apply sublist_cons.
Qed.

Lemma elem_of_snapshot (P : ClientSubscription → Prop)
    `{∀ x, Decision (P x)} cl c :
  registry_wf cl →
  c ∈ ws <$> filter P cl.*2 ↔ ∃ sub, Map_get c cl = Some sub ∧ P sub.
Proof.
  intros [Hnd Hws]. rewrite list_elem_of_fmap. split.
  - intros (sub & -> & [Hp [[k sub'] [-> He]]%list_elem_of_fmap]%list_elem_of_filter).
    cbn [snd] in *. exists sub'. split; [| done].
    apply Map_get_elem; [done |]. pose proof (Hws _ He) as Hk.
    cbn [fst snd] in Hk. by rewrite Hk.
  - intros (sub & Hg%Map_get_Some_elem & Hp). exists sub. split.
    + pose proof (Hws _ Hg) as Hk. cbn [fst snd] in Hk. by rewrite Hk.
    + apply list_elem_of_filter. split; [done |].
      apply list_elem_of_fmap. by exists (c, sub).
Qed.

Lemma reg_ok_same st st' :
  clients st' = clients st → sockets st' = sockets st →
  pendingPortfolio st' = pendingPortfolio st → reg_ok st → reg_ok st'.
Proof. unfold reg_ok. by intros -> -> ->. Qed.

Ltac same_reg :=
  match goal with
  | H : reg_ok ?st |- reg_ok _ =>
      apply (reg_ok_same st); [| | | exact H]; destruct st; cbn;
      repeat case_match; reflexivity
  end.

Lemma reg_ok_alter f w st :
  reg_ok st → reg_ok (with_sockets (alter f w (sockets st)) st).
Proof.
  intros (Hwf & Hk & Hp). split_and!; cbn [sockets clients pendingPortfolio with_sockets];
    [done | |]; by rewrite length_alter.
Qed.

Lemma reg_ok_initial : reg_ok initial_state.
Proof.
  split_and!.
  - split; [apply NoDup_nil_2 |]. intros e He. by apply elem_of_nil in He.
  - intros k Hk. by apply elem_of_nil in Hk.
  - intros snap Hs. by apply elem_of_nil in Hs.
Qed.

Lemma reg_ok_broadcastPortfolioUpdate st :
  reg_ok st → reg_ok (broadcastPortfolioUpdate st).
Proof.
  intros (Hwf & Hk & Hp). unfold broadcastPortfolioUpdate.
  case_decide; [done |]. split_and!; cbn; [done .. |].
  intros snap [Hin | ->%list_elem_of_singleton]%elem_of_app; [by apply Hp |].
  pose proof (snapshot_sublist (λ sub, subscribedToPortfolio sub = true)
                (clients st) Hwf) as Hsub.
  split.
  - apply (sublist_NoDup _ _ (proj1 Hwf) Hsub).
  - intros w Hw. apply Hk. by eapply elem_of_sublist.
Qed.

Lemma reg_ok_broadcastStockPriceUpdates st :
  reg_ok st → reg_ok (broadcastStockPriceUpdates st).
Proof.
  intros Hok. unfold broadcastStockPriceUpdates. case_decide; [done |].
  same_reg.
Qed.

Lemma reg_ok_on_connection throws now st :
  reg_ok st → reg_ok (on_connection throws now st).
Proof.
  intros (Hwf & Hk & Hp). unfold on_connection.
  apply reg_ok_broadcastPortfolioUpdate.
  eapply reg_ok_shrinks; [apply shrinks_sendToClient |].
  set (w := length (sockets st)).
  assert (w ∉ Map_keys (clients st)) as Hfresh.
  { intros Hin%Hk. unfold w in Hin. lia. }
  split_and!; cbn [clients sockets pendingPortfolio with_clients with_sockets].
  - rewrite Map_set_fresh by done. destruct Hwf as [Hnd Hws]. split.
    + unfold Map_keys. rewrite fmap_app. apply NoDup_app. split_and!.
      * exact Hnd.
      * intros x Hx ->%list_elem_of_singleton. done.
      * apply NoDup_singleton.
    + intros e [He | ->%list_elem_of_singleton]%elem_of_app; [by apply Hws | done].
  - intros k. rewrite Map_keys_set, decide_False by done.
    rewrite length_app. cbn [length].
    intros [Hin%Hk | ->%list_elem_of_singleton]%elem_of_app; unfold w; lia.
  - intros snap Hs. destruct (Hp snap Hs) as [Hnd Hlt]. split; [done |].
    intros x Hx%Hlt. rewrite length_app. lia.
Qed.

Lemma reg_ok_update_subscription w f st :
  (∀ sub, ws (f sub) = ws sub) →
  reg_ok st → reg_ok (update_subscription w f st).
Proof.
  intros Hf ([Hnd Hws] & Hk & Hp). unfold update_subscription.
  assert (Map_keys ((λ e : nat * ClientSubscription,
            if decide (e.1 = w) then (e.1, f e.2) else e) <$> clients st)
          = Map_keys (clients st)) as Hkeys.
  { unfold Map_keys. rewrite <- list_fmap_compose. apply list_fmap_ext.
    intros i [k sub] _. cbn. by case_decide. }
  split_and!; cbn [clients sockets pendingPortfolio with_clients];
    [| by rewrite Hkeys | done].
  split; [by rewrite Hkeys |].
  intros e [[k sub] [-> He]]%list_elem_of_fmap. cbn [fst snd].
  case_decide; cbn [fst snd]; [rewrite Hf |]; by apply (Hws (k, sub)).
Qed.

Lemma reg_ok_handleClientMessage w d now st :
  reg_ok st → reg_ok (handleClientMessage w d now st).
Proof.
  intros Hok. unfold handleClientMessage.
  destruct (Map_get w (clients st)); [| done].
  repeat first
    [ assumption
    | match goal with
      | |- reg_ok (match ?x with _ => _ end) => destruct x
      | |- reg_ok (update_subscription _ _ _) =>
          apply reg_ok_update_subscription; [done |]
      | |- reg_ok (sendToClient _ _ _) =>
          eapply reg_ok_shrinks; [apply shrinks_sendToClient |]
      end ].
Qed.

Lemma shrinks_close_loop st :
  shrinks st
    (clients_forEach
       (λ subscription st,
          with_sockets (alter ws_close (ws subscription) (sockets st)) st) st).
Proof.
  apply shrinks_clients_forEach. intros sub acc. split_and!.
  - apply frame_with_sockets.
  - cbn. by rewrite length_alter.
  - done.
Qed.

Lemma reg_ok_close st : reg_ok st → reg_ok (close st).
Proof.
  intros Hok. unfold close.
  set (st1 := match updateInterval st with Some _ => _ | None => _ end).
  set (st2 := match stockUpdateInterval st1 with Some _ => _ | None => _ end).
  assert (reg_ok st2) as Hok2.
  { unfold st2, st1, clearInterval. same_reg. }
  set (st3 := clients_forEach _ st2).
  assert (reg_ok st3) as (Hwf3 & Hk3 & Hp3).
  { eapply reg_ok_shrinks; [apply shrinks_close_loop | exact Hok2]. }
  assert (reg_ok (with_priceHistory ∅ (with_clients [] st3))) as Hok4.
  { split_and!; cbn; [| | exact Hp3].
    - split; [apply NoDup_nil_2 |]. intros e He. by apply elem_of_nil in He.
    - intros k Hk. by apply elem_of_nil in Hk. }
  cbn [wss with_clients with_priceHistory]. destruct (wss st3); [| exact Hok4].
  revert Hok4. generalize (with_priceHistory ∅ (with_clients [] st3)).
  intros s Hs. same_reg.
Qed.

Lemma reg_ok_delete_pending i st :
  reg_ok st →
  reg_ok (with_pendingPortfolio (delete i (pendingPortfolio st)) st).
Proof.
  intros (Hwf & Hk & Hp). split_and!; cbn; [done .. |].
  intros snap Hs. apply Hp. eapply elem_of_sublist; [exact Hs |].
  apply sublist_delete.
Qed.

Lemma reg_ok_step e st : reg_ok st → reg_ok (step e st).
Proof.
  intros Hok. destruct e; simpl.
  - unfold initialize, startPeriodicUpdates, startStockPriceUpdates,
      setInterval, clearInterval. same_reg.
  - destruct (wss st); [| done]. by apply reg_ok_on_connection.
  - destruct data; simpl; [| done]. by apply reg_ok_handleClientMessage.
  - unfold on_close. eapply reg_ok_shrinks.
    + split_and!; [apply frame_with_clients | done | apply sublist_filter].
    + by apply reg_ok_alter.
  - unfold on_error. eapply reg_ok_shrinks.
    + split_and!; [apply frame_with_clients | done | apply sublist_filter].
    + by apply reg_ok_alter.
  - by apply reg_ok_alter.
  - destruct (timers st !! h) as [[t |] |]; [| done ..].
    destruct (callback t); simpl.
    + by apply reg_ok_broadcastPortfolioUpdate.
    + by apply reg_ok_broadcastStockPriceUpdates.
    + eapply reg_ok_shrinks; [apply shrinks_heartbeat | done].
  - destruct (pendingPortfolio st !! i); [| done].
    eapply reg_ok_shrinks; [apply shrinks_portfolio_resume |].
    by apply reg_ok_delete_pending.
  - destruct (pendingQuotes st !! i) as [subs |]; [| done].
    assert (reg_ok (with_pendingQuotes (delete i (pendingQuotes st)) st)) as Hok'
      by same_reg.
    revert Hok'. generalize (with_pendingQuotes (delete i (pendingQuotes st)) st).
    intros s Hs. destruct r as [results |]; simpl; [| done].
    assert (∀ qs acc, reg_ok acc.2 →
              reg_ok (fold_left (quote_step subs now) qs acc).2) as Hfold.
    { induction qs as [| q qs IH]; intros acc Hacc; [done |].
      cbn [fold_left]. apply IH. unfold quote_step.
      repeat case_match; done. }
    specialize (Hfold (quotes_map results) ([], s) Hs).
    destruct (fold_left _ _ _) as [ups s1]. cbn [snd] in Hfold.
    case_decide; [done |].
    eapply reg_ok_shrinks; [apply shrinks_stock_fanout | done].
  - by apply reg_ok_broadcastPortfolioUpdate.
  - by apply reg_ok_broadcastStockPriceUpdates.
  - unfold setUpdateInterval, startPeriodicUpdates, setInterval, clearInterval.
    same_reg.
  - unfold setStockUpdateInterval, startStockPriceUpdates, setInterval,
      clearInterval. same_reg.
  - by apply reg_ok_close.
  - by apply reg_ok_alter.
  - by apply reg_ok_alter.
Qed.

Lemma reg_ok_run evs : reg_ok (run evs initial_state).
Proof. apply run_ind; [apply reg_ok_step | apply reg_ok_initial]. Qed.

(** ** Fan-outs in closed form *)

Lemma Map_get_filter (P : nat * ClientSubscription → Prop)
    `{∀ x, Decision (P x)} cl c :
  NoDup (Map_keys cl) →
  Map_get c (filter P cl) =
    match Map_get c cl with
    | Some sub => if decide (P (c, sub)) then Some sub else None
    | None => None
    end.
Proof.
  unfold Map_keys. induction cl as [| [k v] cl IH]; intros Hnd; [done |].
  rewrite fmap_cons in Hnd. apply NoDup_cons in Hnd as [Hk Hnd].
  rewrite filter_cons. cbn [Map_get fst].
  destruct (decide (c = k)) as [-> | Hne].
  - destruct (decide (P (k, v))) as [Hp | Hp].
    + cbn [Map_get]. by rewrite decide_True.
    + destruct (Map_get k (filter P cl)) as [v' |] eqn:Hg; [| done].
      exfalso. apply Map_get_Some_elem in Hg.
      apply list_elem_of_filter in Hg as [_ Hg]. apply Hk.
      apply list_elem_of_fmap. by exists (k, v').
  - destruct (decide (P (k, v))); cbn [Map_get];
      [rewrite decide_False by done |]; by apply IH.
Qed.

Lemma outbox_of_lookup c st s :
  sockets st !! c = Some s → outbox_of c st = outbox s.
Proof. unfold outbox_of. by intros ->. Qed.

Lemma fanout_closed msgf st :
  registry_wf (clients st) →
  let r := clients_forEach (apply_action (fanout_action msgf)) st in
  frame st r ∧
  clients r = filter (λ e, fanout_drops msgf st e = false) (clients st) ∧
  ∀ c, sockets r !! c =
    (λ s, from_option (λ m, ws_push m s) s (fanout_received msgf st c)) <$>
      sockets st !! c.
Proof.
  intros Hwf. destruct (forEach_action (fanout_action msgf) st Hwf)
    as (Hf & Hc & Hs).
  split_and!; [exact Hf | |].
  - rewrite Hc. apply filter_ext_in. intros [k sub] He.
    unfold act_keeps, fanout_drops, fanout_action, send_raises. cbn [fst snd].
    destruct (sockets st !! k) as [s |]; [| by destruct (msgf sub)].
    destruct (msgf sub) as [m |]; [| done].
    rewrite send_action_eq. destruct (bool_decide (readyState s = OPEN));
      [destruct (sendThrows s) |]; done.
  - intros c. rewrite Hs. unfold fanout_received, deliverable, fanout_action.
    destruct (Map_get c (clients st)) as [sub |];
      [| by destruct (sockets st !! c)].
    destruct (sockets st !! c) as [s |]; [| done]. cbn. f_equal.
    destruct (msgf sub) as [m |];
      [| by destruct (bool_decide (readyState s = OPEN) && negb (sendThrows s))].
    rewrite send_action_eq. destruct (bool_decide (readyState s = OPEN));
      [destruct (sendThrows s) |]; done.
Qed.

(** What one connection sees of a fan-out: the message meant for it when
    its own transport takes it, and its removal when its own send raises. *)
Lemma fanout_view msgf st c :
  registry_wf (clients st) →
  let r := clients_forEach (apply_action (fanout_action msgf)) st in
  outbox_of c r = outbox_of c st ++ option_list (fanout_received msgf st c) ∧
  Map_get c (clients r) =
    match Map_get c (clients st) with
    | Some sub => if fanout_drops msgf st (c, sub) then None else Some sub
    | None => None
    end ∧
  deliverable c r = deliverable c st ∧ send_raises c r = send_raises c st.
Proof.
  intros Hwf r. destruct (fanout_closed msgf st Hwf) as (Hf & Hc & Hs).
  fold r in Hf, Hc, Hs. split_and!.
  - unfold outbox_of. rewrite Hs.
    destruct (sockets st !! c) as [s |] eqn:Hsc; cbn.
    + destruct (fanout_received msgf st c); cbn; [done | by rewrite app_nil_r].
    + unfold fanout_received, deliverable. rewrite Hsc.
      by destruct (Map_get c (clients st)).
  - rewrite Hc, Map_get_filter by apply Hwf.
    destruct (Map_get c (clients st)) as [sub |]; [| done].
    destruct (fanout_drops msgf st (c, sub)); by case_decide.
  - unfold deliverable. rewrite Hs. destruct (sockets st !! c) as [s |]; [| done].
    cbn. by destruct (fanout_received msgf st c).
  - unfold send_raises. rewrite Hs. destruct (sockets st !! c) as [s |]; [| done].
    cbn. by destruct (fanout_received msgf st c).
Qed.

Lemma broadcast_fanout m st :
  broadcast m st =
    clients_forEach (apply_action (fanout_action (λ _, Some m))) st.
Proof. apply broadcast_action. Qed.

Lemma stock_fanout_eq ups now st :
  clients_forEach (stock_fanout_client ups now) st =
    clients_forEach (apply_action (fanout_action (stock_message ups now))) st.
Proof.
  apply clients_forEach_ext. intros sub acc.
  apply stock_fanout_client_action.
Qed.

(** The fan-out of the portfolio cycle runs over the array taken before the
    [await], not over the registry. *)
Lemma snapshot_fanout m snap st :
  NoDup snap →
  let r := fold_left (λ acc w, sendToClient w m acc) snap st in
  frame st r ∧
  clients r =
    filter (λ e, ¬ (e.1 ∈ snap ∧ send_raises e.1 st = true)) (clients st) ∧
  ∀ c, sockets r !! c =
    (λ s, if decide (c ∈ snap ∧ deliverable c st = true) then ws_push m s
          else s) <$> sockets st !! c.
Proof.
  intros Hnd. revert st. induction Hnd as [| w snap Hw Hnd IH]; intros st.
  - cbn [fold_left]. split_and!.
    + apply frame_refl.
    + symmetry. apply filter_all. intros e _ [He _]. by apply elem_of_nil in He.
    + intros c. destruct (sockets st !! c) as [s |]; [| done]. cbn.
      rewrite decide_False; [done |]. intros [He _]. by apply elem_of_nil in He.
  - cbn [fold_left]. destruct (IH (sendToClient w m st)) as (Hf & Hc & Hs).
    split_and!.
    + eapply frame_trans; [apply frame_sendToClient | exact Hf].
    + rewrite Hc, clients_sendToClient.
      assert (∀ e : nat * ClientSubscription,
                send_raises e.1 (sendToClient w m st) = send_raises e.1 st)
        as Hr by (intros; apply send_raises_sendToClient).
      destruct (send_raises w st) eqn:Hraise.
      * unfold Map_delete. rewrite list_filter_filter. apply filter_ext_in.
        intros e He. rewrite Hr, elem_of_cons. split.
        -- tauto.
        -- intros H. split; [tauto |]. intros Heq. apply H. rewrite Heq.
           tauto.
      * apply filter_ext_in. intros e He. rewrite Hr, elem_of_cons. split.
        -- intros H1 [[Heq | Hin] H3]; [rewrite Heq in H3; congruence | tauto].
        -- tauto.
    + intros c. rewrite Hs, deliverable_sendToClient, sockets_sendToClient.
      destruct (deliverable w st) eqn:Hd.
      * rewrite list_lookup_alter. destruct (decide (w = c)) as [<- | Hne].
        -- destruct (sockets st !! w) as [s |]; [| done]. cbn. f_equal.
           rewrite decide_False by (intros [? _]; done).
           rewrite decide_True; [done |]. split; [left | done].
        -- destruct (sockets st !! c) as [s |]; [| done]. cbn. f_equal.
           destruct (decide (c ∈ snap ∧ deliverable c st = true)) as [[H1 H2] | Hn].
           ++ rewrite decide_True; [done |]. split; [by right | done].
           ++ rewrite decide_False; [done |].
              intros [[-> | Hin]%elem_of_cons H2]; [done | by apply Hn].
      * destruct (sockets st !! c) as [s |]; [| done]. cbn. f_equal.
        destruct (decide (c ∈ snap ∧ deliverable c st = true)) as [[H1 H2] | Hn].
        -- rewrite decide_True; [done |]. split; [by right | done].
        -- rewrite decide_False; [done |].
           intros [[-> | Hin]%elem_of_cons H2]; [congruence | by apply Hn].
Qed.

Lemma snapshot_view m snap st c :
  NoDup snap → NoDup (Map_keys (clients st)) →
  let r := fold_left (λ acc w, sendToClient w m acc) snap st in
  outbox_of c r =
    outbox_of c st ++
      (if bool_decide (c ∈ snap) && deliverable c st then [m] else []) ∧
  Map_get c (clients r) =
    (if bool_decide (c ∈ snap) && send_raises c st then None
     else Map_get c (clients st)).
Proof.
  intros Hnd Hk r. destruct (snapshot_fanout m snap st Hnd) as (Hf & Hc & Hs).
  fold r in Hf, Hc, Hs. split.
  - unfold outbox_of. rewrite Hs.
    destruct (sockets st !! c) as [s |] eqn:Hsc; cbn.
    + destruct (decide (c ∈ snap ∧ deliverable c st = true)) as [[H1 H2] | Hn].
      * by rewrite bool_decide_eq_true_2, H2.
      * destruct (bool_decide (c ∈ snap)) eqn:Hin;
          destruct (deliverable c st) eqn:Hd; cbn; rewrite ?app_nil_r; try done.
        exfalso. apply Hn. by apply bool_decide_eq_true in Hin.
    + unfold deliverable. rewrite Hsc. by rewrite andb_false_r.
  - rewrite Hc, Map_get_filter by done.
    destruct (Map_get c (clients st)) as [sub |]; [| by case_match].
    cbn [fst]. destruct (bool_decide (c ∈ snap)) eqn:Hin;
      destruct (send_raises c st) eqn:Hr; cbn.
    + rewrite decide_False; [done |]. intros H. apply H.
      by apply bool_decide_eq_true in Hin.
    + rewrite decide_True; [done |]. intros [_ ?]. done.
    + rewrite decide_True; [done |]. intros [? _].
      by apply bool_decide_eq_false in Hin.
    + rewrite decide_True; [done |]. intros [_ ?]. done.
Qed.

(** ** Error handling of the fan-outs *)

Lemma broadcast_view m st c :
  registry_wf (clients st) →
  let r := broadcast m st in
  outbox_of c r =
    outbox_of c st ++
      (if registered c st && deliverable c st then [m] else []) ∧
  Map_get c (clients r) =
    (if send_raises c st then None else Map_get c (clients st)) ∧
  deliverable c r = deliverable c st ∧ send_raises c r = send_raises c st.
Proof.
  intros Hwf r. unfold r. rewrite broadcast_fanout.
  destruct (fanout_view (λ _, Some m) st c Hwf) as (Ho & Hg & Hd & Hr).
  split_and!; [| | exact Hd | exact Hr].
  - rewrite Ho. f_equal. unfold fanout_received, registered.
    destruct (Map_get c (clients st)) as [sub |].
    + rewrite bool_decide_eq_true_2 by done. by destruct (deliverable c st).
    + rewrite bool_decide_eq_false_2; [done |]. by intros [? ?].
  - rewrite Hg. unfold fanout_drops. cbn [fst].
    destruct (Map_get c (clients st)); [done | by destruct (send_raises c st)].
Qed.

(** C5, as stated, fails: a registered connection whose transport is no
    longer open is skipped by the error broadcast and is sent no [error]
    message. *)
Lemma C5_closed_transport_gets_no_error : ¬ error_reaches_every_registered.
Proof.
  intros H.
  specialize (H [Initialize; Connection false 1; TransportClosing 0]
                0%nat [0%nat] None 2 0%nat eq_refl eq_refl).
  vm_compute in H. discriminate H.
Qed.

(** C5, amended: when the awaited Portfolio Builder call of a cycle fails,
    the cycle sends every registered connection whose transport is open and
    takes the send exactly one [error] message, whose text is the message
    of the failure or the fixed fallback text; a registered connection
    whose transport is not open is skipped and stays registered, and one
    whose send raises is sent nothing and is removed from the registry; the
    cycle sends nothing else to anyone, so nobody gets a
    [portfolio_update]; the flags and symbol sets of the connections play
    no part.  And a cycle that starts when no registered connection has the
    portfolio flag ends at once, leaving no Portfolio Builder call
    behind. *)
Theorem C5_portfolio_failure_broadcasts_error (evs : list Event) (i : nat)
    (snap : list nat) (e : option string) (now : Z) :
  let st := run evs initial_state in
  let m := ErrorMessage (default "Failed to fetch portfolio data" e) now in
  (pendingPortfolio st !! i = Some snap →
   let r := step (PortfolioSettled i (BuildFailed e) now) st in
   (∀ c, registered c st = true → deliverable c st = true →
      outbox_of c r = outbox_of c st ++ [m]) ∧
   (∀ c, outbox_of c r =
           outbox_of c st ++
             (if registered c st && deliverable c st then [m] else [])) ∧
   (∀ c x, x ∈ drop (length (outbox_of c st)) (outbox_of c r) →
      is_error x = true ∧ is_portfolio_update x = false) ∧
   (∀ c, Map_get c (clients r) =
           if send_raises c st then None else Map_get c (clients st))) ∧
  ((∀ x, x ∈ clients st → subscribedToPortfolio x.2 = false) →
   broadcastPortfolioUpdate st = st).
Proof.
  intros st m. split.
  - intros Hi r.
    assert (∀ c, outbox_of c r =
              outbox_of c st ++
                (if registered c st && deliverable c st then [m] else []) ∧
              Map_get c (clients r) =
                (if send_raises c st then None else Map_get c (clients st)))
      as Hboth.
    { intros c. unfold r. cbn [step]. rewrite Hi.
      cbn [broadcastPortfolioUpdate_resume].
      pose proof (reg_ok_run evs) as (Hwf & _). fold st in Hwf.
      set (st' := with_pendingPortfolio (delete i (pendingPortfolio st)) st).
      destruct (broadcast_view m st' c Hwf) as (Ho & Hg & _). by split. }
    assert (∀ c, outbox_of c r =
              outbox_of c st ++
                (if registered c st && deliverable c st then [m] else []))
      as Hall by (intros c; apply Hboth).
    split_and!; [| exact Hall | | intros c; apply Hboth].
    + intros c Hreg Hdel. by rewrite Hall, Hreg, Hdel.
    + intros c x. rewrite Hall, drop_app_length.
      destruct (registered c st && deliverable c st).
      * by intros ->%list_elem_of_singleton.
      * intros Hx. by apply elem_of_nil in Hx.
  - intros Hnone. unfold broadcastPortfolioUpdate.
    rewrite decide_True; [done |].
    assert (filter (λ sub, subscribedToPortfolio sub = true) (clients st).*2 = [])
      as ->; [| done].
    induction (clients st) as [| x cl IH]; [done |].
    rewrite fmap_cons, filter_cons_False.
    + apply IH. intros y Hy. apply Hnone. by right.
    + rewrite (Hnone x) by left. done.
Qed.

Lemma C5_portfolio_failure_broadcasts_error_witness :
  let evs :=
    [Initialize; Connection false 1; Connection false 2;
     Message 1
       (Some {| msg_type := "unsubscribe_portfolio"; msg_symbols := None |}) 3;
     TriggerUpdate] in
  let st := run evs initial_state in
  let r := step (PortfolioSettled 2 (BuildFailed (Some "timeout")) 9) st in
  outbox_of 1 r = outbox_of 1 st ++ [ErrorMessage "timeout" 9].
Proof.
  intros evs st r.
  apply (C5_portfolio_failure_broadcasts_error evs 2 [0%nat] (Some "timeout") 9);
    reflexivity.
Defined.

(** C6, as stated, fails: a connection whose transport is no longer open
    is skipped by the error broadcast and stays registered. *)
Lemma C6_closed_transport_stays_registered : ¬ failed_send_unregisters.
Proof.
  intros H.
  specialize (H [Initialize; Connection false 1; TransportClosing 0]
                (ErrorMessage "Failed to fetch portfolio data" 2) 0%nat
                eq_refl eq_refl).
  vm_compute in H. discriminate H.
Qed.

(** C6, amended: in each of the three fan-outs (error broadcast, price
    fan-out, portfolio fan-out), whether a connection is delivered its
    message depends on its own transport only, so a failed delivery to one
    connection takes nothing from the others; a connection whose send
    raises is removed from the registry, and a connection whose transport
    is not open is skipped and stays registered. *)
Theorem C6_send_isolation (evs : list Event) (c : nat) :
  let st := run evs initial_state in
  (∀ m, let r := broadcast m st in
     outbox_of c r =
       outbox_of c st ++
         (if registered c st && deliverable c st then [m] else []) ∧
     Map_get c (clients r) =
       (if send_raises c st then None else Map_get c (clients st))) ∧
  (∀ ups now,
     let r := clients_forEach (stock_fanout_client ups now) st in
     let msgf := stock_message ups now in
     outbox_of c r = outbox_of c st ++ option_list (fanout_received msgf st c) ∧
     Map_get c (clients r) =
       match Map_get c (clients st) with
       | Some sub => if fanout_drops msgf st (c, sub) then None else Some sub
       | None => None
       end) ∧
  (∀ i snap p now, pendingPortfolio st !! i = Some snap →
     let r := step (PortfolioSettled i (Built p) now) st in
     outbox_of c r =
       outbox_of c st ++
         (if bool_decide (c ∈ snap) && deliverable c st
          then [PortfolioUpdate p now] else []) ∧
     Map_get c (clients r) =
       (if bool_decide (c ∈ snap) && send_raises c st then None
        else Map_get c (clients st))).
Proof.
  intros st. pose proof (reg_ok_run evs) as (Hwf & Hk & Hp). fold st in Hwf, Hk, Hp.
  split_and!.
  - intros m r. destruct (broadcast_view m st c Hwf) as (Ho & Hg & _).
    by split.
  - intros ups now r msgf. unfold r. rewrite stock_fanout_eq.
    destruct (fanout_view msgf st c Hwf) as (Ho & Hg & _). by split.
  - intros i snap p now Hi r. unfold r. cbn [step]. rewrite Hi.
    cbn [broadcastPortfolioUpdate_resume].
    assert (NoDup snap) as Hnd.
    { apply Hp. by eapply list_elem_of_lookup_2. }
    set (st' := with_pendingPortfolio (delete i (pendingPortfolio st)) st).
    apply (snapshot_view (PortfolioUpdate p now) snap st' c Hnd (proj1 Hwf)).
Qed.

Lemma C6_send_isolation_witness :
  let evs :=
    [Initialize; Connection false 1; Connection false 2; TransportClosing 0;
     TransportFault 1 true; Connection false 3; TriggerUpdate] in
  let st := run evs initial_state in
  let r :=
    step (PortfolioSettled 3
            (Built {| stocks := []; sectors := []; totalInvestment := 0;
                      totalPresentValue := 0; totalGainLoss := 0 |}) 9) st in
  registered 0 r = true ∧ registered 1 r = false ∧
  outbox_of 2 r = outbox_of 2 st ++
    [PortfolioUpdate {| stocks := []; sectors := []; totalInvestment := 0;
                        totalPresentValue := 0; totalGainLoss := 0 |} 9].
Proof.
  intros evs st r.
  destruct (C6_send_isolation evs 2) as (_ & _ & H).
  destruct (H 3%nat [0; 1; 2]%nat
              {| stocks := []; sectors := []; totalInvestment := 0;
                 totalPresentValue := 0; totalGainLoss := 0 |} 9 eq_refl)
    as [Ho _].
  split_and!; [reflexivity | reflexivity | exact Ho].
Defined.

(** ** How sockets evolve *)

Lemma socket_evolves_refl pong s : socket_evolves pong s s.
Proof. split_and!; [done | done | by left]. Qed.

Lemma socket_evolves_trans p1 p2 s1 s2 s3 :
  socket_evolves p1 s1 s2 → socket_evolves p2 s2 s3 →
  socket_evolves (p1 || p2) s1 s3.
Proof.
  intros (P1 & R1 & A1) (P2 & R2 & A2). split_and!.
  - by etrans.
  - intros Hn. destruct (R1 Hn) as [Hn2 E2]. destruct (R2 Hn2) as [Hn3 E3].
    split; [done | congruence].
  - intros [-> ->]%orb_false_elim.
    destruct (A1 eq_refl) as [E1 | E1], (A2 eq_refl) as [E2 | E2];
      rewrite ?E2, ?E1; auto.
Qed.

Lemma evolves_refl pong c st : evolves pong c st st.
Proof.
  intros s Hs. split; [| done]. exists s. split; [done |].
  apply socket_evolves_refl.
Qed.

Lemma evolves_trans p1 p2 c st1 st2 st3 :
  evolves p1 c st1 st2 → evolves p2 c st2 st3 → evolves (p1 || p2) c st1 st3.
Proof.
  intros H12 H23 s1 Hs1. destruct (H12 s1 Hs1) as [(s2 & Hs2 & E12) R12].
  destruct (H23 s2 Hs2) as [(s3 & Hs3 & E23) R23]. split; [| auto].
  exists s3. split; [done |]. by eapply socket_evolves_trans.
Qed.

Lemma evolves_trans_same pong c st1 st2 st3 :
  evolves pong c st1 st2 → evolves pong c st2 st3 → evolves pong c st1 st3.
Proof.
  intros H12 H23. pose proof (evolves_trans _ _ _ _ _ _ H12 H23) as H.
  by rewrite orb_diag in H.
Qed.

Lemma evolves_weaken c st st' : evolves false c st st' → evolves true c st st'.
Proof.
  intros H s Hs. destruct (H s Hs) as [(s' & Hs' & P & R & _) Hr].
  split; [| done]. exists s'. split; [done |]. split_and!; done.
Qed.

Lemma evolves_fold {A} pong c (f : State → A → State) (l : list A) st :
  (∀ acc a, evolves pong c acc (f acc a)) →
  evolves pong c st (fold_left f l st).
Proof.
  intros Hf. revert st. induction l as [| a l IH]; intros st; simpl.
  - apply evolves_refl.
  - eapply evolves_trans_same; [apply Hf | apply IH].
Qed.

Lemma evolves_clients_forEach pong c f st :
  (∀ sub acc, evolves pong c acc (f sub acc)) →
  evolves pong c st (clients_forEach f st).
Proof.
  intros Hf. unfold clients_forEach. apply evolves_fold. intros acc k.
  destruct (Map_get k (clients acc)); [apply Hf | apply evolves_refl].
Qed.

(** Changes that touch neither the registry nor the sockets. *)
Lemma evolves_same pong c st st' :
  sockets st' = sockets st → clients st' = clients st → evolves pong c st st'.
Proof.
  intros Hs Hc s Hsc. unfold registered. rewrite Hs, Hc. split; [| done].
  exists s. split; [done | apply socket_evolves_refl].
Qed.

Lemma evolves_alter pong c f w st :
  (∀ s, sockets st !! w = Some s → socket_evolves pong s (f s)) →
  evolves pong c st (with_sockets (alter f w (sockets st)) st).
Proof.
  intros Hf s Hs. split; [| done]. cbn [sockets with_sockets].
  rewrite list_lookup_alter. destruct (decide (w = c)) as [-> | Hne].
  - rewrite Hs. exists (f s). split; [done |]. by apply Hf.
  - exists s. split; [done | apply socket_evolves_refl].
Qed.

Lemma registered_delete c k cl st :
  clients st = cl →
  registered c (with_clients (Map_delete k cl) st) = true →
  registered c st = true.
Proof.
  intros <-. unfold registered. cbn [clients with_clients].
  rewrite Map_get_delete. case_decide; [| done].
  rewrite bool_decide_eq_false_2; [done |]. by intros [? ?].
Qed.

Lemma evolves_delete pong c k st :
  evolves pong c st (with_clients (Map_delete k (clients st)) st).
Proof.
  intros s Hs. split.
  - exists s. split; [done | apply socket_evolves_refl].
  - by apply registered_delete.
Qed.

Lemma evolves_update_subscription pong c w f st :
  evolves pong c st (update_subscription w f st).
Proof.
  intros s Hs. split.
  - exists s. split; [done | apply socket_evolves_refl].
  - unfold registered. rewrite Map_get_update_subscription.
    case_decide; [| done]. by destruct (Map_get c (clients st)).
Qed.

Lemma evolves_apply_action pong c act sub st :
  (∀ s, socket_evolves pong s (act sub s).2) →
  evolves pong c st (apply_action act sub st).
Proof.
  intros Hact. unfold apply_action.
  destruct (sockets st !! ws sub) as [s0 |]; [| apply evolves_refl].
  cbn zeta. destruct (act sub s0).1.
  - eapply evolves_trans_same; [apply evolves_delete |].
    apply evolves_alter. intros s _. apply Hact.
  - apply evolves_alter. intros s _. apply Hact.
Qed.

Lemma socket_evolves_send pong m s : socket_evolves pong s (send_action m s).2.
Proof.
  rewrite send_action_eq.
  destruct (bool_decide (readyState s = OPEN)) eqn:Ho;
    [destruct (sendThrows s) |]; cbn [snd]; try apply socket_evolves_refl.
  apply bool_decide_eq_true in Ho. split_and!.
  - by apply prefix_app_r.
  - done.
  - by left.
Qed.

Lemma socket_evolves_heartbeat pong s :
  socket_evolves pong s (heartbeat_action s).2.
Proof.
  unfold heartbeat_action. case_decide; cbn [snd]; split_and!; cbn;
    try done; try (by left); try (by right).
  all: intros Hn; split; [by destruct (readyState s) | done].
Qed.

Lemma socket_evolves_close pong s : socket_evolves pong s (ws_close s).
Proof.
  split_and!; cbn; [done | | by left].
  intros Hn; split; [by destruct (readyState s) | done].
Qed.

Lemma socket_evolves_closing pong s : socket_evolves pong s (ws_closing s).
Proof.
  split_and!; cbn; [done | | by left].
  intros Hn; split; [by destruct (readyState s) | done].
Qed.

Lemma evolves_sendToClient pong c w m st :
  evolves pong c st (sendToClient w m st).
Proof.
  pose proof (sendToClient_action m
    {| ws := w; subscribedStocks := []; subscribedToPortfolio := true |} st) as H.
  cbn [ws] in H. rewrite H. apply evolves_apply_action.
  intros s. apply socket_evolves_send.
Qed.

Lemma evolves_broadcast pong c m st : evolves pong c st (broadcast m st).
Proof.
  rewrite broadcast_action. apply evolves_clients_forEach. intros.
  apply evolves_apply_action. intros s. apply socket_evolves_send.
Qed.

Lemma evolves_heartbeat pong c st : evolves pong c st (heartbeat st).
Proof.
  rewrite heartbeat_action_eq. apply evolves_clients_forEach. intros.
  apply evolves_apply_action. intros s. apply socket_evolves_heartbeat.
Qed.

Lemma evolves_stock_fanout pong c ups now st :
  evolves pong c st (clients_forEach (stock_fanout_client ups now) st).
Proof.
  apply evolves_clients_forEach. intros sub acc.
  rewrite stock_fanout_client_action. apply evolves_apply_action.
  intros s. unfold stock_action, fanout_action.
  destruct (stock_message ups now sub);
    [apply socket_evolves_send | apply socket_evolves_refl].
Qed.

Lemma evolves_portfolio_resume pong c snap r now st :
  evolves pong c st (broadcastPortfolioUpdate_resume snap r now st).
Proof.
  destruct r; simpl.
  - apply evolves_fold. intros. apply evolves_sendToClient.
  - apply evolves_broadcast.
Qed.

Lemma evolves_handleClientMessage pong c w d now st :
  evolves pong c st (handleClientMessage w d now st).
Proof.
  unfold handleClientMessage.
  destruct (Map_get w (clients st)); [| apply evolves_refl].
  repeat first
    [ apply evolves_refl
    | match goal with
      | |- evolves _ _ _ (match ?x with _ => _ end) => destruct x
      | |- evolves _ _ _ (update_subscription _ _ _) =>
          eapply evolves_trans_same; [| apply evolves_update_subscription]
      | |- evolves _ _ _ (sendToClient _ _ _) =>
          eapply evolves_trans_same; [| apply evolves_sendToClient]
      end ].
Qed.

Lemma evolves_broadcastPortfolioUpdate pong c st :
  evolves pong c st (broadcastPortfolioUpdate st).
Proof.
  unfold broadcastPortfolioUpdate. case_decide; [apply evolves_refl |].
  by apply evolves_same.
Qed.

Lemma evolves_broadcastStockPriceUpdates pong c st :
  evolves pong c st (broadcastStockPriceUpdates st).
Proof.
  unfold broadcastStockPriceUpdates. case_decide; [apply evolves_refl |].
  by apply evolves_same.
Qed.

Lemma evolves_on_connection pong c throws now st :
  evolves pong c st (on_connection throws now st).
Proof.
  unfold on_connection.
  eapply evolves_trans_same; [| apply evolves_broadcastPortfolioUpdate].
  eapply evolves_trans_same; [| apply evolves_sendToClient].
  intros s Hs. pose proof (lookup_lt_Some _ _ _ Hs) as Hlt. split.
  - exists s. cbn [sockets with_sockets with_clients].
    rewrite lookup_app_l by done. split; [done | apply socket_evolves_refl].
  - unfold registered. cbn [clients with_clients with_sockets].
    rewrite Map_get_set, decide_False by lia. done.
Qed.

Ltac evolves_same :=
  match goal with
  | |- evolves _ _ ?st _ =>
      apply evolves_same; destruct st; cbn; repeat case_match; reflexivity
  end.

Lemma evolves_close pong c st : evolves pong c st (close st).
Proof.
  unfold close.
  set (st1 := match updateInterval st with Some _ => _ | None => _ end).
  set (st2 := match stockUpdateInterval st1 with Some _ => _ | None => _ end).
  assert (evolves pong c st st2) as H2.
  { unfold st2, st1, clearInterval. evolves_same. }
  set (st3 := clients_forEach _ st2).
  assert (evolves pong c st2 st3) as H3.
  { apply evolves_clients_forEach. intros sub acc. apply evolves_alter.
    intros s _. apply socket_evolves_close. }
  eapply evolves_trans_same; [exact H2 |].
  eapply evolves_trans_same; [exact H3 |].
  intros s Hs. split.
  - exists s. split; [| apply socket_evolves_refl].
    cbn [wss with_clients with_priceHistory]. by destruct (wss st3).
  - unfold registered. cbn [wss with_clients with_priceHistory].
    destruct (wss st3); cbn; intros Hf; discriminate Hf.
Qed.

Lemma evolves_stock_resume pong c subs r now st :
  evolves pong c st (broadcastStockPriceUpdates_resume subs r now st).
Proof.
  destruct r as [results |]; simpl; [| apply evolves_refl].
  assert (∀ qs acc, evolves pong c acc.2
            (fold_left (quote_step subs now) qs acc).2) as Hfold.
  { induction qs as [| q qs IH]; intros acc; [apply evolves_refl |].
    cbn [fold_left]. eapply evolves_trans_same; [| apply IH].
    unfold quote_step. repeat case_match; try apply evolves_refl.
    cbn [snd]. by apply evolves_same. }
  specialize (Hfold (quotes_map results) ([], st)).
  destruct (fold_left _ _ _) as [ups s1]. cbn [snd] in Hfold.
  case_decide; [done |].
  eapply evolves_trans_same; [exact Hfold | apply evolves_stock_fanout].
Qed.

Lemma evolves_step c e st : evolves (is_pong c e) c st (step e st).
Proof.
  destruct e; cbn [step is_pong].
  - unfold initialize, startPeriodicUpdates, startStockPriceUpdates,
      setInterval, clearInterval. evolves_same.
  - destruct (wss st); [apply evolves_on_connection | apply evolves_refl].
  - destruct data; simpl;
      [apply evolves_handleClientMessage | apply evolves_refl].
  - unfold on_close.
    eapply evolves_trans_same;
      [| apply (evolves_delete _ c w
                  (with_sockets
                     (alter (ws_with_readyState CLOSED) w (sockets st)) st))].
    apply evolves_alter. intros s _. split_and!; cbn; [done | done | by left].
  - unfold on_error.
    eapply evolves_trans_same;
      [| apply (evolves_delete _ c w
                  (with_sockets (alter ws_closing w (sockets st)) st))].
    apply evolves_alter. intros s _. apply socket_evolves_closing.
  - unfold on_pong. destruct (bool_decide (w = c)) eqn:Hw.
    + apply evolves_alter. intros s _. split_and!; cbn; done.
    + apply bool_decide_eq_false in Hw. intros s Hs. split; [| done].
      exists s. cbn [sockets with_sockets].
      rewrite list_lookup_alter_ne by done.
      split; [done | apply socket_evolves_refl].
  - destruct (timers st !! h) as [[t |] |]; [| apply evolves_refl ..].
    destruct (callback t); simpl.
    + apply evolves_broadcastPortfolioUpdate.
    + apply evolves_broadcastStockPriceUpdates.
    + apply evolves_heartbeat.
  - destruct (pendingPortfolio st !! i); [| apply evolves_refl].
    eapply evolves_trans_same; [| apply evolves_portfolio_resume].
    by apply evolves_same.
  - destruct (pendingQuotes st !! i); [| apply evolves_refl].
    eapply evolves_trans_same; [| apply evolves_stock_resume].
    by apply evolves_same.
  - apply evolves_broadcastPortfolioUpdate.
  - apply evolves_broadcastStockPriceUpdates.
  - unfold setUpdateInterval, startPeriodicUpdates, setInterval, clearInterval.
    evolves_same.
  - unfold setStockUpdateInterval, startStockPriceUpdates, setInterval,
      clearInterval. evolves_same.
  - apply evolves_close.
  - apply evolves_alter. intros s _. apply socket_evolves_closing.
  - apply evolves_alter. intros s _. split_and!; cbn; [done | done | by left].
Qed.

Lemma evolves_run c evs st :
  evolves (existsb (is_pong c) evs) c st (run evs st).
Proof.
  revert st. induction evs as [| e evs IH]; intros st.
  - apply evolves_refl.
  - cbn [existsb]. change (run (e :: evs) st) with (run evs (step e st)).
    eapply evolves_trans; [apply evolves_step | apply IH].
Qed.

Lemma evolves_run_any c evs st : evolves true c st (run evs st).
Proof.
  pose proof (evolves_run c evs st) as H.
  destruct (existsb (is_pong c) evs); [done | by apply evolves_weaken].
Qed.

(** ** The heartbeat *)

Lemma heartbeat_view st c :
  registry_wf (clients st) →
  Map_get c (clients (heartbeat st)) =
    match Map_get c (clients st) with
    | Some sub =>
        match sockets st !! c with
        | Some s => if decide (isAlive s = Some false) then None else Some sub
        | None => Some sub
        end
    | None => None
    end ∧
  sockets (heartbeat st) !! c =
    match Map_get c (clients st) with
    | Some _ => (λ s, (heartbeat_action s).2) <$> sockets st !! c
    | None => sockets st !! c
    end.
Proof.
  intros Hwf. rewrite heartbeat_action_eq.
  destruct (forEach_action (λ _, heartbeat_action) st Hwf) as (_ & Hc & Hs).
  split; [| apply Hs].
  rewrite Hc, Map_get_filter by apply Hwf.
  destruct (Map_get c (clients st)) as [sub |]; [| done].
  unfold act_keeps, heartbeat_action. cbn [fst snd].
  destruct (sockets st !! c) as [s |]; [| by rewrite decide_True].
  destruct (decide (isAlive s = Some false)); cbn [fst negb];
    [by rewrite decide_False | by rewrite decide_True].
Qed.

Lemma reg_ok_run_from evs st : reg_ok st → reg_ok (run evs st).
Proof. intros. apply run_ind; [apply reg_ok_step | done]. Qed.

Lemma registered_Some c st sub :
  Map_get c (clients st) = Some sub → registered c st = true.
Proof. unfold registered. intros ->. by apply bool_decide_eq_true_2. Qed.

Lemma registered_None c st :
  Map_get c (clients st) = None ↔ registered c st = false.
Proof.
  unfold registered. destruct (Map_get c (clients st)).
  - rewrite bool_decide_eq_true_2 by done. split; discriminate.
  - rewrite bool_decide_eq_false_2; [done |]. by intros [? ?].
Qed.

(** C4: on a probe tick, a registered connection whose liveness flag is
    [false] has its transport terminated (it is no longer open, and no
    probe is sent on it) and its record removed, and no message is sent on
    it ever after; any other registered connection keeps its record, has
    its flag set to [false] and is sent a probe: the count of probes sent
    on its socket goes up by one, and nothing else about the socket
    changes.  A probe acknowledgment sets the flag to [true] and sends
    nothing.  So a connection that acknowledges nothing between two
    consecutive ticks is not registered after the second. *)
Theorem C4_heartbeat (evs : list Event) (c : nat) :
  let st := run evs initial_state in
  (∀ h t, timers st !! h = Some (Some t) → callback t = HeartbeatTick →
     step (TimerFired h) st = heartbeat st) ∧
  (∀ sub s, Map_get c (clients st) = Some sub → sockets st !! c = Some s →
     if decide (isAlive s = Some false) then
       registered c (heartbeat st) = false ∧
       sockets (heartbeat st) !! c = Some (ws_terminate s) ∧
       (∀ evs', outbox_of c (run evs' (heartbeat st)) = outbox s) ∧
       ∃ s', sockets (heartbeat st) !! c = Some s' ∧
             terminated s' = true ∧ readyState s' ≠ OPEN ∧
             pings s' = pings s ∧ outbox s' = outbox s
     else
       Map_get c (clients (heartbeat st)) = Some sub ∧
       sockets (heartbeat st) !! c =
         Some (ws_ping (ws_with_isAlive (Some false) s)) ∧
       ∃ s', sockets (heartbeat st) !! c = Some s' ∧
             isAlive s' = Some false ∧ pings s' = S (pings s) ∧
             outbox s' = outbox s ∧ readyState s' = readyState s ∧
             terminated s' = terminated s) ∧
  (∀ s, sockets st !! c = Some s →
     sockets (on_pong c st) !! c = Some (ws_with_isAlive (Some true) s) ∧
     ∃ s', sockets (on_pong c st) !! c = Some s' ∧
           isAlive s' = Some true ∧ pings s' = pings s ∧
           outbox s' = outbox s ∧ readyState s' = readyState s) ∧
  (∀ evs', (c < length (sockets st))%nat →
     existsb (is_pong c) evs' = false →
     registered c (heartbeat (run evs' (heartbeat st))) = false).
Proof.
  intros st. pose proof (reg_ok_run evs) as Hok. fold st in Hok.
  pose proof Hok as (Hwf & Hk & Hp).
  destruct (heartbeat_view st c Hwf) as [Hc Hs].
  split_and!.
  - intros h t Ht Hcb. cbn [step]. by rewrite Ht, Hcb.
  - intros sub s Hsub Hsock. rewrite Hsub, Hsock in Hc. rewrite Hsub, Hsock in Hs.
    cbn in Hs. unfold heartbeat_action in Hs.
    destruct (decide (isAlive s = Some false)) as [Ha | Ha].
    + split_and!; [by apply registered_None | exact Hs | |].
      * intros evs'.
        destruct (evolves_run_any c evs' (heartbeat st) _ Hs)
          as [(s' & Hs' & _ & Hclosed & _) _].
        rewrite (outbox_of_lookup _ _ _ Hs').
        destruct Hclosed as [_ ->]; [| done].
        cbn. by destruct (readyState s).
      * exists (ws_terminate s). split_and!; try done.
        cbn. by destruct (readyState s).
    + split_and!; [done .. |].
      exists (ws_ping (ws_with_isAlive (Some false) s)). by split_and!.
  - intros s Hsock. unfold on_pong. cbn [sockets with_sockets].
    rewrite list_lookup_alter_eq, Hsock. split; [done |].
    exists (ws_with_isAlive (Some true) s). by split_and!.
  - intros evs' Hlt Hquiet.
    destruct (lookup_lt_is_Some_2 _ _ Hlt) as [s Hsock].
    set (st1 := heartbeat st). set (st2 := run evs' st1).
    assert (reg_ok st2) as (Hwf2 & _).
    { apply reg_ok_run_from. eapply reg_ok_shrinks; [apply shrinks_heartbeat |].
      exact Hok. }
    (* after the first tick: registered only with the flag down *)
    assert (∃ s1, sockets st1 !! c = Some s1 ∧
              (registered c st1 = true → isAlive s1 = Some false))
      as (s1 & Hs1 & Hflag1).
    { unfold st1. rewrite Hs.
      destruct (Map_get c (clients st)) as [sub |] eqn:Hsub.
      - rewrite Hsock in Hc |- *. cbn. eexists. split; [done |].
        unfold heartbeat_action.
        destruct (decide (isAlive s = Some false)) as [Ha | Ha]; cbn; [| done].
        intros Hreg. apply registered_None in Hc. congruence.
      - rewrite Hsock. eexists. split; [done |]. intros Hreg.
        apply registered_None in Hc. congruence. }
    pose proof (evolves_run c evs' st1) as Hev. rewrite Hquiet in Hev.
    destruct (Hev s1 Hs1) as [(s2 & Hs2 & _ & _ & Halive) Hreg].
    fold st2 in Hs2, Hreg.
    destruct (heartbeat_view st2 c Hwf2) as [Hc2 _].
    apply registered_None. rewrite Hc2.
    destruct (Map_get c (clients st2)) as [sub2 |] eqn:Hsub2; [| done].
    rewrite Hs2. rewrite decide_True; [done |].
    pose proof (Hflag1 (Hreg (registered_Some _ _ _ Hsub2))) as Hdown.
    destruct (Halive eq_refl) as [E | E]; congruence.
Qed.

Lemma C4_heartbeat_witness :
  let evs := [Initialize; Connection false 1] in
  let st := run evs initial_state in
  registered 0 st = true ∧
  registered 0
    (heartbeat (run [Message 0 (subscribe_stocks ["TCS"]) 5] (heartbeat st)))
    = false.
Proof.
  intros evs st. split; [reflexivity |].
  apply (C4_heartbeat evs 0); [vm_compute; lia | reflexivity].
Defined.

(** ** Registration *)

Lemma on_connection_registry throws now st :
  reg_ok st →
  let w := length (sockets st) in
  let st1 := on_connection throws now st in
  sockets st1 =
    sockets st ++
      [if throws then ws_with_isAlive (Some true) (new_socket true)
       else ws_push (Connected now)
              (ws_with_isAlive (Some true) (new_socket false))] ∧
  clients st1 =
    (if throws then clients st
     else clients st ++
            [(w, {| ws := w; subscribedStocks := [];
                    subscribedToPortfolio := true |})]).
Proof.
  intros (Hwf & Hk & Hp) w st1.
  assert (w ∉ Map_keys (clients st)) as Hfresh.
  { intros Hin%Hk. unfold w in Hin. lia. }
  set (sub := {| ws := w; subscribedStocks := []; subscribedToPortfolio := true |}).
  set (st0 := with_clients (Map_set w sub (clients st))
                (with_sockets
                   (sockets st ++ [ws_with_isAlive (Some true) (new_socket throws)])
                   st)).
  assert (sockets st0 !! w = Some (ws_with_isAlive (Some true) (new_socket throws)))
    as Hsock.
  { unfold st0. cbn [sockets with_clients with_sockets].
    rewrite lookup_app_r by (unfold w; lia).
    replace (w - length (sockets st))%nat with 0%nat by (unfold w; lia). done. }
  assert (st1 = broadcastPortfolioUpdate (sendToClient w (Connected now) st0))
    as -> by done.
  assert (∀ s, sockets (broadcastPortfolioUpdate s) = sockets s ∧
               clients (broadcastPortfolioUpdate s) = clients s) as Hb.
  { intros s. unfold broadcastPortfolioUpdate. by case_decide. }
  destruct (Hb (sendToClient w (Connected now) st0)) as [-> ->].
  rewrite sockets_sendToClient, clients_sendToClient.
  unfold deliverable, send_raises. rewrite Hsock. cbn.
  destruct throws; cbn.
  - split; [done |]. unfold st0. cbn [clients with_clients].
    rewrite Map_set_fresh by done. unfold Map_delete.
    rewrite filter_app, filter_cons_False, filter_nil, app_nil_r
      by (cbn; intros H; by apply H).
    apply filter_all. intros [k v] He Heq. cbn in Heq. subst k.
    apply Hfresh. apply list_elem_of_fmap. by exists (w, v).
  - split.
    + unfold st0. cbn [sockets with_clients with_sockets].
      rewrite alter_app_r_alt by (unfold w; lia).
      replace (w - length (sockets st))%nat with 0%nat by (unfold w; lia).
      done.
    + unfold st0. cbn [clients with_clients]. by rewrite Map_set_fresh.
Qed.



(** ** Sockets nobody holds *)

Lemma outbox_of_sendToClient c w m st :
  outbox_of c (sendToClient w m st) =
    outbox_of c st ++
      (if bool_decide (c = w) && deliverable w st then [m] else []).
Proof.
  unfold outbox_of. rewrite sockets_sendToClient.
  destruct (deliverable w st) eqn:Hd.
  - rewrite list_lookup_alter. destruct (decide (w = c)) as [<- | Hne].
    + rewrite bool_decide_eq_true_2 by done.
      destruct (sockets st !! w) as [s |] eqn:Hs; [done |].
      unfold deliverable in Hd. by rewrite Hs in Hd.
    + rewrite bool_decide_eq_false_2 by done. cbn. by rewrite app_nil_r.
  - by rewrite andb_false_r, app_nil_r.
Qed.

Lemma outbox_of_alter c f w st :
  (∀ s, outbox (f s) = outbox s) →
  outbox_of c (with_sockets (alter f w (sockets st)) st) = outbox_of c st.
Proof.
  intros Hf. unfold outbox_of. cbn [sockets with_sockets].
  rewrite list_lookup_alter. case_decide; [subst |]; [| done].
  destruct (sockets st !! c); cbn; [by rewrite Hf | done].
Qed.

Lemma outbox_of_forEach c f st :
  (∀ sub acc, outbox_of c (f sub acc) = outbox_of c acc) →
  outbox_of c (clients_forEach f st) = outbox_of c st.
Proof.
  intros Hf. unfold clients_forEach. generalize (Map_keys (clients st)).
  intros ks. revert st. induction ks as [| k ks IH]; intros st; [done |].
  cbn [fold_left]. rewrite IH.
  destruct (Map_get k (clients st)); [apply Hf | done].
Qed.

Lemma outbox_of_heartbeat c st : outbox_of c (heartbeat st) = outbox_of c st.
Proof.
  unfold heartbeat. apply outbox_of_forEach. intros sub acc. cbn zeta.
  destruct (sockets acc !! ws sub); [| done]. case_decide.
  - by rewrite outbox_of_alter.
  - by rewrite !outbox_of_alter.
Qed.

Lemma outbox_of_close c st : outbox_of c (close st) = outbox_of c st.
Proof.
  unfold close.
  set (st1 := match updateInterval st with Some _ => _ | None => _ end).
  set (st2 := match stockUpdateInterval st1 with Some _ => _ | None => _ end).
  assert (outbox_of c st2 = outbox_of c st) as <-.
  { unfold st2, st1, clearInterval. destruct st; cbn.
    by repeat case_match. }
  set (st3 := clients_forEach _ st2).
  assert (outbox_of c st3 = outbox_of c st2) as <-.
  { apply outbox_of_forEach. intros sub acc. by rewrite outbox_of_alter. }
  cbn [wss with_clients with_priceHistory]. by destruct (wss st3).
Qed.

Lemma unreferenced_frame c st st' :
  evolves true c st st' → frame st st' →
  unreferenced c st → unreferenced c st'.
Proof.
  intros Hev Hf (Hlt & Hreg & Hpend).
  destruct (lookup_lt_is_Some_2 _ _ Hlt) as [s Hs].
  destruct (Hev s Hs) as [(s' & Hs' & _) Hr]. split_and!.
  - by eapply lookup_lt_Some.
  - destruct (registered c st') eqn:E; [| done]. rewrite Hr in Hreg; done.
  - by rewrite (frame_pendingPortfolio _ _ Hf).
Qed.

Lemma unreferenced_evolves c st st' :
  evolves true c st st' → pendingPortfolio st' = pendingPortfolio st →
  unreferenced c st → unreferenced c st'.
Proof.
  intros Hev Hf (Hlt & Hreg & Hpend).
  destruct (lookup_lt_is_Some_2 _ _ Hlt) as [s Hs].
  destruct (Hev s Hs) as [(s' & Hs' & _) Hr]. split_and!.
  - by eapply lookup_lt_Some.
  - destruct (registered c st') eqn:E; [| done]. rewrite Hr in Hreg; done.
  - by rewrite Hf.
Qed.

Lemma pendingPortfolio_close st :
  pendingPortfolio (close st) = pendingPortfolio st.
Proof.
  unfold close.
  set (st1 := match updateInterval st with Some _ => _ | None => _ end).
  set (st2 := match stockUpdateInterval st1 with Some _ => _ | None => _ end).
  assert (pendingPortfolio st2 = pendingPortfolio st) as <-.
  { unfold st2, st1, clearInterval. destruct st; cbn.
    by repeat case_match. }
  set (st3 := clients_forEach _ st2).
  assert (pendingPortfolio st3 = pendingPortfolio st2) as <-.
  { apply frame_pendingPortfolio. apply frame_clients_forEach.
    intros. apply frame_with_sockets. }
  cbn [wss with_clients with_priceHistory]. by destruct (wss st3).
Qed.

Lemma quotes_fold_registry subs now qs acc :
  let r := fold_left (quote_step subs now) qs acc in
  sockets r.2 = sockets acc.2 ∧ clients r.2 = clients acc.2 ∧
  pendingPortfolio r.2 = pendingPortfolio acc.2.
Proof.
  revert acc. induction qs as [| q qs IH]; intros acc; [done |].
  cbn [fold_left]. destruct (IH (quote_step subs now acc q)) as (-> & -> & ->).
  unfold quote_step. by repeat case_match.
Qed.

Lemma unreferenced_same c st st' :
  sockets st' = sockets st → clients st' = clients st →
  pendingPortfolio st' = pendingPortfolio st →
  unreferenced c st → unreferenced c st'.
Proof. unfold unreferenced, registered. by intros -> -> ->. Qed.

Ltac unref_same :=
  match goal with
  | H : unreferenced _ ?st |- unreferenced _ _ =>
      apply (unreferenced_same _ st); [| | | exact H]; destruct st; cbn;
      repeat case_match; reflexivity
  end.

Lemma unreferenced_broadcastPortfolioUpdate c st :
  registry_wf (clients st) →
  unreferenced c st →
  unreferenced c (broadcastPortfolioUpdate st) ∧
  outbox_of c (broadcastPortfolioUpdate st) = outbox_of c st.
Proof.
  intros Hwf (Hlt & Hreg & Hpend). unfold broadcastPortfolioUpdate.
  case_decide; [done |]. split; [| done]. split_and!; [done .. |].
  cbn [pendingPortfolio with_pendingPortfolio].
  intros snap [Hin | ->%list_elem_of_singleton]%elem_of_app; [by apply Hpend |].
  intros (sub & Hget & _)%elem_of_snapshot; [| done].
  apply registered_None in Hreg. congruence.
Qed.

Lemma unreferenced_step c e st :
  reg_ok st → unreferenced c st →
  unreferenced c (step e st) ∧ outbox_of c (step e st) = outbox_of c st.
Proof.
  intros Hok Hun. pose proof Hok as (Hwf & Hk & Hp).
  pose proof Hun as (Hlt & Hreg & Hpend).
  assert (evolves true c st (step e st)) as Hev.
  { pose proof (evolves_step c e st) as H.
    destruct (is_pong c e); [done | by apply evolves_weaken]. }
  destruct e; cbn [step] in *.
  - split.
    + unfold initialize, startPeriodicUpdates, startStockPriceUpdates,
        setInterval, clearInterval. unref_same.
    + unfold initialize, startPeriodicUpdates, startStockPriceUpdates,
        setInterval, clearInterval. destruct st; cbn. by repeat case_match.
  - destruct (wss st); [| done]. unfold on_connection in *.
    set (n := length (sockets st)) in *.
    set (st0 := with_clients _ (with_sockets _ st)) in *.
    assert (unreferenced c st0) as Hun0.
    { split_and!.
      - unfold st0. cbn. rewrite length_app. lia.
      - apply registered_None. unfold st0. cbn [clients with_clients].
        rewrite Map_get_set, decide_False by (unfold n; lia).
        by apply registered_None.
      - exact Hpend. }
    assert (outbox_of c st0 = outbox_of c st) as Ho0.
    { unfold outbox_of, st0. cbn [sockets with_clients with_sockets].
      by rewrite lookup_app_l. }
    set (st1 := sendToClient n (Connected now) st0) in *.
    assert (unreferenced c st1) as Hun1.
    { eapply unreferenced_frame; [| apply frame_sendToClient | exact Hun0].
      apply evolves_sendToClient. }
    assert (outbox_of c st1 = outbox_of c st) as Ho1.
    { unfold st1. rewrite outbox_of_sendToClient, <- Ho0.
      rewrite bool_decide_eq_false_2 by (unfold n; lia). apply app_nil_r. }
    assert (registry_wf (clients st1)) as Hwf1.
    { assert (reg_ok (broadcastPortfolioUpdate st1)) as Hok1
        by apply (reg_ok_on_connection throws now st Hok).
      unfold broadcastPortfolioUpdate in Hok1.
      case_decide; apply Hok1. }
    destruct (unreferenced_broadcastPortfolioUpdate c st1 Hwf1 Hun1) as [H1 H2].
    split; [exact H1 | by rewrite H2].
  - destruct data as [d |]; cbn [on_message] in *; [| done]. split.
    + eapply unreferenced_frame; [exact Hev | | exact Hun].
      apply frame_handleClientMessage.
    + unfold handleClientMessage.
      destruct (Map_get w (clients st)) as [sub |] eqn:Hget; [| done].
      assert (c ≠ w) as Hne.
      { intros ->. apply registered_None in Hreg. congruence. }
      repeat first
        [ reflexivity
        | match goal with
          | |- outbox_of _ (match ?x with _ => _ end) = _ => destruct x
          | |- outbox_of _ (update_subscription _ _ ?s) = _ =>
              change (outbox_of c (update_subscription w _ s))
                with (outbox_of c s)
          | |- outbox_of _ (sendToClient _ _ _) = _ =>
              rewrite outbox_of_sendToClient,
                (bool_decide_eq_false_2 (c = w)) by done;
              cbn [andb]; rewrite app_nil_r
          end ].
  - split.
    + eapply unreferenced_frame; [exact Hev | | exact Hun].
      unfold on_close. eapply frame_trans;
        [apply frame_with_sockets | apply frame_with_clients].
    + unfold on_close.
      change (outbox_of c (with_clients ?x ?s)) with (outbox_of c s).
      by apply outbox_of_alter.
  - split.
    + eapply unreferenced_frame; [exact Hev | | exact Hun].
      unfold on_error. eapply frame_trans;
        [apply frame_with_sockets | apply frame_with_clients].
    + unfold on_error.
      change (outbox_of c (with_clients ?x ?s)) with (outbox_of c s).
      by apply outbox_of_alter.
  - split.
    + eapply unreferenced_frame; [exact Hev | apply frame_with_sockets | done].
    + by apply outbox_of_alter.
  - destruct (timers st !! h) as [[t |] |]; [| done ..].
    destruct (callback t); cbn [fire] in *.
    + by apply unreferenced_broadcastPortfolioUpdate.
    + unfold broadcastStockPriceUpdates. case_decide; [done |].
      split; [unref_same | done].
    + split; [| apply outbox_of_heartbeat].
      eapply unreferenced_frame; [exact Hev | apply frame_heartbeat | done].
  - destruct (pendingPortfolio st !! i) as [snap |] eqn:Hi; [| done].
    set (st' := with_pendingPortfolio (delete i (pendingPortfolio st)) st) in *.
    assert (unreferenced c st') as Hun'.
    { split_and!; [done .. |]. intros snap' Hin. apply Hpend.
      eapply elem_of_sublist; [exact Hin | apply sublist_delete]. }
    split.
    + eapply unreferenced_frame; [| apply frame_portfolio_resume | exact Hun'].
      apply evolves_portfolio_resume.
    + assert (c ∉ snap) as Hc.
      { apply Hpend. by eapply list_elem_of_lookup_2. }
      assert (NoDup snap) as Hnd.
      { apply Hp. by eapply list_elem_of_lookup_2. }
      destruct r as [p | err]; cbn [broadcastPortfolioUpdate_resume].
      * destruct (snapshot_view (PortfolioUpdate p now) snap st' c Hnd
                    (proj1 Hwf)) as [Ho _].
        rewrite Ho, bool_decide_eq_false_2 by done. apply app_nil_r.
      * destruct (broadcast_view
                    (ErrorMessage (default "Failed to fetch portfolio data" err) now)
                    st' c Hwf) as (Ho & _).
        rewrite Ho. change (registered c st') with (registered c st).
        rewrite Hreg. apply app_nil_r.
  - destruct (pendingQuotes st !! i) as [subs |]; [| done].
    set (st' := with_pendingQuotes (delete i (pendingQuotes st)) st) in *.
    destruct r as [results |]; cbn [broadcastStockPriceUpdates_resume] in *;
      [| split; [unref_same | done]].
    pose proof (quotes_fold_registry subs now (quotes_map results) ([], st'))
      as (Hs1 & Hc1 & Hp1).
    destruct (fold_left _ _ _) as [ups s1]. cbn [snd] in Hs1, Hc1, Hp1.
    assert (unreferenced c s1) as Hun1.
    { unfold unreferenced, registered. by rewrite Hs1, Hc1, Hp1. }
    assert (outbox_of c s1 = outbox_of c st) as Ho1.
    { unfold outbox_of. by rewrite Hs1. }
    case_decide; [done |]. split.
    + eapply unreferenced_frame; [| | exact Hun1].
      * apply evolves_stock_fanout.
      * apply frame_clients_forEach. intros.
        apply frame_stock_fanout_client.
    + rewrite stock_fanout_eq.
      assert (registry_wf (clients s1)) as Hwf1 by (by rewrite Hc1).
      destruct (fanout_view (stock_message ups now) s1 c Hwf1) as (Ho & _).
      rewrite Ho, Ho1. unfold fanout_received.
      assert (Map_get c (clients s1) = None) as ->.
      { rewrite Hc1. by apply registered_None. }
      apply app_nil_r.
  - by apply unreferenced_broadcastPortfolioUpdate.
  - unfold broadcastStockPriceUpdates. case_decide; [done |].
    split; [unref_same | done].
  - split.
    + unfold setUpdateInterval, startPeriodicUpdates, setInterval,
        clearInterval. unref_same.
    + unfold setUpdateInterval, startPeriodicUpdates, setInterval,
        clearInterval. destruct st; cbn. by repeat case_match.
  - split.
    + unfold setStockUpdateInterval, startStockPriceUpdates, setInterval,
        clearInterval. unref_same.
    + unfold setStockUpdateInterval, startStockPriceUpdates, setInterval,
        clearInterval. destruct st; cbn. by repeat case_match.
  - split; [| apply outbox_of_close].
    eapply unreferenced_evolves; [exact Hev | apply pendingPortfolio_close |].
    exact Hun.
  - split.
    + eapply unreferenced_frame; [exact Hev | apply frame_with_sockets | done].
    + by apply outbox_of_alter.
  - split.
    + eapply unreferenced_frame; [exact Hev | apply frame_with_sockets | done].
    + by apply outbox_of_alter.
Qed.

Lemma unreferenced_run c evs st :
  reg_ok st → unreferenced c st →
  outbox_of c (run evs st) = outbox_of c st.
Proof.
  intros Hok Hun.
  assert (reg_ok (run evs st) ∧ unreferenced c (run evs st) ∧
          outbox_of c (run evs st) = outbox_of c st) as (_ & _ & H);
    [| exact H].
  apply (run_ind (λ s, reg_ok s ∧ unreferenced c s ∧
                       outbox_of c s = outbox_of c st)); [| done].
  intros e s (Hok' & Hun' & Ho').
  destruct (unreferenced_step c e s Hok' Hun') as [H1 H2].
  split_and!; [by apply reg_ok_step | exact H1 | congruence].
Qed.

(** C8: the ['connection'] handler registers the new socket with liveness
    [true], no symbols and the portfolio flag set, and sends it [connected]
    before anything else can run.  When that send goes through, the record
    stays and [connected] is the first message of the socket for ever; when
    it raises, the record is removed again and the socket is never sent
    anything. *)
Theorem C8_registration (evs : list Event) (throws : bool) (now : Z)
    (evs' : list Event) :
  let st := run evs initial_state in
  let w := length (sockets st) in
  let st1 := on_connection throws now st in
  step (Connection throws now) st =
    match wss st with Some _ => st1 | None => st end ∧
  (throws = false →
   Map_get w (clients st1) =
     Some {| ws := w; subscribedStocks := []; subscribedToPortfolio := true |} ∧
   ∃ s, sockets st1 !! w = Some s ∧ isAlive s = Some true ∧
        outbox s = [Connected now]) ∧
  (if throws then
     registered w st1 = false ∧ outbox_of w (run evs' st1) = []
   else ∃ rest, outbox_of w (run evs' st1) = Connected now :: rest).
Proof.
  intros st w st1. pose proof (reg_ok_run evs) as Hok. fold st in Hok.
  pose proof (reg_ok_on_connection throws now st Hok) as Hok1. fold st1 in Hok1.
  destruct (on_connection_registry throws now st Hok) as [Hsocks Hclients].
  fold st1 in Hsocks, Hclients. fold w in Hclients.
  pose proof Hok as (Hwf & Hk & Hp). pose proof Hok1 as (Hwf1 & Hk1 & Hp1).
  assert (sockets st1 !! w =
          Some (if throws then ws_with_isAlive (Some true) (new_socket true)
                else ws_push (Connected now)
                       (ws_with_isAlive (Some true) (new_socket false))))
    as Hw.
  { rewrite Hsocks, lookup_app_r by (unfold w; lia).
    replace (w - length (sockets st))%nat with 0%nat by (unfold w; lia). done. }
  split_and!.
  - done.
  - intros ->. split.
    + apply Map_get_elem; [apply Hwf1 |]. rewrite Hclients.
      apply elem_of_app. right. left.
    + eexists. split; [exact Hw |]. done.
  - destruct throws.
    + assert (w ∉ Map_keys (clients st)) as Hfresh.
      { intros Hin%Hk. unfold w in Hin. lia. }
      assert (registered w st1 = false) as Hreg.
      { apply registered_None. rewrite Hclients. by apply Map_get_None. }
      split; [exact Hreg |].
      assert (unreferenced w st1) as Hun.
      { split_and!.
        - by eapply lookup_lt_Some.
        - exact Hreg.
        - intros snap Hin Hmem.
          assert (snap ∈ pendingPortfolio st ∨
                  snap = ws <$> filter (λ sub, subscribedToPortfolio sub = true)
                                  (clients st1).*2) as [Hold | ->].
          { revert Hin. unfold st1 at 1, on_connection, broadcastPortfolioUpdate.
            set (st0 := sendToClient _ _ _).
            assert (clients st0 = clients st1) as Hc0.
            { unfold st1, on_connection, broadcastPortfolioUpdate. fold st0.
              by case_decide. }
            assert (pendingPortfolio st0 = pendingPortfolio st) as Hp0.
            { unfold st0. erewrite frame_pendingPortfolio;
                [| apply frame_sendToClient]. done. }
            case_decide.
            - rewrite Hp0. by left.
            - cbn [pendingPortfolio with_pendingPortfolio]. rewrite Hp0, Hc0.
              intros [? | ->%list_elem_of_singleton]%elem_of_app; auto. }
          + destruct (Hp snap Hold) as [_ Hlt]. apply Hlt in Hmem.
            unfold w in Hmem. lia.
          + apply elem_of_snapshot in Hmem as (sub & Hget & _); [| done].
            apply registered_None in Hreg. congruence. }
      rewrite (unreferenced_run w evs' st1 Hok1 Hun).
      by rewrite (outbox_of_lookup _ _ _ Hw).
    + destruct (evolves_run_any w evs' st1 _ Hw)
        as [(s' & Hs' & [rest Hpre] & _) _].
      exists rest. by rewrite (outbox_of_lookup _ _ _ Hs'), Hpre.
Qed.

Lemma C8_registration_witness :
  let st := run [Initialize] initial_state in
  Map_get 0%nat (clients (on_connection false 1 st)) =
     Some {| ws := 0; subscribedStocks := []; subscribedToPortfolio := true |} ∧
  ∃ s, sockets (on_connection false 1 st) !! 0%nat = Some s ∧
       isAlive s = Some true ∧ outbox s = [Connected 1].
Proof.
  intros st. apply (C8_registration [Initialize] false 1 []). reflexivity.
Defined.

(** ** Timers *)

Lemma timers_same_ok st st' :
  timers st' = timers st → updateInterval st' = updateInterval st →
  stockUpdateInterval st' = stockUpdateInterval st →
  timers_ok st → timers_ok st' ∧ keeps_heartbeats st st'.
Proof.
  unfold timers_ok, keeps_heartbeats. intros -> -> -> H. split; [done | auto].
Qed.

Lemma frame_timers st st' :
  frame st st' →
  timers st' = timers st ∧ updateInterval st' = updateInterval st ∧
  stockUpdateInterval st' = stockUpdateInterval st.
Proof. unfold frame. intros ->. done. Qed.

Lemma timers_frame_ok st st' :
  frame st st' → timers_ok st → timers_ok st' ∧ keeps_heartbeats st st'.
Proof. intros (? & ? & ?)%frame_timers. by apply timers_same_ok. Qed.

Ltac timers_same :=
  match goal with
  | H : timers_ok ?st |- timers_ok _ ∧ keeps_heartbeats ?st _ =>
      apply (timers_same_ok st); [| | | exact H]; destruct st; cbn;
      repeat case_match; reflexivity
  end.

Lemma keeps_heartbeats_trans st1 st2 st3 :
  keeps_heartbeats st1 st2 → keeps_heartbeats st2 st3 →
  keeps_heartbeats st1 st3.
Proof. intros H12 H23 h t Ht Hcb. apply H23; [| done]. by apply H12. Qed.

Lemma lookup_clear_append (ts : list (option Timer)) (old : option nat)
    (x : Timer) (h : nat) :
  (match old with Some h0 => <[h0 := None]> ts | None => ts end ++ [Some x])
    !! h =
  if decide (h = length ts) then Some (Some x)
  else if decide (old = Some h) then
         (if decide (h < length ts)%nat then Some None else None)
       else ts !! h.
Proof.
  set (ts' := match old with Some h0 => <[h0 := None]> ts | None => ts end).
  assert (length ts' = length ts) as Hlen.
  { unfold ts'. destruct old; [apply length_insert | done]. }
  destruct (decide (h = length ts)) as [-> | Hne].
  - rewrite lookup_app_r by lia. by rewrite Hlen, Nat.sub_diag.
  - destruct (decide (h < length ts)%nat) as [Hlt | Hge].
    + rewrite lookup_app_l by lia. unfold ts'. destruct old as [h0 |].
      * destruct (decide (h0 = h)) as [-> | Hne0].
        -- rewrite list_lookup_insert_eq by done. by rewrite decide_True.
        -- rewrite list_lookup_insert_ne by done.
           rewrite decide_False; [done | congruence].
      * by rewrite decide_False.
    + rewrite lookup_ge_None_2 by (rewrite length_app, Hlen; cbn; lia).
      destruct (decide (old = Some h)); [done |].
      symmetry. apply lookup_ge_None_2. lia.
Qed.

Lemma timers_ok_startPeriodicUpdates st :
  timers_ok st →
  timers_ok (startPeriodicUpdates st) ∧
  keeps_heartbeats st (startPeriodicUpdates st).
Proof.
  intros (H1 & H2 & H3 & H4 & H5 & H6).
  assert (timers (startPeriodicUpdates st) =
          match updateInterval st with
          | Some h0 => <[h0 := None]> (timers st)
          | None => timers st
          end ++ [Some {| callback := PortfolioTick;
                          delay := updateIntervalMs st |}]) as Ht.
  { unfold startPeriodicUpdates, setInterval, clearInterval.
    by destruct (updateInterval st). }
  assert (updateInterval (startPeriodicUpdates st) = Some (length (timers st)))
    as Hu.
  { unfold startPeriodicUpdates, setInterval, clearInterval.
    destruct (updateInterval st); cbn; [by rewrite length_insert | done]. }
  assert (stockUpdateInterval (startPeriodicUpdates st) =
          stockUpdateInterval st) as Hs.
  { unfold startPeriodicUpdates, setInterval, clearInterval.
    by destruct (updateInterval st). }
  assert (length (timers (startPeriodicUpdates st)) = S (length (timers st)))
    as Hlen.
  { rewrite Ht, length_app. cbn. destruct (updateInterval st);
      [rewrite length_insert |]; lia. }
  split; [split_and! |].
  - intros h t. rewrite Hu, Ht, lookup_clear_append. intros [= <-].
    rewrite decide_True by done. by intros [= <-].
  - intros h t. rewrite Hs, Ht, lookup_clear_append. intros Hh.
    pose proof (H6 h Hh). rewrite decide_False by lia.
    case_decide; [by case_decide |]. by apply H2.
  - intros h t. rewrite Hu, Ht, lookup_clear_append.
    case_decide; [by subst |]. case_decide; [by case_decide |].
    intros Hl Hcb. pose proof (H3 h t Hl Hcb). congruence.
  - intros h t. rewrite Hs, Ht, lookup_clear_append.
    case_decide; [by intros [= <-] |]. case_decide; [by case_decide |].
    apply H4.
  - intros h. rewrite Hu, Hlen. intros [= <-]. lia.
  - intros h. rewrite Hs, Hlen. intros Hh%H6. lia.
  - intros h t Hl Hcb. rewrite Ht, lookup_clear_append.
    pose proof (lookup_lt_Some _ _ _ Hl). rewrite decide_False by lia.
    rewrite decide_False; [done |]. intros Hh.
    pose proof (H1 h t Hh Hl). congruence.
Qed.

Lemma timers_ok_startStockPriceUpdates st :
  timers_ok st →
  timers_ok (startStockPriceUpdates st) ∧
  keeps_heartbeats st (startStockPriceUpdates st).
Proof.
  intros (H1 & H2 & H3 & H4 & H5 & H6).
  assert (timers (startStockPriceUpdates st) =
          match stockUpdateInterval st with
          | Some h0 => <[h0 := None]> (timers st)
          | None => timers st
          end ++ [Some {| callback := StockTick;
                          delay := stockUpdateIntervalMs st |}]) as Ht.
  { unfold startStockPriceUpdates, setInterval, clearInterval.
    by destruct (stockUpdateInterval st). }
  assert (stockUpdateInterval (startStockPriceUpdates st) =
          Some (length (timers st))) as Hu.
  { unfold startStockPriceUpdates, setInterval, clearInterval.
    destruct (stockUpdateInterval st); cbn; [by rewrite length_insert | done]. }
  assert (updateInterval (startStockPriceUpdates st) = updateInterval st)
    as Hs.
  { unfold startStockPriceUpdates, setInterval, clearInterval.
    by destruct (stockUpdateInterval st). }
  assert (length (timers (startStockPriceUpdates st)) = S (length (timers st)))
    as Hlen.
  { rewrite Ht, length_app. cbn. destruct (stockUpdateInterval st);
      [rewrite length_insert |]; lia. }
  split; [split_and! |].
  - intros h t. rewrite Hs, Ht, lookup_clear_append. intros Hh.
    pose proof (H5 h Hh). rewrite decide_False by lia.
    case_decide; [by case_decide |]. by apply H1.
  - intros h t. rewrite Hu, Ht, lookup_clear_append. intros [= <-].
    rewrite decide_True by done. by intros [= <-].
  - intros h t. rewrite Hs, Ht, lookup_clear_append.
    case_decide; [by intros [= <-] |]. case_decide; [by case_decide |].
    apply H3.
  - intros h t. rewrite Hu, Ht, lookup_clear_append.
    case_decide; [by subst |]. case_decide; [by case_decide |].
    intros Hl Hcb. pose proof (H4 h t Hl Hcb). congruence.
  - intros h. rewrite Hs, Hlen. intros Hh%H5. lia.
  - intros h. rewrite Hu, Hlen. intros [= <-]. lia.
  - intros h t Hl Hcb. rewrite Ht, lookup_clear_append.
    pose proof (lookup_lt_Some _ _ _ Hl). rewrite decide_False by lia.
    rewrite decide_False; [done |]. intros Hh.
    pose proof (H2 h t Hh Hl). congruence.
Qed.

Lemma length_timers_startPeriodicUpdates st :
  length (timers (startPeriodicUpdates st)) = S (length (timers st)).
Proof.
  unfold startPeriodicUpdates, setInterval, clearInterval.
  destruct (updateInterval st); cbn; rewrite length_app, ?length_insert;
    cbn; lia.
Qed.

Lemma length_timers_startStockPriceUpdates st :
  length (timers (startStockPriceUpdates st)) = S (length (timers st)).
Proof.
  unfold startStockPriceUpdates, setInterval, clearInterval.
  destruct (stockUpdateInterval st); cbn; rewrite length_app, ?length_insert;
    cbn; lia.
Qed.

Lemma timers_ok_with_wss x st :
  timers_ok st → timers_ok (with_wss x st) ∧ keeps_heartbeats st (with_wss x st).
Proof. intros H. timers_same. Qed.

Lemma timers_ok_initialize st :
  timers_ok st →
  timers_ok (initialize st) ∧ keeps_heartbeats st (initialize st) ∧
  timers (initialize st) !! (length (timers st) + 2)%nat =
    Some (Some {| callback := HeartbeatTick; delay := 30000 |}).
Proof.
  intros Hok. unfold initialize.
  destruct (timers_ok_with_wss (Some (Server "/ws")) st Hok) as [Hok0 Hk0].
  set (st0 := with_wss _ st) in *.
  destruct (timers_ok_startPeriodicUpdates st0 Hok0) as [Hok1 Hk1].
  set (st1 := startPeriodicUpdates st0) in *.
  destruct (timers_ok_startStockPriceUpdates st1 Hok1) as [Hok2 Hk2].
  set (st2 := startStockPriceUpdates st1) in *.
  assert (length (timers st2) = (length (timers st) + 2)%nat) as Hlen.
  { unfold st2, st1. rewrite length_timers_startStockPriceUpdates,
      length_timers_startPeriodicUpdates. unfold st0. cbn. lia. }
  unfold setInterval. cbn [snd timers with_timers].
  destruct Hok2 as (H1 & H2 & H3 & H4 & H5 & H6).
  assert (∀ h, (timers st2 ++ [Some {| callback := HeartbeatTick; delay := 30000 |}]) !! h =
               if decide (h = length (timers st2)) then
                 Some (Some {| callback := HeartbeatTick; delay := 30000 |})
               else timers st2 !! h) as Hl.
  { intros h. case_decide as Hh.
    - subst h. rewrite lookup_app_r by lia. by rewrite Nat.sub_diag.
    - destruct (decide (h < length (timers st2))%nat).
      + by rewrite lookup_app_l.
      + assert (length (timers st2) ≤ h)%nat as Hge by (clear -Hh n; lia).
        rewrite (lookup_ge_None_2 (timers st2) h Hge).
        apply lookup_ge_None_2. rewrite length_app.
        change (length [Some {| callback := HeartbeatTick; delay := 30000 |}])
          with 1%nat. clear -Hge Hh. lia. }
  split_and!.
  - split_and!; cbn [updateInterval stockUpdateInterval timers with_timers].
    + intros h t Hh. pose proof (H5 h Hh). rewrite Hl, decide_False by lia.
      by apply H1.
    + intros h t Hh. pose proof (H6 h Hh). rewrite Hl, decide_False by lia.
      by apply H2.
    + intros h t. rewrite Hl. case_decide; [by intros [= <-] | apply H3].
    + intros h t. rewrite Hl. case_decide; [by intros [= <-] | apply H4].
    + intros h Hh%H5. rewrite length_app. lia.
    + intros h Hh%H6. rewrite length_app. lia.
  - intros h t Ht Hcb. cbn [timers with_timers].
    assert (timers st2 !! h = Some (Some t)) as Ht2.
    { apply Hk2; [| done]. apply Hk1; [| done]. by apply Hk0. }
    pose proof (lookup_lt_Some _ _ _ Ht2). by rewrite Hl, decide_False by lia.
  - by rewrite Hl, Hlen, decide_True.
Qed.

Lemma timers_close st :
  timers_ok st →
  updateInterval (close st) = None ∧ stockUpdateInterval (close st) = None ∧
  ∀ h, timers (close st) !! h =
    if decide (updateInterval st = Some h ∨ stockUpdateInterval st = Some h)
    then Some None else timers st !! h.
Proof.
  intros (H1 & H2 & H3 & H4 & H5 & H6). unfold close.
  set (st1 := match updateInterval st with Some _ => _ | None => _ end).
  set (st2 := match stockUpdateInterval st1 with Some _ => _ | None => _ end).
  set (st3 := clients_forEach _ st2).
  assert (frame st2 st3) as (Ht3 & Hu3 & Hs3)%frame_timers.
  { apply frame_clients_forEach. intros. apply frame_with_sockets. }
  assert (updateInterval st1 = None ∧
          stockUpdateInterval st1 = stockUpdateInterval st ∧
          timers st1 = match updateInterval st with
                       | Some h => <[h := None]> (timers st)
                       | None => timers st
                       end) as (Hu1 & Hs1 & Ht1).
  { unfold st1, clearInterval. by destruct (updateInterval st) eqn:E. }
  assert (updateInterval st2 = None ∧ stockUpdateInterval st2 = None ∧
          timers st2 = match stockUpdateInterval st with
                       | Some h => <[h := None]> (timers st1)
                       | None => timers st1
                       end) as (Hu2 & Hs2 & Ht2').
  { unfold st2, clearInterval. rewrite Hs1.
    by destruct (stockUpdateInterval st) eqn:E. }
  assert (∀ h, timers st2 !! h =
            if decide (updateInterval st = Some h ∨
                       stockUpdateInterval st = Some h)
            then Some None else timers st !! h) as Ht2.
  { intros h. rewrite Ht2', Ht1.
    destruct (updateInterval st) as [hu |] eqn:Eu;
      destruct (stockUpdateInterval st) as [hs |] eqn:Es.
    - pose proof (H5 hu eq_refl). pose proof (H6 hs eq_refl).
      destruct (decide (hs = h)) as [<- | Hn1].
      + rewrite list_lookup_insert_eq by (by rewrite length_insert).
        rewrite decide_True; [done | by right].
      + rewrite list_lookup_insert_ne by done.
        destruct (decide (hu = h)) as [<- | Hn2].
        * rewrite list_lookup_insert_eq by done.
          rewrite decide_True; [done | by left].
        * rewrite list_lookup_insert_ne by done.
          rewrite decide_False; [done |]. intros [[= ?] | [= ?]]; done.
    - pose proof (H5 hu eq_refl).
      destruct (decide (hu = h)) as [<- | Hn2].
      + rewrite list_lookup_insert_eq by done.
        rewrite decide_True; [done | by left].
      + rewrite list_lookup_insert_ne by done.
        rewrite decide_False; [done |]. intros [[= ?] | [= ?]]; done.
    - pose proof (H6 hs eq_refl).
      destruct (decide (hs = h)) as [<- | Hn2].
      + rewrite list_lookup_insert_eq by done.
        rewrite decide_True; [done | by right].
      + rewrite list_lookup_insert_ne by done.
        rewrite decide_False; [done |]. intros [[= ?] | [= ?]]; done.
    - rewrite decide_False; [done |]. intros [[= ?] | [= ?]]. }
  assert (∀ s, timers (match wss s with
                       | Some _ => with_wss None s
                       | None => s
                       end) = timers s ∧
               updateInterval (match wss s with
                               | Some _ => with_wss None s
                               | None => s
                               end) = updateInterval s ∧
               stockUpdateInterval (match wss s with
                                    | Some _ => with_wss None s
                                    | None => s
                                    end) = stockUpdateInterval s) as Hw.
  { intros s. by destruct (wss s). }
  destruct (Hw (with_priceHistory ∅ (with_clients [] st3))) as (-> & -> & ->).
  change (timers (with_priceHistory ∅ (with_clients [] st3))) with (timers st3).
  change (updateInterval (with_priceHistory ∅ (with_clients [] st3)))
    with (updateInterval st3).
  change (stockUpdateInterval (with_priceHistory ∅ (with_clients [] st3)))
    with (stockUpdateInterval st3).
  rewrite Ht3, Hu3, Hs3. done.
Qed.

Lemma timers_ok_close st :
  timers_ok st →
  timers_ok (close st) ∧ keeps_heartbeats st (close st) ∧
  ∀ h t, timers (close st) !! h = Some (Some t) → callback t = HeartbeatTick.
Proof.
  intros Hok. destruct (timers_close st Hok) as (Hu & Hs & Ht).
  destruct Hok as (H1 & H2 & H3 & H4 & H5 & H6).
  assert (∀ h t, timers (close st) !! h = Some (Some t) →
            callback t = HeartbeatTick ∧ timers st !! h = Some (Some t)) as Hall.
  { intros h t. rewrite Ht. case_decide as Hd; [done |]. intros Hl.
    split; [| done]. destruct (callback t) eqn:Hcb; [| | done].
    - exfalso. apply Hd. left. by eapply H3.
    - exfalso. apply Hd. right. by eapply H4. }
  split_and!.
  - split_and!; rewrite ?Hu, ?Hs; try done.
    + intros h t [Hcb _]%Hall. congruence.
    + intros h t [Hcb _]%Hall. congruence.
  - intros h t Hl Hcb. rewrite Ht. rewrite decide_False; [done |].
    intros [Hh | Hh].
    + pose proof (H1 h t Hh Hl). congruence.
    + pose proof (H2 h t Hh Hl). congruence.
  - intros h t Hl. by apply Hall in Hl as [? _].
Qed.

Lemma timers_ok_initial : timers_ok initial_state.
Proof. split_and!; done. Qed.

Lemma timers_ok_step e st :
  timers_ok st → timers_ok (step e st) ∧ keeps_heartbeats st (step e st).
Proof.
  intros Hok. destruct e; cbn [step].
  - destruct (timers_ok_initialize st Hok) as (? & ? & _). by split.
  - destruct (wss st); [| timers_same]. unfold on_connection.
    set (st0 := with_clients _ (with_sockets _ st)).
    assert (timers_ok st0 ∧ keeps_heartbeats st st0) as [Hok0 Hk0]
      by (unfold st0; timers_same).
    set (st1 := sendToClient (length (sockets st)) (Connected now) st0).
    destruct (timers_frame_ok st0 st1
                (frame_sendToClient (length (sockets st)) (Connected now) st0)
                Hok0) as [Hok1 Hk1].
    assert (timers_ok (broadcastPortfolioUpdate st1) ∧
            keeps_heartbeats st1 (broadcastPortfolioUpdate st1)) as [Hok2 Hk2].
    { unfold broadcastPortfolioUpdate. case_decide; timers_same. }
    split; [done |].
    eapply keeps_heartbeats_trans; [exact Hk0 |].
    eapply keeps_heartbeats_trans; [exact Hk1 | exact Hk2].
  - destruct data; cbn [on_message]; [| timers_same].
    apply timers_frame_ok; [apply frame_handleClientMessage | done].
  - unfold on_close. timers_same.
  - unfold on_error. timers_same.
  - unfold on_pong. timers_same.
  - destruct (timers st !! h) as [[t |] |]; [| timers_same ..].
    destruct (callback t); cbn [fire].
    + unfold broadcastPortfolioUpdate. case_decide; timers_same.
    + unfold broadcastStockPriceUpdates. case_decide; timers_same.
    + apply timers_frame_ok; [apply frame_heartbeat | done].
  - destruct (pendingPortfolio st !! i); [| timers_same].
    set (st' := with_pendingPortfolio _ st).
    assert (timers_ok st' ∧ keeps_heartbeats st st') as [Hok' Hk']
      by (unfold st'; timers_same).
    destruct (timers_frame_ok st' _ (frame_portfolio_resume l r now st') Hok')
      as [Hok1 Hk1].
    split; [done |]. eapply keeps_heartbeats_trans; [exact Hk' | exact Hk1].
  - destruct (pendingQuotes st !! i) as [subs |]; [| timers_same].
    set (st' := with_pendingQuotes _ st).
    assert (timers_ok st' ∧ keeps_heartbeats st st') as [Hok' Hk']
      by (unfold st'; timers_same).
    destruct r as [results |]; cbn [broadcastStockPriceUpdates_resume];
      [| done].
    assert (∀ qs acc,
              let r := fold_left (quote_step subs now) qs acc in
              timers r.2 = timers acc.2 ∧
              updateInterval r.2 = updateInterval acc.2 ∧
              stockUpdateInterval r.2 = stockUpdateInterval acc.2) as Hfold.
    { induction qs as [| q qs IH]; intros acc; [done |].
      cbn [fold_left]. destruct (IH (quote_step subs now acc q)) as (-> & -> & ->).
      unfold quote_step. by repeat case_match. }
    specialize (Hfold (quotes_map results) ([], st')).
    destruct (fold_left _ _ _) as [ups s1]. cbn [snd] in Hfold.
    destruct Hfold as (E1 & E2 & E3).
    destruct (timers_same_ok st' s1 E1 E2 E3 Hok') as [Hok1 Hk1].
    case_decide.
    + split; [done |]. eapply keeps_heartbeats_trans; [exact Hk' | exact Hk1].
    + assert (frame s1 (clients_forEach (stock_fanout_client ups now) s1)) as Hf.
      { apply frame_clients_forEach. intros. apply frame_stock_fanout_client. }
      destruct (timers_frame_ok _ _ Hf Hok1) as [Hok2 Hk2].
      split; [done |].
      eapply keeps_heartbeats_trans; [exact Hk' |].
      eapply keeps_heartbeats_trans; [exact Hk1 | exact Hk2].
  - unfold broadcastPortfolioUpdate. case_decide; timers_same.
  - unfold broadcastStockPriceUpdates. case_decide; timers_same.
  - unfold setUpdateInterval.
    assert (timers_ok (with_updateIntervalMs intervalMs st) ∧
            keeps_heartbeats st (with_updateIntervalMs intervalMs st))
      as [Hok' Hk'] by timers_same.
    destruct (timers_ok_startPeriodicUpdates _ Hok') as [Hok1 Hk1].
    split; [done |]. eapply keeps_heartbeats_trans; [exact Hk' | exact Hk1].
  - unfold setStockUpdateInterval.
    assert (timers_ok (with_stockUpdateIntervalMs intervalMs st) ∧
            keeps_heartbeats st (with_stockUpdateIntervalMs intervalMs st))
      as [Hok' Hk'] by timers_same.
    destruct (timers_ok_startStockPriceUpdates _ Hok') as [Hok1 Hk1].
    split; [done |]. eapply keeps_heartbeats_trans; [exact Hk' | exact Hk1].
  - destruct (timers_ok_close st Hok) as (? & ? & _). by split.
  - timers_same.
  - timers_same.
Qed.

Lemma timers_ok_run evs st :
  timers_ok st → timers_ok (run evs st) ∧ keeps_heartbeats st (run evs st).
Proof.
  revert st. induction evs as [| e evs IH]; intros st Hok.
  - split; [done |]. by intros h t Ht _.
  - change (run (e :: evs) st) with (run evs (step e st)).
    destruct (timers_ok_step e st Hok) as [Hok1 Hk1].
    destruct (IH _ Hok1) as [Hok2 Hk2].
    split; [done |]. eapply keeps_heartbeats_trans; [exact Hk1 | exact Hk2].
Qed.

(** ** Shutdown *)

Lemma close_registry st :
  clients (close st) = [] ∧ priceHistory (close st) = ∅ ∧ wss (close st) = None.
Proof.
  unfold close.
  set (st1 := match updateInterval st with Some _ => _ | None => _ end).
  set (st2 := match stockUpdateInterval st1 with Some _ => _ | None => _ end).
  set (st3 := clients_forEach _ st2).
  cbn [wss with_clients with_priceHistory].
  destruct (wss st3) eqn:E; cbn; done.
Qed.

Lemma close_sockets st c :
  registry_wf (clients st) →
  sockets (close st) !! c =
    match Map_get c (clients st) with
    | Some _ => ws_close <$> sockets st !! c
    | None => sockets st !! c
    end.
Proof.
  intros Hwf. unfold close.
  set (st1 := match updateInterval st with Some _ => _ | None => _ end).
  set (st2 := match stockUpdateInterval st1 with Some _ => _ | None => _ end).
  assert (clients st2 = clients st ∧ sockets st2 = sockets st) as [Hc2 Hs2].
  { unfold st2, st1, clearInterval. destruct st; cbn. by repeat case_match. }
  set (st3 := clients_forEach _ st2).
  assert (st3 = clients_forEach (apply_action (λ _ s, (false, ws_close s))) st2)
    as Hst3.
  { apply clients_forEach_ext. intros sub acc. unfold apply_action.
    destruct (sockets acc !! ws sub) as [s |] eqn:Hs; [done |].
    cbn [fst snd]. symmetry.
    assert (alter ws_close (ws sub) (sockets acc) = sockets acc) as ->;
      [| by destruct acc].
    apply list_eq. intros i. rewrite list_lookup_alter.
    case_decide; [subst i; by rewrite Hs | done]. }
  assert (registry_wf (clients st2)) as Hwf2 by (by rewrite Hc2).
  destruct (forEach_action (λ _ s, (false, ws_close s)) st2 Hwf2)
    as (_ & _ & Hs3).
  rewrite <- Hst3 in Hs3. rewrite Hc2, Hs2 in Hs3.
  cbn [wss with_clients with_priceHistory].
  destruct (wss st3); cbn; apply Hs3.
Qed.

(** C7, on the code: after [close], the registry and the price history are
    empty, every connection that was registered has had [close()] called on
    its socket, the server is detached and the timers of the two cycles are
    cancelled; but the heartbeat timer that [initialize] armed is still
    armed, and its next tick runs the heartbeat. *)
Theorem C7_close_keeps_heartbeat_timer (evs1 evs2 : list Event) :
  let st0 := run evs1 initial_state in
  let before := run evs2 (initialize st0) in
  let st := close before in
  let h := (length (timers st0) + 2)%nat in
  clients st = [] ∧ getConnectedClientsCount st = 0%nat ∧
  priceHistory st = ∅ ∧ wss st = None ∧
  (∀ c s, registered c before = true → sockets before !! c = Some s →
     sockets st !! c = Some (ws_close s)) ∧
  updateInterval st = None ∧ stockUpdateInterval st = None ∧
  (∀ t, t ∈ active_timers st → callback t = HeartbeatTick) ∧
  {| callback := HeartbeatTick; delay := 30000 |} ∈ active_timers st ∧
  timers st !! h =
    Some (Some {| callback := HeartbeatTick; delay := 30000 |}) ∧
  step (TimerFired h) st = heartbeat st.
Proof.
  intros st0 before st h.
  destruct (close_registry before) as (Hc & Hp & Hw).
  destruct (timers_ok_run evs1 initial_state timers_ok_initial) as [Hok0 _].
  fold st0 in Hok0.
  destruct (timers_ok_initialize st0 Hok0) as (Hok1 & _ & Hh1).
  destruct (timers_ok_run evs2 _ Hok1) as [Hok2 Hk2]. fold before in Hok2, Hk2.
  destruct (timers_ok_close before Hok2) as (Hok3 & Hk3 & Honly).
  destruct (timers_close before Hok2) as (Hu & Hs & _).
  assert (timers st !! h =
          Some (Some {| callback := HeartbeatTick; delay := 30000 |})) as Hh.
  { apply Hk3; [| done]. apply Hk2; [| done]. exact Hh1. }
  split_and!; try done.
  - unfold getConnectedClientsCount, st. by rewrite Hc.
  - intros c s Hreg Hsock.
    assert (reg_ok before) as (Hwf & _).
    { apply reg_ok_run_from.
      apply (reg_ok_step Initialize), reg_ok_run. }
    unfold st. rewrite (close_sockets before c Hwf), Hsock.
    apply bool_decide_eq_true in Hreg as [sub Hsub]. by rewrite Hsub.
  - intros t (o & Ho & Ht)%list_elem_of_omap. destruct o as [t' |]; [| done].
    cbn in Ht. injection Ht as ->.
    apply list_elem_of_lookup in Ho as [h' Hh']. by apply (Honly h').
  - apply list_elem_of_omap. eexists. split; [| reflexivity].
    by eapply list_elem_of_lookup_2.
  - cbn [step]. by rewrite Hh.
Qed.

(** ** Subscriptions keyed by SYMBOL:EXCHANGE *)

Lemma includes_colon_split_head s :
  includes_colon (default "" (head (split_colon s))) = false.
Proof.
  induction s as [| a s IH]; [done |].
  cbn [split_colon]. destruct (is_colon a) eqn:Ha; [done |].
  destruct (split_colon s) as [| x l]; cbn in *;
    rewrite Ha; [done | by rewrite IH].
Qed.

Lemma split_colon_nonempty s : split_colon s ≠ [].
Proof.
  destruct s as [| c s]; [done |]. cbn [split_colon].
  destruct (is_colon c); [done |]. by destruct (split_colon s).
Qed.

Lemma split_colon_two s :
  includes_colon s = true → ∃ a b l, split_colon s = a :: b :: l.
Proof.
  induction s as [| c s IH]; [done |]. cbn [includes_colon split_colon].
  destruct (is_colon c); cbn [orb].
  - intros _. destruct (split_colon s) as [| x l] eqn:E.
    + by apply split_colon_nonempty in E.
    + by eexists _, _, _.
  - intros (a & b & l & ->)%IH. by eexists _, _, _.
Qed.

(** The symbol part of a key never has a colon. *)
Lemma symbol_part_no_colon s : includes_colon (symbol_parts s).1 = false.
Proof.
  unfold symbol_parts. destruct (includes_colon s) eqn:Hs; [| done].
  pose proof (includes_colon_split_head s) as Hh.
  destruct (split_colon_two s Hs) as (a & b & l & E). rewrite E in Hh |- *.
  done.
Qed.

(** The updates of a price pass carry symbol parts, never whole keys with
    an exchange. *)
Lemma quotes_fold_symbols subs now qs acc :
  (∀ u, u ∈ acc.1 → includes_colon (symbol u) = false) →
  ∀ u, u ∈ (fold_left (quote_step subs now) qs acc).1 →
       includes_colon (symbol u) = false.
Proof.
  revert acc. induction qs as [| q qs IH]; intros acc Hacc; [done |].
  cbn [fold_left]. apply IH. unfold quote_step.
  destruct (find_symbolKey subs q.1) as [key |] eqn:Hkey; [| done].
  destruct (regularMarketPrice q.2); [| done].
  destruct (truthy_string key && truthy_number f); [| done].
  cbn [fst]. intros u [Hu | ->%list_elem_of_singleton]%elem_of_app; [auto |].
  cbn [symbol make_update]. apply find_symbolKey_Some in Hkey as [<- _].
  apply symbol_part_no_colon.
Qed.

(** So a connection all of whose keys name an exchange is never sent a
    price update, whatever the quotes. *)
Lemma exchange_keys_never_served subs now qs st sub :
  (∀ k, k ∈ subscribedStocks sub → includes_colon k = true) →
  stock_message (fold_left (quote_step subs now) qs ([], st)).1 now sub = None.
Proof.
  intros Hkeys. unfold stock_message.
  assert (filter (λ u, Set_has (symbol u) (subscribedStocks sub) = true)
            (fold_left (quote_step subs now) qs ([], st)).1 = []) as ->;
    [| done].
  pose proof (quotes_fold_symbols subs now qs ([], st)) as Hsym.
  cbn [fst] in Hsym.
  specialize (Hsym (λ u Hu, False_ind _ (proj1 (elem_of_nil u) Hu))).
  induction (fold_left (quote_step subs now) qs ([], st)).1 as [| u l IH];
    [done |].
  rewrite filter_cons_False.
  - apply IH. intros v Hv. apply Hsym. by right.
  - unfold Set_has. intros Hin%bool_decide_eq_true.
    apply Hkeys in Hin. rewrite Hsym in Hin by left. done.
Qed.

(** C1, on the code: a connection subscribes to the key [TCS:BSE]; the
    price cycle asks the Quote Source for TCS on BSE, builds the update and
    records the price under [TCS:BSE]; the connection, whose transport is
    open, is sent nothing. *)
Theorem C1_exchange_key_gets_no_update :
  let st :=
    run [Initialize; Connection false 1;
         Message 0 (subscribe_stocks ["TCS:BSE"]) 2; TriggerStockUpdate]
      initial_state in
  let results := [("TCS", sample_quote "BSE" 100)] in
  let r := step (QuotesSettled 0 (Quoted results) 5) st in
  pendingQuotes st = [["TCS:BSE"]] ∧
  quote_request ["TCS:BSE"] = [("TCS", "BSE")] ∧
  (fold_left (quote_step ["TCS:BSE"] 5) (quotes_map results) ([], st)).1 =
    [{| symbol := "TCS"; exchange := "BSE"; price := 100;
        previousPrice := None; change := None; changePercent := None;
        timestamp := 5 |}] ∧
  series "TCS:BSE" r = [point (100%float, 5)] ∧
  interest 0 r = Some ["TCS:BSE"] ∧ deliverable 0 r = true ∧
  outbox_of 0 r = [Connected 1; Subscribed "TCS:BSE" 2].
Proof. vm_compute. repeat split; reflexivity. Qed.

(** ** Reading the price history *)

Lemma Array_slice_neg {A} (n : Z) (l : list A) :
  0 < n → Array_slice (- n) l = drop (length l - Z.to_nat n) l.
Proof.
  intros Hn. unfold Array_slice. rewrite decide_True by lia. f_equal. lia.
Qed.

Lemma Array_slice_pos {A} (n : Z) (l : list A) :
  0 <= n → Array_slice n l = drop (Z.to_nat n) l.
Proof.
  intros Hn. unfold Array_slice. rewrite decide_False by lia.
  destruct (decide (n <= Z.of_nat (length l))) as [Hle | Hgt].
  - f_equal. lia.
  - rewrite !drop_ge by lia. done.
Qed.

Lemma getChartData_length_le sym limit st :
  (length (getChartData sym limit st) ≤ length (series sym st))%nat.
Proof.
  unfold getChartData, series, Array_slice.
  destruct limit as [n |]; [| done]. case_decide; [done |].
  rewrite length_drop. lia.
Qed.

(** X1: [getChartData] returns the whole series when the limit is absent
    or 0, the last [min limit length] points in order for a positive limit,
    all but the first [|limit|] points for a negative limit, and the empty
    list for a symbol the store does not hold; in every state the service
    can reach it returns at most 100 points. *)
Theorem X1_getChartData (evs : list Event) (sym : string) (n : Z) :
  let st := run evs initial_state in
  let h := series sym st in
  getChartData sym None st = h ∧
  getChartData sym (Some 0) st = h ∧
  (0 < n →
   getChartData sym (Some n) st = drop (length h - Z.to_nat n) h ∧
   length (getChartData sym (Some n) st) = Nat.min (Z.to_nat n) (length h)) ∧
  (n < 0 → getChartData sym (Some n) st = drop (Z.to_nat (- n)) h) ∧
  (priceHistory st !! sym = None →
   ∀ limit, getChartData sym limit st = []) ∧
  (∀ limit, (length (getChartData sym limit st) ≤ 100)%nat).
Proof.
  intros st h. split_and!.
  - done.
  - done.
  - intros Hn. unfold getChartData. rewrite decide_False by lia.
    fold (series sym st). fold h. rewrite Array_slice_neg by done.
    split; [done |]. rewrite length_drop. lia.
  - intros Hn. unfold getChartData. rewrite decide_False by lia.
    fold (series sym st). fold h. rewrite Array_slice_pos by lia. done.
  - intros Hnone limit.
    pose proof (getChartData_length_le sym limit st) as Hle.
    unfold series in Hle. rewrite Hnone in Hle. cbn in Hle.
    by destruct (getChartData sym limit st); [| cbn in Hle; lia].
  - intros limit. pose proof (getChartData_length_le sym limit st) as Hle.
    pose proof (history_ok_run evs) as Hok. fold st in Hok.
    destruct (history_ok_series sym st Hok) as [Hlen _].
    destruct Hok as [Hmax _]. lia.
Qed.

Lemma last_capped n h x :
  (1 ≤ n)%nat → last (capped n (h ++ [x])) = Some x.
Proof.
  intros Hn. unfold capped. case_decide as Hc; [| apply last_snoc].
  destruct h as [| y h]; [rewrite length_app in Hc; cbn in Hc; lia |].
  cbn [app tail]. apply last_snoc.
Qed.

(** X2: a point recorded in a state the service can reach is the latest
    point of its symbol: [getChartData(symbol, 1)] returns exactly it, the
    latest price is its price, and the series of every other symbol reads
    as before. *)
Theorem X2_record_then_read (evs : list Event) (sym sym' : string)
    (p : float) (ts : Z) (limit : option Z) :
  let st := run evs initial_state in
  let st' := updatePriceHistory sym p ts st in
  getChartData sym (Some 1) st' = [point (p, ts)] ∧
  last (getChartData sym None st') = Some (point (p, ts)) ∧
  latest_price (series sym st') = Some p ∧
  (sym' ≠ sym → getChartData sym' limit st' = getChartData sym' limit st).
Proof.
  intros st st'. pose proof (history_ok_run evs) as [Hmax _]. fold st in Hmax.
  assert (last (series sym st') = Some (point (p, ts))) as Hlast.
  { unfold st'. rewrite series_updatePriceHistory. apply last_capped. lia. }
  split_and!.
  - unfold getChartData. rewrite decide_False by lia.
    fold (series sym st'). rewrite Array_slice_neg by lia.
    apply last_Some in Hlast as [l' ->]. rewrite length_app. cbn [length].
    replace (length l' + 1 - Z.to_nat 1)%nat with (length l' + 0)%nat by lia.
    by rewrite drop_app_length'.
  - exact Hlast.
  - unfold latest_price. by rewrite Hlast.
  - intros Hne. unfold getChartData, st'.
    by rewrite (lookup_updatePriceHistory_ne sym sym' p ts st) by done.
Qed.

(** ** The Quote Source *)

Lemma concat_batches_from {A} (symbols : list A) fuel i :
  (length symbols ≤ i + 5 * fuel)%nat →
  concat (batches_from fuel i symbols) = drop i symbols.
Proof.
  revert i. induction fuel as [| fuel IH]; intros i Hfuel; cbn [batches_from].
  - rewrite drop_ge by lia. done.
  - case_decide as Hi.
    + cbn [concat]. rewrite IH by lia.
      rewrite <- drop_drop. apply take_drop.
    + rewrite drop_ge by lia. done.
Qed.

Lemma batches_from_lookup {A} (symbols : list A) fuel i k :
  (length symbols ≤ i + 5 * fuel)%nat →
  batches_from fuel i symbols !! k =
    if decide (i + 5 * k < length symbols)%nat
    then Some (take 5 (drop (i + 5 * k) symbols)) else None.
Proof.
  revert i k. induction fuel as [| fuel IH]; intros i k Hfuel;
    cbn [batches_from].
  - rewrite decide_False by lia. done.
  - case_decide as Hi.
    + destruct k as [| k]; cbn [lookup list_lookup].
      * rewrite Nat.mul_0_r, Nat.add_0_r, decide_True by done. done.
      * change (batches_from fuel (i + 5) symbols !! k = 
                if decide (i + 5 * S k < length symbols)%nat
                then Some (take 5 (drop (i + 5 * S k) symbols)) else None).
        rewrite IH by lia.
        replace (i + 5 + 5 * k)%nat with (i + 5 * S k)%nat by lia. done.
    + rewrite lookup_nil, decide_False by lia. done.
Qed.

Lemma batches_from_length {A} (symbols : list A) fuel i :
  (length symbols ≤ i + 5 * fuel)%nat →
  length (batches_from fuel i symbols) = ((length symbols - i + 4) / 5)%nat.
Proof.
  revert i. induction fuel as [| fuel IH]; intros i Hfuel; cbn [batches_from].
  - cbn [length]. symmetry. apply Nat.div_small. lia.
  - case_decide as Hi.
    + cbn [length]. rewrite IH by lia.
      pose proof (Nat.div_mod_eq (length symbols - (i + 5) + 4) 5).
      pose proof (Nat.div_mod_eq (length symbols - i + 4) 5).
      pose proof (Nat.mod_upper_bound (length symbols - (i + 5) + 4) 5).
      pose proof (Nat.mod_upper_bound (length symbols - i + 4) 5).
      lia.
    + cbn [length]. symmetry. apply Nat.div_small. lia.
Qed.

(** X3: the batch loop of [getMultipleStockQuotes] cuts the request into
    consecutive slices that together are the request, in order: batch [k]
    is [symbols.slice(5k, 5k + 5)], there are [ceil(length / 5)] batches,
    none is empty, none holds more than 5 requests and every batch but the
    last holds exactly 5; an empty request gives no batch. *)
Theorem X3_batches_partition (symbols : list (string * string)) :
  concat (batches symbols) = symbols ∧
  length (batches symbols) = ((length symbols + 4) / 5)%nat ∧
  (∀ k batch, batches symbols !! k = Some batch →
     batch = take 5 (drop (5 * k) symbols) ∧
     (1 ≤ length batch ≤ 5)%nat ∧
     (S k < length (batches symbols) → length batch = 5)%nat) ∧
  (batches symbols = [] ↔ symbols = []).
Proof.
  unfold batches.
  assert (length (batches_from (length symbols) 0 symbols)
          = ((length symbols + 4) / 5)%nat) as Hlen.
  { rewrite batches_from_length by lia. f_equal. lia. }
  split_and!.
  - rewrite concat_batches_from by lia. done.
  - exact Hlen.
  - intros k batch Hk. pose proof (lookup_lt_Some _ _ _ Hk) as Hlt.
    rewrite batches_from_lookup in Hk by lia. cbn [Nat.add] in Hk.
    case_decide as Hi; [| done]. injection Hk as <-. split_and!.
    + done.
    + rewrite length_take, length_drop. lia.
    + rewrite length_take, length_drop. lia.
    + intros Hnext.
      assert (is_Some (batches_from (length symbols) 0 symbols !! S k))
        as [b Hb] by (apply lookup_lt_is_Some; lia).
      rewrite batches_from_lookup in Hb by lia. cbn [Nat.add] in Hb.
      case_decide as Hi'; [| done].
      rewrite length_take, length_drop. lia.
  - split.
    + intros Hnil. rewrite Hnil in Hlen. cbn [length] in Hlen.
      destruct symbols as [| s symbols]; [done |]. exfalso.
      cbn [length] in Hlen.
      assert (1 ≤ (S (length symbols) + 4) / 5)%nat as H1; [| lia].
      apply Nat.div_le_lower_bound; lia.
    + intros ->. done.
Qed.


Lemma getMultipleStockQuotes_fold (answers : list answer) results s :
  Map_get s
    (fold_left
       (λ results (a : answer),
          match a.2 with
          | Some quote => Map_set a.1.1 quote results
          | None => results
          end) answers results) =
  match last (sets_for s answers) with
  | Some quote => Some quote
  | None => Map_get s results
  end.
Proof.
  revert results. induction answers as [| a answers IH]; intros results;
    [done |].
  cbn [fold_left]. rewrite IH. unfold sets_for. cbn [omap list_omap].
  fold (sets_for s answers).
  destruct (last (sets_for s answers)) as [q |] eqn:Hlast.
  - destruct (decide (a.1.1 = s)); [| by rewrite Hlast].
    destruct a.2; [| by rewrite Hlast]. by rewrite last_cons, Hlast.
  - destruct (decide (a.1.1 = s)) as [<- | Hne].
    + destruct a.2 as [q |]; [| by rewrite Hlast].
      rewrite last_cons, Hlast, Map_get_set, decide_True by done. done.
    + rewrite Hlast. destruct a.2; [| done].
      rewrite Map_get_set, decide_False by done. done.
Qed.

Lemma sets_for_absent s (answers : list answer) :
  s ∉ answers.*1.*1 → sets_for s answers = [].
Proof.
  induction answers as [| a answers IH]; [done |].
  rewrite !fmap_cons, not_elem_of_cons. intros [Hne Hnin].
  unfold sets_for. cbn [omap list_omap]. rewrite decide_False by done.
  by apply IH.
Qed.

Lemma sets_for_unique (answers : list answer) a :
  NoDup answers.*1.*1 → a ∈ answers →
  sets_for a.1.1 answers = option_list a.2.
Proof.
  induction answers as [| b answers IH]; intros Hnd Hin.
  - by apply elem_of_nil in Hin.
  - rewrite !fmap_cons in Hnd. apply NoDup_cons in Hnd as [Hb Hnd].
    unfold sets_for. cbn [omap list_omap]. fold (sets_for a.1.1 answers).
    apply elem_of_cons in Hin as [-> | Hin].
    + rewrite decide_True by done. rewrite sets_for_absent by done.
      by destruct b.2.
    + rewrite decide_False; [by apply IH |].
      intros Heq. apply Hb. rewrite Heq.
      apply list_elem_of_fmap. exists a.1. split; [done |].
      apply list_elem_of_fmap. by exists a.
Qed.

Lemma getMultipleStockQuotes_set_calls answers :
  getMultipleStockQuotes answers = quotes_map (set_calls answers).
Proof.
  unfold getMultipleStockQuotes, quotes_map, set_calls.
  generalize (@nil (string * StockQuote)).
  induction answers as [| a answers IH]; intros results; [done |].
  cbn [fold_left omap list_omap]. rewrite IH.
  destruct a.2; cbn [fmap option_fmap option_map fold_left]; done.
Qed.

(** X4: the map [getMultipleStockQuotes] returns is keyed by the bare
    symbol: it has one entry per symbol for which some callback got a
    quote, a symbol whose lookups all returned [null] has none, and when a
    symbol was asked for more than once (on two exchanges, say) the quote
    of the callback that completed last is the one kept.  When the
    requested symbols are distinct every callback's quote is found under
    its symbol, and the order in which the callbacks complete does not
    change any lookup. *)
Theorem X4_getMultipleStockQuotes (answers : list answer) (s : string) :
  let results := getMultipleStockQuotes answers in
  NoDup (Map_keys results) ∧
  Map_get s results = last (sets_for s answers) ∧
  (s ∈ Map_keys results ↔
   ∃ a quote, a ∈ answers ∧ a.1.1 = s ∧ a.2 = Some quote) ∧
  (NoDup answers.*1.*1 →
   (∀ a, a ∈ answers → Map_get a.1.1 results = a.2) ∧
   (∀ answers', answers' ≡ₚ answers →
      Map_get s (getMultipleStockQuotes answers') = Map_get s results)).
Proof.
  intros results.
  assert (∀ l, Map_get s (getMultipleStockQuotes l) = last (sets_for s l))
    as Hget.
  { intros l. unfold getMultipleStockQuotes.
    rewrite getMultipleStockQuotes_fold. by destruct (last (sets_for s l)). }
  assert (∀ l a, NoDup l.*1.*1 → a ∈ l →
            Map_get a.1.1 (getMultipleStockQuotes l) = a.2) as Hone.
  { intros l a Hnd Ha. unfold getMultipleStockQuotes.
    rewrite getMultipleStockQuotes_fold, sets_for_unique by done.
    by destruct a.2. }
  split_and!.
  - unfold results. rewrite getMultipleStockQuotes_set_calls.
    apply NoDup_quotes_map.
  - apply Hget.
  - destruct (Map_get s results) as [q |] eqn:Hq.
    + split.
      * intros _. unfold results in Hq. rewrite Hget in Hq.
        apply last_Some_elem_of in Hq.
        apply list_elem_of_omap in Hq as (a & Ha & Hs).
        case_decide; [| done]. by exists a, q.
      * intros _. destruct (decide (s ∈ Map_keys results)) as [| Hn]; [done |].
        apply Map_get_None in Hn. congruence.
    + split.
      * intros Hin. by apply Map_get_None in Hq.
      * intros (a & quote & Ha & Hs & Hquote). exfalso.
        unfold results in Hq. rewrite Hget in Hq.
        apply last_None in Hq.
        assert (quote ∈ sets_for s answers) as Hin.
        { apply list_elem_of_omap. exists a. split; [done |].
          by rewrite decide_True. }
        rewrite Hq in Hin. by apply elem_of_nil in Hin.
  - intros Hnd. split; [intros a Ha; by apply Hone |].
    intros answers' Hperm.
    destruct (decide (s ∈ answers.*1.*1)) as [Hin | Hnin].
    + apply list_elem_of_fmap in Hin as (r & -> & Hr).
      apply list_elem_of_fmap in Hr as (a & -> & Ha).
      unfold results. rewrite !Hone; try done.
      * by rewrite Hperm.
      * by rewrite Hperm.
    + unfold results. rewrite !Hget, !sets_for_absent; try done.
      by rewrite Hperm.
Qed.

(** ** Counting the armed timers *)

Lemma armed_omap cb st : armed cb st = omap (pick cb) (timers st).
Proof.
  unfold armed, active_timers. induction (timers st) as [| o ts IH]; [done |].
  cbn [omap list_omap]. destruct o as [t |]; cbn [id pick mbind option_bind].
  - rewrite filter_cons. case_decide; by rewrite IH.
  - exact IH.
Qed.

Lemma omap_lookup_nil {A B} (f : A → option B) (l : list A) :
  (∀ h, l !! h ≫= f = None) → omap f l = [].
Proof.
  induction l as [| x l IH]; intros H; [done |].
  cbn [omap list_omap]. pose proof (H 0%nat) as H0. cbn in H0. rewrite H0.
  apply IH. intros h. apply (H (S h)).
Qed.

Lemma omap_ext_lookup {A B} (f : A → option B) (l l' : list A) :
  (∀ h, l !! h ≫= f = l' !! h ≫= f) → omap f l = omap f l'.
Proof.
  revert l'. induction l as [| x l IH]; intros l' H.
  - symmetry. apply omap_lookup_nil. intros h. by rewrite <- H.
  - destruct l' as [| y l'].
    + apply omap_lookup_nil. intros h. by rewrite H.
    + cbn [omap list_omap]. pose proof (H 0%nat) as H0. cbn in H0.
      rewrite H0, (IH l'); [done |]. intros h. apply (H (S h)).
Qed.

Lemma lookup_cleared old ts h :
  cleared old ts !! h =
    if decide (old = Some h ∧ (h < length ts)%nat) then Some None else ts !! h.
Proof.
  unfold cleared. destruct old as [h0 |].
  - destruct (decide (h0 = h)) as [-> | Hne].
    + case_decide as Hd.
      * apply list_lookup_insert_eq. by destruct Hd.
      * rewrite list_insert_ge; [done |].
        destruct (decide (h < length ts)%nat); [| lia]. by destruct Hd.
    + rewrite list_lookup_insert_ne by done.
      rewrite decide_False; [done |]. intros [[= ?] _]. done.
  - rewrite decide_False; [done |]. by intros [? _].
Qed.

Lemma timers_startPeriodicUpdates st :
  timers (startPeriodicUpdates st) =
    cleared (updateInterval st) (timers st)
      ++ [Some {| callback := PortfolioTick; delay := updateIntervalMs st |}].
Proof.
  unfold startPeriodicUpdates, setInterval, clearInterval, cleared.
  by destruct (updateInterval st).
Qed.

Lemma timers_startStockPriceUpdates st :
  timers (startStockPriceUpdates st) =
    cleared (stockUpdateInterval st) (timers st)
      ++ [Some {| callback := StockTick; delay := stockUpdateIntervalMs st |}].
Proof.
  unfold startStockPriceUpdates, setInterval, clearInterval, cleared.
  by destruct (stockUpdateInterval st).
Qed.

(** Restarting a cycle: the timers of the cycle's callback [cb'] are all
    at the handle [old], which is cleared, and one is armed. *)
Lemma omap_pick_restart cb cb' ts old x :
  callback x = cb' →
  (∀ h t, old = Some h → ts !! h = Some (Some t) → callback t = cb') →
  (∀ h t, ts !! h = Some (Some t) → callback t = cb' → old = Some h) →
  omap (pick cb) (cleared old ts ++ [Some x]) =
    if decide (cb = cb') then [x] else omap (pick cb) ts.
Proof.
  intros Hx Hold Hall. rewrite omap_app. cbn [omap list_omap pick mbind option_bind].
  rewrite Hx. destruct (decide (cb = cb')) as [-> | Hne].
  - rewrite decide_True by done.
    rewrite (omap_lookup_nil (pick cb') (cleared old ts)); [done |].
    intros h. rewrite lookup_cleared. case_decide as Hd; [done |].
    destruct (ts !! h) as [[t |] |] eqn:Hh; cbn; [| done ..].
    case_decide as Hcb; [| done]. exfalso. apply Hd. split.
    + by eapply Hall.
    + by eapply lookup_lt_Some.
  - rewrite decide_False by done. rewrite app_nil_r.
    apply omap_ext_lookup. intros h. rewrite lookup_cleared.
    case_decide as Hd; [| done]. destruct Hd as [Hd _].
    destruct (ts !! h) as [[t |] |] eqn:Hh; cbn; [| done ..].
    rewrite decide_False; [done |].
    rewrite (Hold h t Hd Hh). done.
Qed.

Lemma armed_startPeriodicUpdates cb st :
  timers_ok st →
  armed cb (startPeriodicUpdates st) =
    if decide (cb = PortfolioTick)
    then [{| callback := PortfolioTick; delay := updateIntervalMs st |}]
    else armed cb st.
Proof.
  intros (H1 & H2 & H3 & H4 & H5 & H6).
  rewrite !armed_omap, timers_startPeriodicUpdates.
  apply omap_pick_restart; [done | |].
  - intros h t Hh Ht. by eapply H1.
  - intros h t Ht Hcb. by eapply H3.
Qed.

Lemma armed_startStockPriceUpdates cb st :
  timers_ok st →
  armed cb (startStockPriceUpdates st) =
    if decide (cb = StockTick)
    then [{| callback := StockTick; delay := stockUpdateIntervalMs st |}]
    else armed cb st.
Proof.
  intros (H1 & H2 & H3 & H4 & H5 & H6).
  rewrite !armed_omap, timers_startStockPriceUpdates.
  apply omap_pick_restart; [done | |].
  - intros h t Hh Ht. by eapply H2.
  - intros h t Ht Hcb. by eapply H4.
Qed.

Lemma armed_same st st' cb : timers st' = timers st → armed cb st' = armed cb st.
Proof. unfold armed, active_timers. by intros ->. Qed.

Lemma timers_ok_with_ms st x y :
  timers_ok st →
  timers_ok (with_updateIntervalMs x st) ∧
  timers_ok (with_stockUpdateIntervalMs y st).
Proof. intros H. split; by destruct st. Qed.

Lemma armed_initialize cb st :
  timers_ok st →
  armed cb (initialize st) =
    match cb with
    | PortfolioTick =>
        [{| callback := PortfolioTick; delay := updateIntervalMs st |}]
    | StockTick =>
        [{| callback := StockTick; delay := stockUpdateIntervalMs st |}]
    | HeartbeatTick =>
        armed HeartbeatTick st ++ [{| callback := HeartbeatTick; delay := 30000 |}]
    end.
Proof.
  intros Hok. unfold initialize.
  destruct (timers_ok_with_wss (Some (Server "/ws")) st Hok) as [Hok0 _].
  set (st0 := with_wss _ st) in *.
  destruct (timers_ok_startPeriodicUpdates st0 Hok0) as [Hok1 _].
  pose proof (armed_startPeriodicUpdates cb st0 Hok0) as E1.
  set (st1 := startPeriodicUpdates st0) in *.
  pose proof (armed_startStockPriceUpdates cb st1 Hok1) as E2.
  set (st2 := startStockPriceUpdates st1) in *.
  assert (armed cb st0 = armed cb st) as E0 by (apply armed_same; by destruct st).
  assert (stockUpdateIntervalMs st1 = stockUpdateIntervalMs st) as Ems.
  { unfold st1, st0, startPeriodicUpdates, setInterval, clearInterval.
    destruct st as [? ? u ? ? ? ? ? ? ? ? ?]. by destruct u. }
  assert (updateIntervalMs st0 = updateIntervalMs st) as Ems0 by (by destruct st).
  rewrite armed_omap. unfold setInterval. cbn [snd].
  assert (∀ x s, timers (with_timers x s) = x) as Hwt by (by intros x []).
  rewrite Hwt, omap_app, <- armed_omap, E2, E1, E0, Ems, Ems0.
  destruct cb; cbn; by rewrite ?app_nil_r.
Qed.

Lemma armed_close cb st :
  timers_ok st →
  armed cb (close st) =
    match cb with HeartbeatTick => armed HeartbeatTick st | _ => [] end.
Proof.
  intros Hok. destruct (timers_close st Hok) as (_ & _ & Ht).
  destruct Hok as (H1 & H2 & H3 & H4 & H5 & H6).
  rewrite !armed_omap.
  assert (∀ h, timers (close st) !! h ≫= pick cb =
               if decide (cb = HeartbeatTick) then timers st !! h ≫= pick cb
               else None) as Hl.
  { intros h. rewrite Ht. case_decide as Hd.
    - cbn. case_decide as Hcb; [| done]. subst cb.
      destruct (timers st !! h) as [[t |] |] eqn:Hh; cbn; [| done ..].
      case_decide as Hc; [| done]. exfalso. destruct Hd as [Hd | Hd].
      + pose proof (H1 h t Hd Hh). congruence.
      + pose proof (H2 h t Hd Hh). congruence.
    - case_decide as Hcb; [done |].
      destruct (timers st !! h) as [[t |] |] eqn:Hh; cbn; [| done ..].
      case_decide as Hc; [| done]. exfalso. apply Hd.
      destruct cb; [left | right | done].
      + by eapply H3.
      + by eapply H4. }
  destruct (decide (cb = HeartbeatTick)) as [-> | Hne].
  - apply omap_ext_lookup. intros h. by rewrite Hl.
  - transitivity (@nil Timer); [| by destruct cb].
    apply omap_lookup_nil. intros h. by rewrite Hl.
Qed.

Lemma schedule_step_other e st :
  match e with
  | Initialize | SetUpdateInterval _ | SetStockUpdateInterval _
  | CloseService => False
  | _ => True
  end →
  timers (step e st) = timers st ∧ periods (step e st) = periods st.
Proof.
  assert (∀ s s', frame s s' → timers s' = timers s ∧ periods s' = periods s)
    as Hf.
  { intros s s'. unfold frame. by intros ->. }
  intros He. destruct e; cbn [step].
  - done.
  - destruct (wss st); [| done]. unfold on_connection.
    set (st0 := with_clients _ (with_sockets _ st)).
    set (st1 := sendToClient (length (sockets st)) (Connected now) st0).
    assert (timers st1 = timers st ∧ periods st1 = periods st) as [E1 E2].
    { unfold st1.
      destruct (Hf _ _ (frame_sendToClient (length (sockets st))
                          (Connected now) st0)) as [-> ->].
      unfold st0. by destruct st. }
    rewrite <- E1, <- E2. unfold broadcastPortfolioUpdate.
    case_decide; [done |]. by destruct st1.
  - destruct data; cbn [on_message]; [| done].
    apply Hf, frame_handleClientMessage.
  - done.
  - done.
  - done.
  - destruct (timers st !! h) as [[t |] |]; [| done ..].
    destruct (callback t); cbn [fire].
    + unfold broadcastPortfolioUpdate. case_decide; [done |]. by destruct st.
    + unfold broadcastStockPriceUpdates. case_decide; [done |]. by destruct st.
    + apply Hf, frame_heartbeat.
  - destruct (pendingPortfolio st !! i); [| done].
    destruct (Hf _ _ (frame_portfolio_resume l r now
                        (with_pendingPortfolio (delete i (pendingPortfolio st)) st)))
      as [-> ->].
    by destruct st.
  - destruct (pendingQuotes st !! i) as [subs |]; [| done].
    set (st' := with_pendingQuotes _ st).
    assert (timers st' = timers st ∧ periods st' = periods st) as [E1 E2]
      by (unfold st'; by destruct st).
    destruct r as [results |]; cbn [broadcastStockPriceUpdates_resume];
      [| done].
    assert (∀ qs acc,
              let r := fold_left (quote_step subs now) qs acc in
              timers r.2 = timers acc.2 ∧ periods r.2 = periods acc.2)
      as Hfold.
    { induction qs as [| q qs IH]; intros acc; [done |].
      cbn [fold_left]. destruct (IH (quote_step subs now acc q)) as [-> ->].
      unfold quote_step. repeat case_match; done. }
    specialize (Hfold (quotes_map results) ([], st')).
    destruct (fold_left _ _ _) as [ups s1]. cbn [snd] in Hfold.
    destruct Hfold as [F1 F2].
    case_decide; [split; congruence |].
    destruct (Hf s1 (clients_forEach (stock_fanout_client ups now) s1))
      as [-> ->]; [| split; congruence].
    apply frame_clients_forEach. intros. apply frame_stock_fanout_client.
  - unfold broadcastPortfolioUpdate. case_decide; [done |]. by destruct st.
  - unfold broadcastStockPriceUpdates. case_decide; [done |]. by destruct st.
  - done.
  - done.
  - done.
  - done.
  - done.
Qed.

Lemma run_snoc evs e st : run (evs ++ [e]) st = step e (run evs st).
Proof. unfold run. by rewrite fold_left_app. Qed.

Lemma timers_ok_reachable evs : timers_ok (run evs initial_state).
Proof.
  apply run_ind; [| apply timers_ok_initial].
  intros e s Hs. by destruct (timers_ok_step e s Hs).
Qed.

Lemma armed_setUpdateInterval cb ms st :
  timers_ok st →
  armed cb (setUpdateInterval ms st) =
    if decide (cb = PortfolioTick)
    then [{| callback := PortfolioTick; delay := ms |}] else armed cb st.
Proof.
  intros Hok. unfold setUpdateInterval.
  destruct (timers_ok_with_ms st ms 0 Hok) as [Hok' _].
  rewrite armed_startPeriodicUpdates by done.
  case_decide; [by destruct st |]. apply armed_same. by destruct st.
Qed.

Lemma armed_setStockUpdateInterval cb ms st :
  timers_ok st →
  armed cb (setStockUpdateInterval ms st) =
    if decide (cb = StockTick)
    then [{| callback := StockTick; delay := ms |}] else armed cb st.
Proof.
  intros Hok. unfold setStockUpdateInterval.
  destruct (timers_ok_with_ms st 0 ms Hok) as [_ Hok'].
  rewrite armed_startStockPriceUpdates by done.
  case_decide; [by destruct st |]. apply armed_same. by destruct st.
Qed.

Lemma periods_startPeriodicUpdates st :
  periods (startPeriodicUpdates st) = periods st.
Proof.
  unfold startPeriodicUpdates, setInterval, clearInterval.
  destruct st as [? ? u ? ? ? ? ? ? ? ? ?]. by destruct u.
Qed.

Lemma periods_startStockPriceUpdates st :
  periods (startStockPriceUpdates st) = periods st.
Proof.
  unfold startStockPriceUpdates, setInterval, clearInterval.
  destruct st as [? ? ? u ? ? ? ? ? ? ? ?]. by destruct u.
Qed.

Lemma periods_initialize st : periods (initialize st) = periods st.
Proof.
  unfold initialize, setInterval. cbn [snd].
  transitivity (periods (startStockPriceUpdates
                           (startPeriodicUpdates (with_wss (Some (Server "/ws")) st)))).
  { by destruct (startStockPriceUpdates _). }
  rewrite periods_startStockPriceUpdates, periods_startPeriodicUpdates.
  by destruct st.
Qed.

(** In a state the service can reach a cycle has no armed timer or one,
    set to the cycle's current period. *)
Lemma cycle_timer_step cb e st :
  cb ≠ HeartbeatTick → timers_ok st →
  (armed cb st = [] ∨ armed cb st = [cycle_timer cb st]) →
  armed cb (step e st) = [] ∨ armed cb (step e st) = [cycle_timer cb (step e st)].
Proof.
  intros Hcb Hok Hst.
  assert (∀ st', timers st' = timers st → periods st' = periods st →
            armed cb st' = [] ∨ armed cb st' = [cycle_timer cb st']) as Hsame.
  { intros st' Ht Hp. rewrite (armed_same st st' cb Ht).
    assert (cycle_timer cb st' = cycle_timer cb st) as ->; [| done].
    unfold periods in Hp. pose proof (f_equal fst Hp) as Hp1. pose proof (f_equal snd Hp) as Hp2.
    cbn [periods fst snd] in Hp1, Hp2.
    unfold cycle_timer. by rewrite Hp1, Hp2. }
  destruct e;
    try (match goal with
         | |- context [step ?e st] =>
             destruct (schedule_step_other e st I) as [Ht Hp]
         end; by apply Hsame).
  - right. cbn [step]. rewrite armed_initialize by done.
    pose proof (periods_initialize st) as Hp.
    pose proof (f_equal fst Hp) as Hp1. pose proof (f_equal snd Hp) as Hp2.
    cbn [periods fst snd] in Hp1, Hp2.
    unfold cycle_timer. rewrite Hp1, Hp2. by destruct cb.
  - cbn [step]. rewrite armed_setUpdateInterval by done.
    assert (periods (setUpdateInterval intervalMs st)
            = (intervalMs, stockUpdateIntervalMs st)) as Hp.
    { unfold setUpdateInterval. rewrite periods_startPeriodicUpdates.
      by destruct st. }
    pose proof (f_equal fst Hp) as Hp1. pose proof (f_equal snd Hp) as Hp2.
    cbn [periods fst snd] in Hp1, Hp2. unfold cycle_timer. rewrite Hp1, Hp2.
    destruct cb; [by right | | done].
    rewrite decide_False by done. exact Hst.
  - cbn [step]. rewrite armed_setStockUpdateInterval by done.
    assert (periods (setStockUpdateInterval intervalMs st)
            = (updateIntervalMs st, intervalMs)) as Hp.
    { unfold setStockUpdateInterval. rewrite periods_startStockPriceUpdates.
      by destruct st. }
    pose proof (f_equal fst Hp) as Hp1. pose proof (f_equal snd Hp) as Hp2.
    cbn [periods fst snd] in Hp1, Hp2. unfold cycle_timer. rewrite Hp1, Hp2.
    destruct cb; [| by right | done].
    rewrite decide_False by done. exact Hst.
  - left. cbn [step]. rewrite armed_close by done. by destruct cb.
Qed.

Lemma cycle_timer_reachable cb evs :
  cb ≠ HeartbeatTick →
  let st := run evs initial_state in
  armed cb st = [] ∨ armed cb st = [cycle_timer cb st].
Proof.
  intros Hcb. induction evs as [| e evs IH] using rev_ind.
  - by left.
  - cbn zeta. rewrite run_snoc.
    apply cycle_timer_step; [done | apply timers_ok_reachable | exact IH].
Qed.

(** X5: each of the two cycles runs on at most one timer, set to the
    period the service holds for it, in every state the service can reach.
    [setUpdateInterval(ms)] stores the period and leaves exactly one armed
    portfolio timer, of period [ms], whether or not one was armed before
    (also on a service never initialised, or closed); the price timer and
    the heartbeat timers stay as they are.  [setStockUpdateInterval] does
    the same for the price cycle. *)
Theorem X5_cycle_timers (evs : list Event) (ms : Z) :
  let st := run evs initial_state in
  (armed PortfolioTick st = [] ∨
   armed PortfolioTick st =
     [{| callback := PortfolioTick; delay := updateIntervalMs st |}]) ∧
  (armed StockTick st = [] ∨
   armed StockTick st =
     [{| callback := StockTick; delay := stockUpdateIntervalMs st |}]) ∧
  (let st' := setUpdateInterval ms st in
   updateIntervalMs st' = ms ∧
   armed PortfolioTick st' = [{| callback := PortfolioTick; delay := ms |}] ∧
   armed StockTick st' = armed StockTick st ∧
   armed HeartbeatTick st' = armed HeartbeatTick st) ∧
  (let st' := setStockUpdateInterval ms st in
   stockUpdateIntervalMs st' = ms ∧
   armed StockTick st' = [{| callback := StockTick; delay := ms |}] ∧
   armed PortfolioTick st' = armed PortfolioTick st ∧
   armed HeartbeatTick st' = armed HeartbeatTick st).
Proof.
  intros st. pose proof (timers_ok_reachable evs) as Hok. fold st in Hok.
  split_and!.
  - by apply (cycle_timer_reachable PortfolioTick evs).
  - by apply (cycle_timer_reachable StockTick evs).
  - intros st'. unfold st'. rewrite !armed_setUpdateInterval by done.
    split_and!; try done.
    unfold setUpdateInterval.
    pose proof (periods_startPeriodicUpdates (with_updateIntervalMs ms st)) as Hp.
    pose proof (f_equal fst Hp) as Hp1. pose proof (f_equal snd Hp) as Hp2.
    cbn [periods fst snd] in Hp1, Hp2. rewrite Hp1. by destruct st.
  - intros st'. unfold st'. rewrite !armed_setStockUpdateInterval by done.
    split_and!; try done.
    unfold setStockUpdateInterval.
    pose proof (periods_startStockPriceUpdates
                  (with_stockUpdateIntervalMs ms st)) as Hp.
    pose proof (f_equal fst Hp) as Hp1. pose proof (f_equal snd Hp) as Hp2.
    cbn [periods fst snd] in Hp1, Hp2. rewrite Hp2. by destruct st.
Qed.

Lemma armed_heartbeat_step e st :
  timers_ok st →
  armed HeartbeatTick (step e st) =
    armed HeartbeatTick st ++
    (if is_initialize e then [{| callback := HeartbeatTick; delay := 30000 |}]
     else []).
Proof.
  intros Hok.
  destruct e; cbn [is_initialize]; rewrite ?app_nil_r;
    try (match goal with
         | |- context [step ?e st] =>
             destruct (schedule_step_other e st I) as [Ht _]
         end; by apply armed_same);
    cbn [step].
  - by rewrite armed_initialize.
  - by rewrite armed_setUpdateInterval.
  - by rewrite armed_setStockUpdateInterval.
  - by rewrite armed_close.
Qed.

(** X6: heartbeat timers are only ever added.  After any sequence of tasks
    the armed heartbeat timers are as many as [initialize] was called, each
    of period 30000 ms: no call of the service cancels one, and a second
    [initialize] arms a second one beside the first. *)
Theorem X6_heartbeat_timers_accumulate (evs : list Event) :
  armed HeartbeatTick (run evs initial_state) =
    replicate (initializations evs)
      {| callback := HeartbeatTick; delay := 30000 |}.
Proof.
  induction evs as [| e evs IH] using rev_ind; [done |].
  rewrite run_snoc, armed_heartbeat_step by apply timers_ok_reachable.
  rewrite IH. unfold initializations. rewrite filter_app, length_app.
  rewrite replicate_add. f_equal.
  rewrite filter_cons, filter_nil. by destruct (is_initialize e).
Qed.

(** ** The portfolio flag *)


Lemma update_subscription_frame w f st :
  frame st (update_subscription w f st).
Proof. unfold update_subscription. apply frame_with_clients. Qed.




(** ** What the control messages send *)

(** X8: the only control message the service answers is [subscribe_stocks]
    with a list of symbols.  The requester is sent one [subscribed] message
    whose [symbol] is the list as received joined by commas (the empty
    string for an empty list), if its transport takes the send, and nothing
    otherwise; no other connection is sent anything or has its subscription
    changed.  [unsubscribe_stocks] is not confirmed, and a message on a
    connection that is not registered, or one that is not JSON, changes
    nothing at all. *)
Theorem X8_subscribe_confirmation (st : State) (w : nat)
    (syms : list string) (now : Z) :
  let st1 := on_message w (subscribe_stocks syms) now st in
  let st2 := on_message w (unsubscribe_stocks syms) now st in
  outbox_of w st1 =
    outbox_of w st ++
      (if registered w st && deliverable w st
       then [Subscribed (join_comma syms) now] else []) ∧
  (∀ c, c ≠ w →
     outbox_of c st1 = outbox_of c st ∧
     Map_get c (clients st1) = Map_get c (clients st)) ∧
  sockets st2 = sockets st ∧
  (∀ data, registered w st = false → on_message w (Some data) now st = st) ∧
  on_message w None now st = st.
Proof.
  intros st1 st2.
  destruct (Map_get w (clients st)) as [sub |] eqn:Hget.
  - assert (st1 = sendToClient w (Subscribed (join_comma syms) now)
                    (update_subscription w (add_symbols syms) st)) as Hst1
      by apply (handleClientMessage_subscribe _ _ _ _ _ Hget).
    assert (st2 = update_subscription w (delete_symbols syms) st) as Hst2
      by apply (handleClientMessage_unsubscribe _ _ _ _ _ Hget).
    rewrite (registered_Some w st sub Hget). split_and!.
    + rewrite Hst1, outbox_of_sendToClient, bool_decide_eq_true_2 by done.
      done.
    + intros c Hc. rewrite Hst1. split.
      * rewrite outbox_of_sendToClient, bool_decide_eq_false_2 by done.
        cbn. by rewrite app_nil_r.
      * rewrite clients_sendToClient.
        destruct (send_raises _ _);
          rewrite ?Map_get_delete, ?decide_False by done;
          by rewrite Map_get_update_subscription, decide_False.
    + by rewrite Hst2.
    + intros data [=].
    + done.
  - assert (∀ data, on_message w (Some data) now st = st) as Hnone.
    { intros data. cbn [on_message]. unfold handleClientMessage.
      by rewrite Hget. }
    unfold st1, st2, subscribe_stocks, unsubscribe_stocks. rewrite !Hnone.
    apply registered_None in Hget. rewrite Hget. cbn [andb].
    rewrite app_nil_r. split_and!; done.
Qed.

(** ** The request and the pass of a price cycle *)



Lemma quote_step_cases subs now acc e :
  quote_step subs now acc e = acc ∨
  ∃ key p,
    find_symbolKey subs e.1 = Some key ∧ regularMarketPrice e.2 = Some p ∧
    truthy_string key = true ∧ truthy_number p = true ∧
    quote_step subs now acc e =
      (acc.1 ++ [make_update e.1 e.2 p (latest_price (series key acc.2)) now],
       updatePriceHistory key p now acc.2).
Proof.
  unfold quote_step.
  destruct (find_symbolKey subs e.1) as [key |] eqn:Hkey; [| by left].
  destruct (regularMarketPrice e.2) as [p |] eqn:Hp; [| by left].
  destruct (truthy_string key) eqn:Hk; [| by left].
  destruct (truthy_number p) eqn:Ht; [| by left].
  right. exists key, p. by split_and!.
Qed.

Lemma quotes_fold_pass subs now qs acc :
  NoDup qs.*1 →
  let r := fold_left (quote_step subs now) qs acc in
  ∃ more,
    r.1 = acc.1 ++ more ∧ NoDup (symbol <$> more) ∧
    (∀ u, u ∈ more →
       ∃ quote key,
         (symbol u, quote) ∈ qs ∧ find_symbolKey subs (symbol u) = Some key ∧
         truthy_string key = true ∧
         regularMarketPrice quote = Some (price u) ∧
         truthy_number (price u) = true ∧ timestamp u = now) ∧
    (∀ k, (∀ u, u ∈ more → find_symbolKey subs (symbol u) ≠ Some k) →
          priceHistory r.2 !! k = priceHistory acc.2 !! k) ∧
    (more = [] → r.2 = acc.2).
Proof.
  revert acc. induction qs as [| e qs IH]; intros acc Hnd.
  - exists []. cbn. rewrite app_nil_r.
    split_and!; try done; try apply NoDup_nil_2.
    intros u Hu. by apply elem_of_nil in Hu.
  - rewrite fmap_cons in Hnd. apply NoDup_cons in Hnd as [He Hnd].
    cbn [fold_left].
    destruct (IH (quote_step subs now acc e) Hnd)
      as (more & Hmore & Hnd' & Hall & Hstore & Hnil).
    destruct (quote_step_cases subs now acc e)
      as [Hsame | (key & p & Hkey & Hp & Hk & Ht & Hstep)].
    + rewrite Hsame in *. exists more. split_and!; try done.
      intros u Hu. destruct (Hall u Hu) as (quote & k & Hin & Hrest).
      exists quote, k. split; [by right | done].
    + rewrite Hstep in *. cbn [fst snd] in *.
      set (u0 := make_update e.1 e.2 p (latest_price (series key acc.2)) now)
        in *.
      exists (u0 :: more). split_and!.
      * rewrite Hmore, <- app_assoc. done.
      * rewrite fmap_cons. apply NoDup_cons. split; [| done].
        intros (u & Hsym & Hu)%list_elem_of_fmap.
        destruct (Hall u Hu) as (quote & _ & Hin & _).
        apply He. apply list_elem_of_fmap. exists (symbol u, quote).
        split; [| done]. cbn [fst]. by rewrite <- Hsym.
      * intros u [-> | Hu]%elem_of_cons.
        -- exists e.2, key. split_and!; try done.
           replace (symbol u0, e.2) with e by (by destruct e). left.
        -- destruct (Hall u Hu) as (quote & k & Hin & Hrest).
           exists quote, k. split; [by right | done].
      * intros k Hk'. rewrite Hstore.
        -- apply lookup_updatePriceHistory_ne. intros ->.
           apply (Hk' u0); [left | done].
        -- intros u Hu. apply Hk'. by right.
      * done.
Qed.

(** X10: the pass of a price cycle over the quotes.  It makes at most one
    update per quoted symbol; every update belongs to a quote with a truthy
    price whose symbol is the symbol part of a subscribed key, and carries
    that price and the time of the pass.  The point is recorded under the
    first subscribed key with that symbol part and under no other: the
    series of every other key, subscribed or not, stays as it was.  A pass
    that makes no update leaves the service as it was and sends nothing. *)
Theorem X10_price_pass (st : State) (subs : list string)
    (results : list (string * StockQuote)) (now : Z) :
  let r := fold_left (quote_step subs now) (quotes_map results) ([], st) in
  NoDup (symbol <$> r.1) ∧
  (∀ u, u ∈ r.1 →
     ∃ quote key,
       Map_get (symbol u) (quotes_map results) = Some quote ∧
       find_symbolKey subs (symbol u) = Some key ∧
       key ∈ subs ∧ key ≠ "" ∧ (symbol_parts key).1 = symbol u ∧
       regularMarketPrice quote = Some (price u) ∧
       truthy_number (price u) = true ∧ timestamp u = now) ∧
  (∀ k, (∀ u, u ∈ r.1 → find_symbolKey subs (symbol u) ≠ Some k) →
        series k r.2 = series k st) ∧
  (r.1 = [] →
   broadcastStockPriceUpdates_resume subs (Quoted results) now st = st).
Proof.
  intros r. pose proof (NoDup_quotes_map results) as Hnd.
  destruct (quotes_fold_pass subs now (quotes_map results) ([], st) Hnd)
    as (more & Hmore & Hnd' & Hall & Hstore & Hnil).
  fold r in Hmore, Hstore, Hnil. cbn [fst snd app] in Hmore, Hstore, Hnil.
  rewrite Hmore. split_and!.
  - done.
  - intros u Hu.
    destruct (Hall u Hu) as (quote & key & Hin & Hkey & Hk & Hp & Ht & Hts).
    destruct (find_symbolKey_Some subs (symbol u) key Hkey) as [Hpart Hsub].
    exists quote, key. split_and!; try done.
    + by apply Map_get_elem.
    + intros ->. done.
  - intros k Hk. unfold series. by rewrite Hstore.
  - intros ->. cbn [broadcastStockPriceUpdates_resume].
    fold r. destruct r as [ups st1] eqn:Hr. cbn [fst snd] in *. subst ups.
    rewrite decide_True by done. by apply Hnil.
Qed.

(** ** Connections that went away *)

Lemma length_Map_delete {V} (m : list (nat * V)) k :
  NoDup (Map_keys m) →
  (length (Map_delete k m) +
   match Map_get k m with Some _ => 1 | None => 0 end = length m)%nat.
Proof.
  unfold Map_keys, Map_delete. induction m as [| [k' v] m IH]; intros Hnd;
    [done |].
  rewrite fmap_cons in Hnd. apply NoDup_cons in Hnd as [Hk' Hnd].
  rewrite filter_cons. cbn [fst Map_get length].
  destruct (decide (k = k')) as [-> | Hne].
  - rewrite decide_False by (intros H; by apply H).
    assert (Map_get k' m = None) as Hnone by (by apply Map_get_None).
    specialize (IH Hnd). rewrite Hnone in IH. lia.
  - rewrite decide_True by done. cbn [length]. specialize (IH Hnd). lia.
Qed.

(** X11: the [close] and [error] events of a socket unregister its
    connection and nothing else: the count of connected clients drops by
    one if the connection was registered and stays as it is otherwise (the
    heartbeat or a failed send may have removed it before), and every
    other connection keeps its subscription.  From then on, whatever
    happens, the connection is never registered again and its socket is
    never sent another message. *)
Theorem X11_closed_connection (evs evs' : list Event) (w : nat)
    (s : WebSocket) (error : bool) :
  let st := run evs initial_state in
  let st1 := step (if error then SocketError w else SocketClose w) st in
  sockets st !! w = Some s →
  registered w st1 = false ∧
  (getConnectedClientsCount st1 + (if registered w st then 1 else 0)
   = getConnectedClientsCount st)%nat ∧
  (∀ c, c ≠ w → Map_get c (clients st1) = Map_get c (clients st)) ∧
  registered w (run evs' st1) = false ∧
  outbox_of w (run evs' st1) = outbox s.
Proof.
  intros st st1 Hs.
  pose proof (reg_ok_run evs) as ((Hnd & _) & _). fold st in Hnd.
  assert (clients st1 = Map_delete w (clients st)) as Hc.
  { unfold st1. by destruct error. }
  assert (∃ s1, sockets st1 !! w = Some s1 ∧ readyState s1 ≠ OPEN ∧
                outbox s1 = outbox s) as (s1 & Hs1 & Hr1 & Ho1).
  { unfold st1. destruct error; cbn [step on_error on_close sockets
                                       with_clients with_sockets];
      rewrite list_lookup_alter_eq, Hs; cbn; eexists; split_and!; try done.
    unfold ws_closing. cbn. by destruct (readyState s). }
  assert (registered w st1 = false) as Hreg.
  { apply registered_None. by rewrite Hc, Map_get_delete, decide_True. }
  destruct (evolves_run_any w evs' st1 s1 Hs1)
    as [(s' & Hs' & _ & Hclosed & _) Hback].
  destruct (Hclosed Hr1) as [_ Ho'].
  split_and!.
  - exact Hreg.
  - unfold getConnectedClientsCount, registered. rewrite Hc.
    pose proof (length_Map_delete (clients st) w Hnd) as Hlen.
    destruct (Map_get w (clients st)).
    + by rewrite bool_decide_eq_true_2.
    + rewrite bool_decide_eq_false_2; [done |]. by intros [? ?].
  - intros c Hne. by rewrite Hc, Map_get_delete, decide_False.
  - destruct (registered w (run evs' st1)) eqn:E; [| done].
    rewrite <- Hreg. symmetry. by apply Hback.
  - rewrite (outbox_of_lookup _ _ _ Hs'). congruence.
Qed.

Lemma X11_closed_connection_witness :
  let st := run [Initialize; Connection false 1; Connection false 2]
              initial_state in
  sockets st !! 0%nat =
    Some (ws_push (Connected 1) (ws_with_isAlive (Some true) (new_socket false)))
  ∧ outbox_of 0 (run [TriggerUpdate; PortfolioSettled 2 (BuildFailed None) 5]
                   (step (SocketClose 0) st)) = [Connected 1].
Proof.
  intros st. split; [reflexivity |].
  exact (proj2 (proj2 (proj2 (proj2
           (X11_closed_connection
              [Initialize; Connection false 1; Connection false 2]
              [TriggerUpdate; PortfolioSettled 2 (BuildFailed None) 5]
              0 _ false eq_refl))))).
Defined.

(** ** The Portfolio Builder *)

Lemma sum_investment_ext (l l' : list StockHolding) :
  Forall2 (λ s s', purchasePrice s' = purchasePrice s ∧
                   quantity s' = quantity s) l l' →
  sum_investment l' = sum_investment l.
Proof.
  unfold sum_investment. intros H. generalize 0%float.
  induction H as [| s s' l l' [Hp Hq] _ IH]; intros acc; [done |].
  cbn [fold_left]. rewrite Hp, Hq. apply IH.
Qed.

Lemma calculatePortfolioPercentages_lookup Math_round stocks i :
  calculatePortfolioPercentages Math_round stocks !! i =
    (λ s, if PrimFloat.eqb (sum_investment stocks) 0 then s
          else sh_with_portfolioPercent
                 (round2 Math_round
                    (PrimFloat.mul
                       (PrimFloat.div
                          (PrimFloat.mul (purchasePrice s) (quantity s))
                          (sum_investment stocks)) 100)) s) <$> stocks !! i.
Proof.
  unfold calculatePortfolioPercentages.
  destruct (PrimFloat.eqb (sum_investment stocks) 0).
  - by destruct (stocks !! i).
  - by rewrite list_lookup_fmap.
Qed.

Lemma calculatePortfolioPercentages_length Math_round stocks :
  length (calculatePortfolioPercentages Math_round stocks) = length stocks.
Proof.
  unfold calculatePortfolioPercentages.
  destruct (PrimFloat.eqb _ _); [done | by rewrite length_fmap].
Qed.

(** X12: [calculatePortfolioPercentages] keeps the holdings in number and
    order and changes no field but [portfolioPercent]; it returns its
    argument unchanged when the total investment is [0] (an empty
    portfolio, for one); and applying it twice gives what applying it once
    gives, whatever [Math.round] does. *)
Theorem X12_calculatePortfolioPercentages (Math_round : float → float)
    (stocks : list StockHolding) :
  let r := calculatePortfolioPercentages Math_round stocks in
  length r = length stocks ∧
  (∀ i s, stocks !! i = Some s →
     ∃ pc, r !! i = Some (sh_with_portfolioPercent pc s)) ∧
  (PrimFloat.eqb (sum_investment stocks) 0 = true → r = stocks) ∧
  calculatePortfolioPercentages Math_round [] = [] ∧
  calculatePortfolioPercentages Math_round r = r.
Proof.
  intros r. split_and!.
  - apply calculatePortfolioPercentages_length.
  - intros i s Hs. unfold r.
    rewrite calculatePortfolioPercentages_lookup, Hs. cbn.
    destruct (PrimFloat.eqb _ _); [| by eexists].
    exists (portfolioPercent s). by destruct s.
  - intros H0. unfold r, calculatePortfolioPercentages. by rewrite H0.
  - reflexivity.
  - assert (sum_investment r = sum_investment stocks) as Hsum.
    { apply sum_investment_ext. unfold r, calculatePortfolioPercentages.
      destruct (PrimFloat.eqb _ _).
      - by apply Forall2_same_length_lookup_2; [| intros i s s' -> [= <-]].
      - apply Forall2_fmap_r, Forall_Forall2_diag, Forall_forall. done. }
    unfold calculatePortfolioPercentages at 1. rewrite Hsum.
    unfold r, calculatePortfolioPercentages.
    destruct (PrimFloat.eqb (sum_investment stocks) 0); [done |].
    rewrite <- list_fmap_compose. apply list_fmap_ext. intros i s _. done.
Qed.

(** The holding [buildPortfolio] returns for a raw holding, given the
    quote found for it. *)
Lemma buildPortfolio_lookup Math_round Array_sort quotes rawStocks i :
  stocks (buildPortfolio Math_round Array_sort quotes rawStocks) !! i =
    (λ raw,
       let e :=
         calculateStockMetrics
           (match Map_get (particulars raw) quotes with
            | Some quote =>
                let c := or_undefined (regularMarketPrice quote) in
                sh_with_market c (or_undefined (peRatio quote))
                  (or_undefined (earningsPerShare quote))
                  ((λ c, PrimFloat.mul c (quantity raw)) <$> c)
                  ((λ pv, PrimFloat.sub pv
                            (PrimFloat.mul (purchasePrice raw) (quantity raw)))
                     <$> ((λ c, PrimFloat.mul c (quantity raw)) <$> c))
                  raw
            | None => raw
            end) in
       let total :=
         sum_investment
           (calculateStockMetrics <$>
              enrichStocksWithMarketData quotes rawStocks) in
       if PrimFloat.eqb total 0 then e
       else sh_with_portfolioPercent
              (round2 Math_round
                 (PrimFloat.mul
                    (PrimFloat.div
                       (PrimFloat.mul (purchasePrice e) (quantity e)) total)
                    100)) e) <$> rawStocks !! i.
Proof.
  unfold buildPortfolio. cbn [stocks].
  rewrite calculatePortfolioPercentages_lookup.
  unfold enrichStocksWithMarketData.
  rewrite !list_lookup_fmap. by destruct (rawStocks !! i).
Qed.

(** X13: the holdings of the portfolio [buildPortfolio] returns are the raw
    holdings in the same number and order, each with its name, purchase
    price, quantity, exchange and sector untouched and [investment] set to
    purchase price times quantity.  A holding for which the Quote Source
    gave a quote with a truthy price [p] has [cmp = p] and present value
    [p * quantity].  A holding whose quote has no such price loses its
    [cmp]; one with no quote at all keeps the [cmp] of the raw holding;
    either way a holding without a truthy [cmp] is reported with present
    value [0] and a loss of its whole investment. *)
Theorem X13_buildPortfolio_holdings (Math_round : float → float)
    (Array_sort : (SectorSummary → SectorSummary → float) →
                  list SectorSummary → list SectorSummary)
    (quotes : list (string * StockQuote)) (rawStocks : list StockHolding) :
  let p := buildPortfolio Math_round Array_sort quotes rawStocks in
  length (stocks p) = length rawStocks ∧
  ∀ i raw, rawStocks !! i = Some raw →
    ∃ s, stocks p !! i = Some s ∧
      particulars s = particulars raw ∧
      purchasePrice s = purchasePrice raw ∧ quantity s = quantity raw ∧
      sh_exchange s = sh_exchange raw ∧ sector s = sector raw ∧
      investment s = PrimFloat.mul (purchasePrice raw) (quantity raw) ∧
      cmp s =
        match Map_get (particulars raw) quotes with
        | Some quote => or_undefined (regularMarketPrice quote)
        | None => cmp raw
        end ∧
      (∀ c, cmp s = Some c → truthy_number c = true →
         presentValue s = Some (PrimFloat.mul c (quantity raw)) ∧
         gainLoss s =
           Some (PrimFloat.sub (PrimFloat.mul c (quantity raw))
                   (investment s))) ∧
      ((∀ c, cmp s = Some c → truthy_number c = false) →
         presentValue s = Some 0%float ∧
         gainLoss s = Some (PrimFloat.sub 0 (investment s))).
Proof.
  intros p. split.
  - unfold p, buildPortfolio. cbn [stocks].
    rewrite calculatePortfolioPercentages_length.
    unfold enrichStocksWithMarketData. by rewrite !length_fmap.
  - intros i raw Hraw. unfold p. rewrite buildPortfolio_lookup, Hraw.
    cbn [fmap option_fmap option_map]. eexists. split; [reflexivity |].
    set (total := sum_investment _).
    destruct (PrimFloat.eqb total 0);
      destruct (Map_get (particulars raw) quotes) as [quote |];
      cbn; split_and!; try reflexivity.
    all: try (intros c Hc Ht; cbn in Hc; rewrite Hc, Ht; by split).
    all: try (intros Hc; cbn in Hc;
              destruct (or_undefined (regularMarketPrice quote)) as [c |]
                eqn:E; [rewrite (Hc c eq_refl) | ]; by split).
    all: try (intros Hc; cbn in Hc;
              destruct (cmp raw) as [c |] eqn:E;
              [rewrite (Hc c eq_refl) | ]; by split).
Qed.

(** ** Grouping by sector *)

Lemma sector_map_snoc l s :
  sector_map (l ++ [s]) =
    let m := sector_map l in
    let sec := sector_of s in
    let m0 := match Map_get sec m with
              | Some _ => m
              | None => Map_set sec [] m
              end in
    Map_set sec (default [] (Map_get sec m0) ++ [s]) m0.
Proof. unfold sector_map. by rewrite fold_left_app. Qed.

Lemma sector_map_spec l :
  NoDup (Map_keys (sector_map l)) ∧
  ∀ k, Map_get k (sector_map l) =
       match in_sector k l with [] => None | g => Some g end.
Proof.
  induction l as [| s l [Hnd Hget]] using rev_ind.
  - split; [apply NoDup_nil_2 | done].
  - rewrite sector_map_snoc. cbn zeta.
    set (m := sector_map l) in *. set (sec := sector_of s).
    set (m0 := match Map_get sec m with Some _ => m | None => _ end).
    assert (NoDup (Map_keys m0)) as Hnd0.
    { unfold m0. destruct (Map_get sec m); [done |].
      by apply NoDup_Map_keys_set. }
    assert (∀ k, Map_get k m0 =
                 if decide (k = sec) then Some (default [] (Map_get sec m))
                 else Map_get k m) as Hget0.
    { intros k. unfold m0. destruct (Map_get sec m) as [g |] eqn:E.
      - case_decide as Hk; [rewrite Hk; by rewrite E | done].
      - by rewrite Map_get_set. }
    split; [by apply NoDup_Map_keys_set |].
    intros k. rewrite Map_get_set, (Hget0 sec).
    rewrite (decide_True (P := sec = sec)) by done.
    unfold in_sector. rewrite filter_app, filter_cons, filter_nil.
    fold (in_sector k l). fold sec.
    destruct (decide (k = sec)) as [-> | Hne].
    + rewrite decide_True by done. cbn [default]. rewrite Hget.
      by destruct (in_sector sec l).
    + rewrite decide_False by done. rewrite app_nil_r, Hget0, decide_False by done.
      apply Hget.
Qed.

Lemma sector_map_groups l e :
  e ∈ sector_map l → e.2 = in_sector e.1 l ∧ e.2 ≠ [].
Proof.
  destruct (sector_map_spec l) as [Hnd Hget]. intros He.
  destruct e as [k g]. apply (Map_get_elem _ _ _ Hnd) in He.
  rewrite Hget in He. cbn [fst snd].
  destruct (in_sector k l); [done |]. by injection He as <-.
Qed.

Lemma sector_map_covers l s : s ∈ l → sector_of s ∈ Map_keys (sector_map l).
Proof.
  intros Hs. destruct (sector_map_spec l) as [_ Hget].
  destruct (decide (sector_of s ∈ Map_keys (sector_map l))) as [| Hn];
    [done |].
  apply Map_get_None in Hn. rewrite Hget in Hn.
  assert (s ∈ in_sector (sector_of s) l) as Hin
    by (by apply list_elem_of_filter).
  destruct (in_sector (sector_of s) l); [by apply elem_of_nil in Hin | done].
Qed.

(** Spreading a list over distinct keys that cover it loses and repeats
    nothing. *)
Lemma concat_in_sector (keys : list string) l :
  NoDup keys → (∀ s, s ∈ l → sector_of s ∈ keys) →
  concat ((λ k, in_sector k l) <$> keys) ≡ₚ l.
Proof.
  intros Hnd. induction l as [| s l IH]; intros Hcov.
  - clear. induction keys as [| k keys IH]; [done |]. by rewrite fmap_cons.
  - assert (∀ ks, NoDup ks →
              concat ((λ k, in_sector k (s :: l)) <$> ks) ≡ₚ
                (if decide (sector_of s ∈ ks) then [s] else []) ++
                concat ((λ k, in_sector k l) <$> ks)) as Hks.
    { clear. induction ks as [| k ks IHk]; intros Hnd; [done |].
      apply NoDup_cons in Hnd as [Hk Hnd]. rewrite !fmap_cons.
      cbn [concat]. rewrite (IHk Hnd). unfold in_sector at 1.
      rewrite filter_cons. fold (in_sector k l).
      destruct (decide (sector_of s = k)) as [<- | Hne].
      - rewrite (decide_True (P := sector_of s ∈ sector_of s :: ks)) by left.
        rewrite (decide_False (P := sector_of s ∈ ks)) by done. done.
      - destruct (decide (sector_of s ∈ ks)) as [Hin | Hnin].
        + rewrite (decide_True (P := sector_of s ∈ k :: ks)) by (by right).
          cbn. by rewrite Permutation_middle.
        + rewrite (decide_False (P := sector_of s ∈ k :: ks)); [done |].
          by intros [? | ?]%elem_of_cons. }
    rewrite (Hks keys Hnd), decide_True by (apply Hcov; left).
    cbn. f_equiv. apply IH. intros s' Hs'. apply Hcov. by right.
Qed.

(** X14: [groupBySector] partitions the holdings by sector.  Whatever order
    the sort leaves the summaries in, as long as it returns the summaries
    it was given: no two groups have the same sector; the group of a sector
    holds exactly the holdings of that sector, in portfolio order, and is
    never empty; a holding with an empty sector is filed under
    [Unknown]; every holding is in the group of its sector, and the groups
    together hold every holding once. *)
Theorem X14_groupBySector_partition (Math_round : float → float)
    (Array_sort : (SectorSummary → SectorSummary → float) →
                  list SectorSummary → list SectorSummary)
    (stocks : list StockHolding) :
  (∀ compare l, Array_sort compare l ≡ₚ l) →
  let groups := groupBySector Math_round Array_sort stocks in
  NoDup (ss_sector <$> groups) ∧
  (∀ g, g ∈ groups →
     ss_stocks g = in_sector (ss_sector g) stocks ∧ ss_stocks g ≠ [] ∧
     ss_sector g ≠ "" ∧
     ss_totalInvestment g = round2 Math_round (sum_investment (ss_stocks g))) ∧
  (∀ s, s ∈ stocks →
     ∃ g, g ∈ groups ∧ ss_sector g = sector_of s ∧ s ∈ ss_stocks g) ∧
  concat (ss_stocks <$> groups) ≡ₚ stocks.
Proof.
  intros Hsort groups.
  assert (groups ≡ₚ sector_summary Math_round <$> sector_map stocks) as Hperm
    by apply Hsort.
  destruct (sector_map_spec stocks) as [Hnd Hget].
  assert (ss_sector <$> (sector_summary Math_round <$> sector_map stocks)
          = Map_keys (sector_map stocks)) as Hkeys.
  { rewrite <- list_fmap_compose. apply list_fmap_ext. by intros i [k g] _. }
  assert (∀ g, g ∈ groups →
            ∃ e, e ∈ sector_map stocks ∧ g = sector_summary Math_round e)
    as Hfrom.
  { intros g Hg. rewrite Hperm in Hg.
    apply list_elem_of_fmap in Hg as (e & -> & He). by exists e. }
  split_and!.
  - rewrite Hperm, Hkeys. exact Hnd.
  - intros g (e & He & ->)%Hfrom.
    destruct (sector_map_groups stocks e He) as [Hg Hne].
    cbn [ss_stocks ss_sector ss_totalInvestment sector_summary].
    split_and!; try done.
    intros Hempty. destruct e.2 as [| s g'] eqn:E; [done |].
    assert (s ∈ in_sector e.1 stocks) as Hs by (rewrite <- Hg; left).
    apply list_elem_of_filter in Hs as [Hsec _]. rewrite Hempty in Hsec.
    unfold sector_of in Hsec. by destruct (sector s).
  - intros s Hs. pose proof (sector_map_covers stocks s Hs) as Hk.
    apply list_elem_of_fmap in Hk as (e & Hsec & He).
    exists (sector_summary Math_round e). split_and!.
    + rewrite Hperm. apply list_elem_of_fmap. by exists e.
    + done.
    + cbn [ss_stocks sector_summary].
      destruct (sector_map_groups stocks e He) as [-> _].
      apply list_elem_of_filter. split; [done |]. exact Hs.
  - rewrite Hperm, <- list_fmap_compose.
    transitivity (concat ((λ k, in_sector k stocks) <$>
                            Map_keys (sector_map stocks))).
    + unfold Map_keys. rewrite <- list_fmap_compose.
      erewrite list_fmap_ext; [reflexivity |].
      intros i e Hi. cbn.
      by destruct (sector_map_groups stocks e (list_elem_of_lookup_2 _ _ _ Hi)).
    + apply concat_in_sector; [done |]. apply sector_map_covers.
Qed.

Lemma X14_groupBySector_partition_witness :
  let tcs :=
    {| particulars := "TCS"; purchasePrice := 10; quantity := 2;
       investment := 0; portfolioPercent := 0; sh_exchange := "NSE";
       sector := ""; cmp := None; presentValue := None; gainLoss := None;
       sh_peRatio := None; latestEarnings := None |} in
  ss_sector <$> groupBySector (λ x, x) (λ _ l, l) [tcs] = ["Unknown"] ∧
  concat (ss_stocks <$> groupBySector (λ x, x) (λ _ l, l) [tcs]) ≡ₚ [tcs].
Proof.
  intros tcs. split; [reflexivity |].
  exact (proj2 (proj2 (proj2
           (X14_groupBySector_partition (λ x, x) (λ _ l, l) [tcs]
              (λ _ l, reflexivity l))))).
Defined.

(** ** Connections nobody holds any more *)

(** X15: a connection that has left the registry, for whatever reason, and
    that no portfolio cycle waiting for the builder has in its snapshot, is
    out for good: whatever happens afterwards, it is never registered again
    and its socket is never sent another message. *)
Theorem X15_unregistered_stays_silent (evs evs' : list Event) (c : nat) :
  let st := run evs initial_state in
  unreferenced c st →
  registered c (run evs' st) = false ∧
  outbox_of c (run evs' st) = outbox_of c st.
Proof.
  intros st Hun. pose proof (reg_ok_run evs) as Hok. fold st in Hok.
  split; [| by apply unreferenced_run].
  destruct Hun as (Hlt & Hreg & _).
  destruct (lookup_lt_is_Some_2 _ _ Hlt) as [s Hs].
  destruct (evolves_run_any c evs' st s Hs) as [_ Hback].
  destruct (registered c (run evs' st)) eqn:E; [| done].
  rewrite <- Hreg. symmetry. by apply Hback.
Qed.

Lemma X15_unregistered_stays_silent_witness :
  let st := run [Initialize; Connection true 1] initial_state in
  unreferenced 0 st ∧
  outbox_of 0
    (run [TransportFault 0 false; TriggerUpdate; Connection false 2;
          PortfolioSettled 0 (BuildFailed None) 3] st) = [].
Proof.
  intros st.
  assert (unreferenced 0 st) as Hun.
  { split_and!; [change (0 < 1)%nat; lia | reflexivity |].
    intros snap Hsnap. vm_compute in Hsnap. by apply elem_of_nil in Hsnap. }
  split; [exact Hun |].
  exact (proj2 (X15_unregistered_stays_silent [Initialize; Connection true 1]
                  [TransportFault 0 false; TriggerUpdate; Connection false 2;
                   PortfolioSettled 0 (BuildFailed None) 3] 0 Hun)).
Defined.

(** ** Subscription keys *)

Lemma split_colon_plain b : includes_colon b = false → split_colon b = [b].
Proof.
  induction b as [| c b IH]; [done |]. cbn [includes_colon split_colon].
  destruct (is_colon c); [done |]. cbn [orb]. intros Hb. by rewrite IH.
Qed.

Lemma split_colon_append a r :
  includes_colon a = false →
  split_colon (a +:+ ":" +:+ r) = a :: split_colon r.
Proof.
  induction a as [| c a IH]; [done |]. cbn [includes_colon].
  destruct (is_colon c) eqn:Hc; [done |]. cbn [orb]. intros Ha.
  change (String c a +:+ ":" +:+ r) with (String c (a +:+ ":" +:+ r)).
  cbn [split_colon]. by rewrite Hc, IH.
Qed.

Lemma includes_colon_append a r : includes_colon (a +:+ ":" +:+ r) = true.
Proof.
  induction a as [| c a IH]; [done |].
  change (String c a +:+ ":" +:+ r) with (String c (a +:+ ":" +:+ r)).
  cbn [includes_colon]. rewrite IH. apply orb_true_r.
Qed.

(** X16: how a subscription key is read.  A key without a colon is a
    symbol on the default exchange [NSE]; [SYMBOL:EXCHANGE] gives the two
    parts; of a key with more colons the first two pieces are taken and
    the rest is dropped; and an empty piece is taken as it is, so [:BSE] is
    the empty symbol and [TCS:] the empty exchange, not [NSE]. *)
Theorem X16_symbol_parts (a b c : string) :
  includes_colon a = false ∧ includes_colon b = false →
  symbol_parts a = (a, "NSE") ∧
  symbol_parts (a +:+ ":" +:+ b) = (a, b) ∧
  symbol_parts (a +:+ ":" +:+ b +:+ ":" +:+ c) = (a, b) ∧
  symbol_parts (":" +:+ b) = ("", b) ∧
  symbol_parts (a +:+ ":") = (a, "").
Proof.
  intros [Ha Hb]. unfold symbol_parts. split_and!.
  - by rewrite Ha.
  - by rewrite includes_colon_append, split_colon_append, split_colon_plain.
  - rewrite includes_colon_append, split_colon_append by done.
    by rewrite split_colon_append.
  - change (":" +:+ b) with ("" +:+ ":" +:+ b).
    by rewrite includes_colon_append, split_colon_append, split_colon_plain.
  - change (a +:+ ":") with (a +:+ ":" +:+ "").
    by rewrite includes_colon_append, split_colon_append.
Qed.

Lemma X16_symbol_parts_witness :
  symbol_parts "TCS" = ("TCS", "NSE") ∧
  symbol_parts "TCS:BSE" = ("TCS", "BSE") ∧
  symbol_parts "TCS:BSE:X" = ("TCS", "BSE").
Proof.
  destruct (X16_symbol_parts "TCS" "BSE" "X" (conj eq_refl eq_refl))
    as (H1 & H2 & H3 & _).
  split_and!; [exact H1 | exact H2 | exact H3].
Defined.

Lemma fmap_NoDup_inj {A B} (f : A → B) (l : list A) x y :
  NoDup (f <$> l) → x ∈ l → y ∈ l → f x = f y → x = y.
Proof.
  induction l as [| z l IH]; intros Hnd Hx Hy Hf.
  - by apply elem_of_nil in Hx.
  - rewrite fmap_cons in Hnd. apply NoDup_cons in Hnd as [Hz Hnd].
    apply elem_of_cons in Hx as [-> | Hx];
      apply elem_of_cons in Hy as [-> | Hy]; [done | | | by apply IH].
    + exfalso. apply Hz. rewrite Hf. by apply list_elem_of_fmap_2.
    + exfalso. apply Hz. rewrite <- Hf. by apply list_elem_of_fmap_2.
Qed.

Lemma find_symbolKey_elem subs key :
  key ∈ subs →
  ∃ key', find_symbolKey subs (symbol_parts key).1 = Some key' ∧
          key' ∈ subs ∧ (symbol_parts key').1 = (symbol_parts key).1.
Proof.
  intros Hkey. destruct (find_symbolKey subs (symbol_parts key).1)
    as [key' |] eqn:Hfind.
  - exists key'. split; [done |].
    by destruct (find_symbolKey_Some _ _ _ Hfind).
  - unfold find_symbolKey in Hfind.
    apply list_elem_of_In in Hkey.
    pose proof (find_none _ _ Hfind key Hkey) as Hb. cbn beta in Hb.
    by rewrite bool_decide_eq_true_2 in Hb.
Qed.

(** X17: the request of a price cycle and the attribution of the quotes
    fit together.  Every symbol the cycle asks for is the symbol part of a
    subscribed key, so a quote returned for a requested symbol is always
    attributed to a key; the key is the first subscribed one with that
    symbol part, and when no two subscribed keys share their symbol part it
    is the key the request was made for. *)
Theorem X17_request_finds_key (subs : list string) (answers : list answer) :
  (∀ key, key ∈ subs →
     symbol_parts key ∈ quote_request subs ∧
     ∃ key', find_symbolKey subs (symbol_parts key).1 = Some key' ∧
             key' ∈ subs ∧ (symbol_parts key').1 = (symbol_parts key).1) ∧
  (NoDup ((λ k, (symbol_parts k).1) <$> subs) →
   ∀ key, key ∈ subs →
     find_symbolKey subs (symbol_parts key).1 = Some key) ∧
  ((∀ a, a ∈ answers → a.1 ∈ quote_request subs) →
   ∀ o quote, Map_get o (getMultipleStockQuotes answers) = Some quote →
     ∃ key, find_symbolKey subs o = Some key ∧ key ∈ subs ∧
            (symbol_parts key).1 = o).
Proof.
  split_and!.
  - intros key Hkey. split; [| by apply find_symbolKey_elem].
    unfold quote_request. by apply list_elem_of_fmap_2.
  - intros Hnd key Hkey.
    destruct (find_symbolKey_elem subs key Hkey) as (key' & Hfind & Hin & Heq).
    rewrite Hfind. f_equal.
    by apply (fmap_NoDup_inj (λ k, (symbol_parts k).1) subs).
  - intros Hans o quote Hget.
    assert (∃ a, a ∈ answers ∧ a.1.1 = o) as (a & Ha & Ho).
    { unfold getMultipleStockQuotes in Hget.
      rewrite getMultipleStockQuotes_fold in Hget.
      destruct (last (sets_for o answers)) as [q |] eqn:Hlast; [| done].
      apply last_Some_elem_of, list_elem_of_omap in Hlast as (a & Ha & Hq).
      exists a. split; [done |]. by case_decide. }
    apply Hans, list_elem_of_fmap in Ha as (key & Hparts & Hkey).
    destruct (find_symbolKey_elem subs key Hkey) as (key' & Hfind & Hin & Heq).
    exists key'. rewrite <- Ho, Hparts. by split_and!.
Qed.

(** ** How the price history store changes *)

Lemma priceHistory_step_other e st :
  match e with
  | QuotesSettled _ _ _ | CloseService => False
  | _ => True
  end →
  priceHistory (step e st) = priceHistory st.
Proof.
  assert (∀ s s', frame s s' → priceHistory s' = priceHistory s) as Hf.
  { intros s s' H. by apply frame_history in H as [? _]. }
  intros He. destruct e; cbn [step]; try done.
  - unfold initialize, startPeriodicUpdates, startStockPriceUpdates,
      setInterval, clearInterval. destruct st; cbn. by repeat case_match.
  - destruct (wss st); [| done]. unfold on_connection.
    set (st0 := with_clients _ (with_sockets _ st)).
    set (st1 := sendToClient (length (sockets st)) (Connected now) st0).
    assert (priceHistory st1 = priceHistory st) as <-.
    { unfold st1. by rewrite (Hf _ _ (frame_sendToClient _ _ st0)). }
    unfold broadcastPortfolioUpdate. by case_decide.
  - destruct data; cbn [on_message]; [| done].
    apply Hf, frame_handleClientMessage.
  - destruct (timers st !! h) as [[t |] |]; [| done ..].
    destruct (callback t); cbn [fire].
    + unfold broadcastPortfolioUpdate. by case_decide.
    + unfold broadcastStockPriceUpdates. by case_decide.
    + apply Hf, frame_heartbeat.
  - destruct (pendingPortfolio st !! i); [| done].
    by rewrite (Hf _ _ (frame_portfolio_resume _ _ _ _)).
  - unfold broadcastPortfolioUpdate. by case_decide.
  - unfold broadcastStockPriceUpdates. by case_decide.
  - unfold setUpdateInterval, startPeriodicUpdates, setInterval, clearInterval.
    destruct st; cbn. by repeat case_match.
  - unfold setStockUpdateInterval, startStockPriceUpdates, setInterval,
      clearInterval. destruct st; cbn. by repeat case_match.
Qed.

Lemma quotes_fold_key subs now qs acc k :
  NoDup qs.*1 → history_ok acc.2 →
  let r := fold_left (quote_step subs now) qs acc in
  series k r.2 = series k acc.2 ∨
  ∃ p, truthy_number p = true ∧ k ≠ "" ∧
       series k r.2 = capped 100 (series k acc.2 ++ [point (p, now)]).
Proof.
  revert acc. induction qs as [| e qs IH]; intros acc Hnd Hok; [by left |].
  rewrite fmap_cons in Hnd. apply NoDup_cons in Hnd as [He Hnd].
  cbn [fold_left].
  pose proof (history_ok_quote_step subs now acc e Hok) as Hok'.
  destruct (quote_step_cases subs now acc e)
    as [Hsame | (key & p & Hkey & Hp & Hk & Ht & Hstep)].
  - rewrite Hsame in *. by apply IH.
  - rewrite Hstep in *. cbn [snd] in Hok'.
    destruct (decide (key = k)) as [-> | Hne].
    + right. exists p. split_and!; [done | by intros -> |].
      destruct (quotes_fold_pass subs now qs
                  (acc.1 ++ [make_update e.1 e.2 p
                                (latest_price (series k acc.2)) now],
                   updatePriceHistory k p now acc.2) Hnd)
        as (more & _ & _ & Hall & Hstore & _).
      unfold series at 1. rewrite Hstore.
      * cbn [snd]. fold (series k (updatePriceHistory k p now acc.2)).
        rewrite series_updatePriceHistory. by destruct Hok as [-> _].
      * intros u Hu Hfind.
        destruct (Hall u Hu) as (quote & _ & Hin & _).
        apply He. apply list_elem_of_fmap. exists (symbol u, quote).
        split; [| done]. cbn [fst].
        destruct (find_symbolKey_Some _ _ _ Hkey) as [<- _].
        by destruct (find_symbolKey_Some _ _ _ Hfind) as [<- _].
    + destruct (IH (acc.1 ++ [make_update e.1 e.2 p
                                (latest_price (series key acc.2)) now],
                    updatePriceHistory key p now acc.2) Hnd Hok')
        as [Hs | (p' & Hp' & Hk' & Hs)]; cbn [snd] in Hs.
      * left. rewrite Hs. unfold series. cbn [snd].
        by rewrite lookup_updatePriceHistory_ne.
      * right. exists p'. split_and!; [done .. |]. rewrite Hs.
        unfold series. cbn [snd]. by rewrite lookup_updatePriceHistory_ne.
Qed.

Lemma store_ok_quotes subs now qs acc :
  history_ok acc.2 → store_ok acc.2 →
  store_ok (fold_left (quote_step subs now) qs acc).2.
Proof.
  revert acc. induction qs as [| e qs IH]; intros acc Hok Hst; [done |].
  cbn [fold_left].
  apply IH; [by apply history_ok_quote_step |].
  destruct (quote_step_cases subs now acc e)
    as [-> | (key & p & Hkey & Hp & Hk & Ht & ->)]; [done |].
  cbn [snd]. intros k h.
  destruct (decide (key = k)) as [-> | Hne].
  - rewrite lookup_updatePriceHistory. intros [= <-].
    split; [by intros -> |]. intros Hnil.
    assert (last (capped (maxHistoryPoints acc.2)
                    (series k acc.2 ++ [point (p, now)])) = Some (point (p, now)))
      as Hlast.
    { apply last_capped. destruct Hok as [-> _]. lia. }
    by rewrite Hnil in Hlast.
  - rewrite lookup_updatePriceHistory_ne by done. apply Hst.
Qed.

Lemma store_ok_step e st : history_ok st → store_ok st → store_ok (step e st).
Proof.
  intros Hok Hst.
  destruct e;
    try (unfold store_ok;
         match goal with
         | |- context [step ?e st] =>
             by rewrite (priceHistory_step_other e st I)
         end).
  - cbn [step]. destruct (pendingQuotes st !! i) as [subs |]; [| done].
    set (st' := with_pendingQuotes _ st).
    destruct r as [results |]; cbn [broadcastStockPriceUpdates_resume];
      [| done].
    pose proof (store_ok_quotes subs now (quotes_map results) ([], st'))
      as Hfold.
    destruct (fold_left _ _ _) as [ups s1]. cbn [snd] in Hfold.
    assert (store_ok s1) as Hs1.
    { apply Hfold; unfold st'; by destruct st. }
    case_decide; [done |]. unfold store_ok.
    assert (frame s1 (clients_forEach (stock_fanout_client ups now) s1))
      as [-> _]%frame_history; [| done].
    apply frame_clients_forEach. intros. apply frame_stock_fanout_client.
  - cbn [step]. unfold store_ok.
    destruct (close_registry st) as (_ & -> & _). intros k h.
    by rewrite lookup_empty.
Qed.

Lemma store_ok_run evs : store_ok (run evs initial_state).
Proof.
  induction evs as [| e evs IH] using rev_ind.
  - intros k h. cbn. by rewrite lookup_empty.
  - rewrite run_snoc. apply store_ok_step; [apply history_ok_run | done].
Qed.

(** X18: what a task does to the price history of a key.  Only a price
    pass and [close] write the store: [close] empties it; the pass of a
    cycle appends at most one point to a series, with a truthy price and
    the time of the pass, dropping the oldest point of a full series, and
    never under the empty key; every other task leaves every series as it
    is.  So every series of the store is non-empty and ends with a truthy
    price, in every state the service can reach. *)
Theorem X18_history_writes (evs : list Event) (e : Event) (k : string) :
  let st := run evs initial_state in
  (series k (step e st) = series k st ∨
   (is_close e = true ∧ series k (step e st) = []) ∨
   ∃ i r now p,
     e = QuotesSettled i r now ∧ truthy_number p = true ∧ k ≠ "" ∧
     series k (step e st) = capped 100 (series k st ++ [point (p, now)])) ∧
  (∀ h, priceHistory st !! k = Some h →
     k ≠ "" ∧ ∃ p, latest_price h = Some p ∧ truthy_number p = true).
Proof.
  intros st. pose proof (history_ok_run evs) as Hok. fold st in Hok. split.
  - destruct e;
      try (left; unfold series;
           match goal with
           | |- context [step ?e st] =>
               by rewrite (priceHistory_step_other e st I)
           end).
    + cbn [step]. destruct (pendingQuotes st !! i) as [subs |]; [| by left].
      set (s' := with_pendingQuotes _ st).
      destruct r as [results |]; cbn [broadcastStockPriceUpdates_resume];
        [| by left].
      assert (history_ok s') as Hok' by (unfold s'; by destruct st).
      pose proof (quotes_fold_key subs now (quotes_map results) ([], s') k
                    (NoDup_quotes_map results) Hok') as Hk.
      cbn zeta in Hk. cbn [snd] in Hk.
      assert (series k s' = series k st) as Hs' by done. rewrite Hs' in Hk.
      destruct (fold_left _ _ _) as [ups s1]. cbn [snd] in Hk.
      assert (series k (if decide (length ups = 0%nat) then s1
                        else clients_forEach (stock_fanout_client ups now) s1)
              = series k s1) as ->.
      { case_decide; [done |]. unfold series.
        assert (frame s1 (clients_forEach (stock_fanout_client ups now) s1))
          as [-> _]%frame_history; [| done].
        apply frame_clients_forEach. intros. apply frame_stock_fanout_client. }
      destruct Hk as [Hk | (p & Hp & Hne & Hk)]; [by left |].
      right. right. by exists i, (Quoted results), now, p.
    + right. left. split; [done |]. cbn [step]. unfold series.
      destruct (close_registry st) as (_ & -> & _). by rewrite lookup_empty.
  - intros h Hh. destruct (store_ok_run evs k h Hh) as [Hk Hne].
    split; [done |]. destruct Hok as [_ Hprices].
    destruct (Hprices k h Hh) as [_ Hall]. unfold latest_price.
    destruct (last h) as [pt |] eqn:Hlast.
    + exists (cdp_price pt). split; [done |].
      apply Hall. by eapply last_Some_elem_of.
    + by apply last_None in Hlast.
Qed.

(** ** A price cycle, end to end *)

Lemma quotes_fold_emits subs now qs acc o quote key p :
  NoDup qs.*1 → (o, quote) ∈ qs →
  find_symbolKey subs o = Some key → truthy_string key = true →
  regularMarketPrice quote = Some p → truthy_number p = true →
  ∃ u, u ∈ (fold_left (quote_step subs now) qs acc).1 ∧
       symbol u = o ∧ price u = p ∧ timestamp u = now.
Proof.
  intros Hnd Hin Hkey Hk Hp Ht. revert acc Hnd Hin.
  induction qs as [| e qs IH]; intros acc Hnd Hin.
  - by apply elem_of_nil in Hin.
  - rewrite fmap_cons in Hnd. apply NoDup_cons in Hnd as [He Hnd].
    cbn [fold_left]. apply elem_of_cons in Hin as [<- | Hin]; [| by apply IH].
    destruct (quotes_fold_pass subs now qs
                (quote_step subs now acc (o, quote)) Hnd)
      as (more & -> & _).
    unfold quote_step. cbn [fst snd]. rewrite Hkey, Hp, Hk, Ht. cbn [andb fst].
    eexists. split; [apply elem_of_app; left; apply elem_of_app; right; left |].
    done.
Qed.

(** X19: a price cycle delivers.  Let a cycle be waiting for its quotes,
    and let a registered connection with a working transport be subscribed
    to a symbol [s] written without an exchange, which the cycle asked for.
    When the quotes arrive with a truthy price for [s], the connection is
    sent exactly one message, and it carries the update of [s] with that
    price and the time of the pass: alone, or in the list of the updates of
    all its symbols. *)
Theorem X19_plain_symbol_update_delivered (evs : list Event) (i : nat)
    (subs : list string) (results : list (string * StockQuote)) (now : Z)
    (c : nat) (sub : ClientSubscription) (s : string) (quote : StockQuote)
    (p : float) :
  let st := run evs initial_state in
  let r := step (QuotesSettled i (Quoted results) now) st in
  pendingQuotes st !! i = Some subs →
  Map_get c (clients st) = Some sub → deliverable c st = true →
  s ∈ subscribedStocks sub → s ∈ subs →
  includes_colon s = false → s ≠ "" →
  Map_get s (quotes_map results) = Some quote →
  regularMarketPrice quote = Some p → truthy_number p = true →
  ∃ m u,
    outbox_of c r = outbox_of c st ++ [m] ∧
    symbol u = s ∧ price u = p ∧ timestamp u = now ∧
    (m = StockPriceUpdateData u now ∨
     ∃ l, m = StockPriceUpdateStocks l now ∧ u ∈ l).
Proof.
  intros st r Hi Hget Hdel Hs Hsubs Hcolon Hne Hquote Hp Ht.
  pose proof (reg_ok_run evs) as (Hwf & _). fold st in Hwf.
  assert ((symbol_parts s).1 = s) as Hpart
    by (unfold symbol_parts; by rewrite Hcolon).
  destruct (find_symbolKey_elem subs s Hsubs) as (key & Hkey & _ & Hkpart).
  rewrite Hpart in Hkey, Hkpart.
  assert (truthy_string key = true) as Hk.
  { destruct key; [| done]. cbn in Hkpart. congruence. }
  unfold r. cbn [step]. rewrite Hi. cbn [broadcastStockPriceUpdates_resume].
  set (st' := with_pendingQuotes _ st).
  destruct (quotes_fold_emits subs now (quotes_map results) ([], st') s quote
              key p (NoDup_quotes_map results)
              (Map_get_Some_elem _ _ _ Hquote) Hkey Hk Hp Ht)
    as (u & Hu & Hsym & Hprice & Hts).
  destruct (quotes_fold_registry subs now (quotes_map results) ([], st'))
    as (Hsock & Hcl & _).
  destruct (fold_left _ _ _) as [ups st1]. cbn [fst snd] in *.
  rewrite decide_False
    by (intros Hlen%length_zero_iff_nil; rewrite Hlen in Hu;
        by apply elem_of_nil in Hu).
  rewrite stock_fanout_eq.
  assert (registry_wf (clients st1)) as Hwf1 by (by rewrite Hcl).
  destruct (fanout_view (stock_message ups now) st1 c Hwf1) as (Ho & _).
  rewrite Ho. unfold fanout_received, deliverable, outbox_of.
  rewrite Hcl, Hsock. change (clients st') with (clients st).
  change (sockets st') with (sockets st). rewrite Hget.
  fold (deliverable c st). rewrite Hdel. unfold stock_message.
  assert (u ∈ filter (λ u, Set_has (symbol u) (subscribedStocks sub) = true)
                ups) as Hin.
  { apply list_elem_of_filter. split; [| done].
    unfold Set_has. apply bool_decide_eq_true_2. by rewrite Hsym. }
  destruct (filter _ ups) as [| u1 [| u2 l]] eqn:Hf.
  - by apply elem_of_nil in Hin.
  - apply list_elem_of_singleton in Hin as <-.
    exists (StockPriceUpdateData u now), u. split_and!; try done. by left.
  - exists (StockPriceUpdateStocks (u1 :: u2 :: l) now), u.
    split_and!; try done. right. by eexists.
Qed.

Lemma X19_plain_symbol_update_delivered_witness :
  let evs :=
    [Initialize; Connection false 1; Message 0 (subscribe_stocks ["TCS"]) 2;
     TriggerStockUpdate] in
  let st := run evs initial_state in
  let r :=
    step (QuotesSettled 0 (Quoted [("TCS", sample_quote "NSE" 100)]) 5) st in
  pendingQuotes st !! 0%nat = Some ["TCS"] ∧
  ∃ m u, outbox_of 0 r = outbox_of 0 st ++ [m] ∧ symbol u = "TCS" ∧
         price u = 100%float.
Proof.
  intros evs st r. split; [reflexivity |].
  destruct (X19_plain_symbol_update_delivered evs 0 ["TCS"]
              [("TCS", sample_quote "NSE" 100)] 5 0
              {| ws := 0; subscribedStocks := ["TCS"];
                 subscribedToPortfolio := true |}
              "TCS" (sample_quote "NSE" 100) 100%float
              eq_refl eq_refl eq_refl (list_elem_of_here _ _)
              (list_elem_of_here _ _) eq_refl
              (λ H, eq_ind "TCS"
                      (λ x, match x with EmptyString => False | _ => True end)
                      I "" H)
              eq_refl eq_refl eq_refl)
    as (m & u & Ho & Hsym & Hp & _).
  exists m, u. by split_and!.
Defined.
